(** * Borderland shard manager: event queue, move executor and shard keeper

    A shallow embedding of the rebalance pipeline of the shard manager
    (pkg/commonutil/pq.go, server/smserver/eq.go, the move operator, the
    early eventQueue of package server and pkg/apputil/core/shardkeeper.go)
    together with the properties its design document states about it. *)

From Stdlib Require Import ZArith Lia List String.
From stdpp Require Import base option list gmap sets strings.

Local Open Scope Z_scope.

(** ** pkg/commonutil/pq.go and Go's container/heap *)

Module PQ.

(** [type Item struct { Value string; Priority int64; Index int }] *)
Record Item := mkItem { Value : string; Priority : Z; Index : Z }.

Definition setIndex (it : Item) (i : Z) : Item :=
  mkItem (Value it) (Priority it) i.

(** [type PriorityQueue []*Item].  An index expression [pq[i]] panics when
    [i] is out of range; [None] stands for that panic. *)
Definition at_ (pq : list Item) (i : Z) : option Item :=
  if decide (0 <= i) then pq !! Z.to_nat i else None.

(** [func (pq PriorityQueue) Len() int] *)
Definition Len (pq : list Item) : Z := Z.of_nat (length pq).

(** [func (pq PriorityQueue) Less(i, j int) bool] *)
Definition Less (pq : list Item) (i j : Z) : option bool :=
  a ← at_ pq i; b ← at_ pq j; Some (bool_decide (Priority a > Priority b)).

(** [func (pq PriorityQueue) Swap(i, j int)] *)
Definition Swap (pq : list Item) (i j : Z) : option (list Item) :=
  if decide (Len pq <= 1) then Some pq
  else
    a ← at_ pq i; b ← at_ pq j;
    Some (<[Z.to_nat j := setIndex a j]> (<[Z.to_nat i := setIndex b i]> pq)).

(** [func (pq *PriorityQueue) Push(x interface{})] *)
Definition Push (pq : list Item) (x : Item) : list Item :=
  let n := Len pq in
  pq ++ [setIndex x n].

(** [func (pq *PriorityQueue) Pop() interface{}]: the returned item ([None]
    is Go's nil) and the shortened queue. *)
Definition Pop (pq : list Item) : option Item * list Item :=
  let n := Len pq in
  if decide (n = 0) then (None, pq)
  else
    match at_ pq (n - 1) with
    | Some item => (Some (setIndex item (-1)), take (Z.to_nat (n - 1)) pq)
    | None => (None, pq)
    end.

(** [container/heap]: [up] and [down].  The loops run on fuel; the entry
    points give them as much as the index can move. *)
Fixpoint up_loop (fuel : nat) (h : list Item) (j : Z) : option (list Item) :=
  match fuel with
  | O => None
  | S fuel' =>
      let i := Z.quot (j - 1) 2 in
      if decide (i = j) then Some h
      else
        lt ← Less h j i;
        if negb lt then Some h
        else h' ← Swap h i j; up_loop fuel' h' i
  end.

Definition up (h : list Item) (j : Z) : option (list Item) :=
  up_loop (S (Z.to_nat j)) h j.

Fixpoint down_loop (fuel : nat) (h : list Item) (i n : Z)
  : option (list Item * Z) :=
  match fuel with
  | O => None
  | S fuel' =>
      let j1 := 2 * i + 1 in
      if decide (j1 >= n \/ j1 < 0) then Some (h, i)
      else
        let j2 := j1 + 1 in
        right_first ← (if decide (j2 < n) then Less h j2 j1 else Some false);
        let j := if (right_first : bool) then j2 else j1 in
        lt ← Less h j i;
        if negb lt then Some (h, i)
        else h' ← Swap h i j; down_loop fuel' h' j n
  end.

Definition down (h : list Item) (i0 n : Z) : option (list Item * bool) :=
  r ← down_loop (S (Z.to_nat n)) h i0 n;
  Some (r.1, bool_decide (r.2 > i0)).

(** [func Push(h Interface, x any)] of container/heap *)
Definition heap_Push (h : list Item) (x : Item) : option (list Item) :=
  let h1 := Push h x in
  up h1 (Len h1 - 1).

(** [func Pop(h Interface) any] of container/heap *)
Definition heap_Pop (h : list Item) : option (option Item * list Item) :=
  let n := Len h - 1 in
  h1 ← Swap h 0 n;
  r ← down h1 0 n;
  Some (Pop r.1).

(** Priority stored at a position (0 outside the array). *)
Definition prio (h : list Item) (k : Z) : Z :=
  match at_ h k with Some it => Priority it | None => 0 end.

(** Max-heap property of the first [n] cells, by parents. *)
Definition heap_upto (h : list Item) (n : Z) : Prop :=
  forall k, 0 < k < n -> prio h k <= prio h ((k - 1) / 2).

(** Max-heap property as the design states it: every internal node is at
    least as large as each of its children. *)
Definition is_heap (h : list Item) : Prop :=
  forall i c a b,
    0 <= i -> (c = 2 * i + 1 \/ c = 2 * i + 2) ->
    at_ h i = Some a -> at_ h c = Some b ->
    Priority b <= Priority a.

(** Sequences of heap operations. *)
Inductive op := OpPush (x : Item) | OpPop.

Definition step (h : list Item) (o : op) : option (list Item) :=
  match o with
  | OpPush x => heap_Push h x
  | OpPop => r ← heap_Pop h; Some r.2
  end.

Fixpoint run (ops : list op) (h : list Item) : option (list Item) :=
  match ops with
  | [] => Some h
  | o :: ops' => h' ← step h o; run ops' h'
  end.

(** [heap.Pop] on [h] returns the root item, no item of [h] has a larger
    priority, and one item less is left. *)
Definition pops_largest (h : list Item) : Prop :=
  exists it root h',
    heap_Pop h = Some (Some it, h') /\
    at_ h 0 = Some root /\ Priority it = Priority root /\
    Len h' = Len h - 1 /\
    forall x, x ∈ h -> Priority x <= Priority it.

(** A queue of three items in heap order. *)
Definition three_items : list Item :=
  [mkItem "b" 9 0; mkItem "a" 5 1; mkItem "c" 7 2].

(** Invariant of [up]: the heap order may only fail between [j] and its
    parent. *)
Definition up_inv (h : list Item) (j : Z) : Prop :=
  (forall k, 0 < k < Len h -> k <> j -> prio h k <= prio h ((k - 1) / 2)) /\
  (forall k, 0 < k < Len h -> (k - 1) / 2 = j -> 0 < j ->
     prio h k <= prio h ((j - 1) / 2)).

(** Invariant of [down]: the heap order of the first [n] cells may only
    fail between [i] and its children. *)
Definition down_inv (h : list Item) (i n : Z) : Prop :=
  (forall k, 0 < k < n -> (k - 1) / 2 <> i ->
     prio h k <= prio h ((k - 1) / 2)) /\
  (forall k, 0 < k < n -> (k - 1) / 2 = i -> 0 < i ->
     prio h k <= prio h ((i - 1) / 2)).

(** [func Init(h Interface)] of container/heap:
    [for i := n/2 - 1; i >= 0; i-- { down(h, i, n) }]. *)
Fixpoint Init_loop (fuel : nat) (h : list Item) (i n : Z)
  : option (list Item) :=
  match fuel with
  | O => None
  | S fuel' =>
      if decide (i >= 0)
      then r ← down h i n; Init_loop fuel' r.1 (i - 1) n
      else Some h
  end.

Definition heap_Init (h : list Item) : option (list Item) :=
  let n := Len h in
  Init_loop (S (Z.to_nat (Z.quot n 2))) h (Z.quot n 2 - 1) n.

(** Every item sits at the position its [Index] field names. *)
Definition indexed (h : list Item) : Prop :=
  forall k it, at_ h k = Some it -> Index it = k.

(** What an item carries apart from its index. *)
Definition content (it : Item) : string * Z := (Value it, Priority it).

(** [for h.Len() > 0 { heap.Pop(h) }]: the items in the order they come
    out, at most [n] of them. *)
Fixpoint drain (n : nat) (h : list Item) : option (list Item) :=
  match n with
  | O => Some []
  | S n' =>
      r ← heap_Pop h;
      match r.1 with
      | Some it => rest ← drain n' r.2; Some (it :: rest)
      | None => Some []
      end
  end.

(** No number of the list is larger than one that comes before it. *)
Fixpoint descending (l : list Z) : Prop :=
  match l with
  | [] => True
  | x :: l' => Forall (λ y, y <= x) l' /\ descending l'
  end.

End PQ.

(** ** Go runtime notions shared by the components *)

Module Go.

(** How a call ends: it returns, it panics (deferred calls still run), the
    runtime aborts the process with a fatal error, or the goroutine is
    parked on a full channel or a held mutex. *)
Inductive exit :=
  | Returned
  | Panicked (msg : string)
  | Fatal (msg : string)
  | Blocked.

Inductive arg := ArgS (s : string) | ArgZ (z : Z).

(** Error values: the sentinels of commonutil and etcdutil, [errors.New],
    [errors.Errorf] (format and arguments kept apart) and failures reported
    by a collaborator. *)
Inductive error :=
  | ErrNotExist
  | ErrExist
  | ErrEtcdValueNotMatch
  | ErrNew (msg : string)
  | Errorf (format : string) (args : list arg)
  | ErrExternal (msg : string).

#[global] Instance arg_eq_dec : EqDecision arg.
Proof. solve_decision. Defined.
#[global] Instance error_eq_dec : EqDecision error.
Proof. solve_decision. Defined.

(** [sync.Mutex]: its state and the calls made on it so far. *)
Inductive mu_op := MuLock | MuUnlock.

#[global] Instance mu_op_eq_dec : EqDecision mu_op.
Proof. solve_decision. Defined.

Record Mutex := mkMutex { held : bool; ops : list mu_op }.

(** [Lock] on a held mutex waits ([None]). *)
Definition Lock (m : Mutex) : option Mutex :=
  if held m then None else Some (mkMutex true (ops m ++ [MuLock])).

(** [Unlock]; the flag is false when the mutex was not held, which the
    runtime answers with "fatal error: sync: unlock of unlocked mutex". *)
Definition Unlock (m : Mutex) : Mutex * bool :=
  (mkMutex false (ops m ++ [MuUnlock]), held m).

Definition unlock_of_unlocked : string := "sync: unlock of unlocked mutex".


End Go.

(** ** server/smserver/eq.go *)

Module EQ.
Import Go.

Definition defaultEventChanLength : nat := 32.

(** [eventType] is an int; the constants start at [iota + 1]. *)
Definition tShardChanged : Z := 1.
Definition tShardLoadChanged : Z := 2.
Definition tContainerChanged : Z := 3.
Definition tContainerLoadChanged : Z := 4.
Definition tContainerInit : Z := 5.

Record mvEvent := mkEvent {
  Service : string;
  Type_ : Z;
  EnqueueTime : Z;
  Value : string
}.

(** [eventQueue].  [parent_service] is [eq.parent.service]; a channel is the
    list of events buffered in it; [evLoops] lists the services for which an
    evLoop goroutine was started. *)
Record eventQueue := mkEQ {
  parent_service : string;
  pq : list PQ.Item;
  mu : Mutex;
  serviceEvChan : gmap string (list mvEvent);
  serviceBlk : gset string;
  evLoops : list string
}.

Definition set_pq (eq : eventQueue) (h : list PQ.Item) : eventQueue :=
  mkEQ (parent_service eq) h (mu eq) (serviceEvChan eq) (serviceBlk eq)
       (evLoops eq).
Definition set_mu (eq : eventQueue) (m : Mutex) : eventQueue :=
  mkEQ (parent_service eq) (pq eq) m (serviceEvChan eq) (serviceBlk eq)
       (evLoops eq).
Definition set_chan (eq : eventQueue) (c : gmap string (list mvEvent))
  : eventQueue :=
  mkEQ (parent_service eq) (pq eq) (mu eq) c (serviceBlk eq) (evLoops eq).
Definition set_blk (eq : eventQueue) (b : gset string) : eventQueue :=
  mkEQ (parent_service eq) (pq eq) (mu eq) (serviceEvChan eq) b (evLoops eq).
Definition add_loop (eq : eventQueue) (service : string) : eventQueue :=
  mkEQ (parent_service eq) (pq eq) (mu eq) (serviceEvChan eq) (serviceBlk eq)
       (evLoops eq ++ [service]).

(** Modelled from the spec: [apputil.EtcdPathAppShardTask], whose package is
    not among the sources; the design names the key [task/<service>]. *)
Definition EtcdPathAppShardTask (service : string) : string :=
  ("task/" ++ service)%string.

(** One call of the store client's [CompareAndSwap]. *)
Record casCall := mkCas {
  cas_key : string;
  cas_cur : string;
  cas_new : string;
  cas_lease : Z
}.

Section Collaborators.

(** [json.Unmarshal([]byte(item.Value), &ev)] *)
Variable unmarshal : string -> option mvEvent.

(** The consistent store and the client wrapper's [CompareAndSwap]. *)
Variable Store : Type.
Variable CompareAndSwap :
  Store -> string -> string -> string -> Z -> Store * option error.

(** [ch <- &ev] on the channel of [service] (capacity 32). *)
Definition send (service : string) (ev : mvEvent) (eq : eventQueue)
  : eventQueue * exit :=
  let ch := default [] (serviceEvChan eq !! service) in
  if decide (length ch < defaultEventChanLength)%nat
  then (set_chan eq (<[service := ch ++ [ev]]> (serviceEvChan eq)), Returned)
  else (eq, Blocked).

(** The body of [push], between [eq.mu.Lock()] and the deferred unlock. *)
Definition push_body (now : Z) (item : PQ.Item) (checkDup : bool)
    (eq : eventQueue) : eventQueue * exit :=
  match unmarshal (PQ.Value item) with
  | None => (eq, Returned)
  | Some ev =>
      if checkDup && bool_decide (Service ev ∈ serviceBlk eq)
      then (eq, Returned)
      else
        let eq1 :=
          if checkDup then set_blk eq ({[Service ev]} ∪ serviceBlk eq)
          else eq in
        let eq2 :=
          match serviceEvChan eq1 !! Service ev with
          | Some _ => eq1
          | None =>
              add_loop
                (set_chan eq1 (<[Service ev := []]> (serviceEvChan eq1)))
                (Service ev)
          end in
        if bool_decide (Type_ ev = tShardChanged \/
                        Type_ ev = tContainerChanged \/
                        Type_ ev = tContainerInit)
        then send (Service ev) ev eq2
        else if bool_decide (Type_ ev = tShardLoadChanged \/
                             Type_ ev = tContainerLoadChanged)
        then
          if bool_decide (now >= PQ.Priority item)
          then send (Service ev) ev eq2
          else
            match PQ.heap_Push (pq eq2) item with
            | Some h => (set_pq eq2 h, Returned)
            | None => (eq2, Panicked "index out of range")
            end
        else (eq2, Panicked "unknown ev type")
  end.

(** [func (eq *eventQueue) push(item *Item, checkDup bool)]:
    [eq.mu.Lock(); defer eq.mu.Unlock(); ...]. *)
Definition push (now : Z) (item : PQ.Item) (checkDup : bool)
    (eq : eventQueue) : eventQueue * exit :=
  match Lock (mu eq) with
  | None => (eq, Blocked)
  | Some m =>
      let '(eq1, e) := push_body now item checkDup (set_mu eq m) in
      match e with
      | Returned | Panicked _ =>
          let '(m', ok) := Unlock (mu eq1) in
          (set_mu eq1 m', if ok then e else Fatal unlock_of_unlocked)
      | _ => (eq1, e)
      end
  end.

(** [func (eq *eventQueue) tryPopAndPush()], one tick; [now] is what
    [time.Now().Unix()] reads during the tick.  [None] only when the fuel
    runs out. *)
Fixpoint tryPopAndPush_loop (fuel : nat) (now : Z) (eq : eventQueue)
  : option (eventQueue * exit) :=
  match fuel with
  | O => None
  | S fuel' =>
      match PQ.heap_Pop (pq eq) with
      | None => Some (eq, Panicked "index out of range")
      | Some (None, h) => Some (set_pq eq h, Returned)
      | Some (Some item, h) =>
          let eq1 := set_pq eq h in
          if bool_decide (now < PQ.Priority item)
          then
            match PQ.heap_Push h item with
            | Some h' => Some (set_pq eq1 h', Returned)
            | None => Some (eq1, Panicked "index out of range")
            end
          else
            let '(eq2, e) := push now item false eq1 in
            match e with
            | Returned => tryPopAndPush_loop fuel' now eq2
            | _ => Some (eq2, e)
            end
      end
  end.

Definition tryPopAndPush (now : Z) (eq : eventQueue)
  : option (eventQueue * exit) :=
  tryPopAndPush_loop (S (length (pq eq))) now eq.

(** The state one evLoop iteration works on: the queue, the store and the
    compare-and-swap calls issued so far. *)
Record loopState := mkLoop {
  l_eq : eventQueue;
  l_store : Store;
  l_cas : list casCall
}.

(** The body of the [for] of [evLoop] once [ev] has been received. *)
Definition evLoop_handle (ev : mvEvent) (st : loopState)
  : loopState * exit :=
  let eq := l_eq st in
  let key := EtcdPathAppShardTask (parent_service eq) in
  let '(store', _) := CompareAndSwap (l_store st) key "" (Value ev) 0 in
  let calls := l_cas st ++ [mkCas key "" (Value ev) 0] in
  match Lock (mu eq) with
  | None => (mkLoop eq store' calls, Blocked)
  | Some m =>
      let eq1 := set_blk (set_mu eq m) (serviceBlk eq ∖ {[Service ev]}) in
      let '(m', ok) := Unlock (mu eq1) in
      (mkLoop (set_mu eq1 m') store' calls,
       if ok then Returned else Fatal unlock_of_unlocked)
  end.

(** One iteration of [evLoop(ctx, service, ch)] with the context still
    live: receive from the channel of [service], then handle the event. *)
Definition evLoop_iter (service : string) (st : loopState)
  : loopState * exit :=
  let eq := l_eq st in
  match serviceEvChan eq !! service with
  | Some (ev :: rest) =>
      let eq1 := set_chan eq (<[service := rest]> (serviceEvChan eq)) in
      evLoop_handle ev (mkLoop eq1 (l_store st) (l_cas st))
  | _ => (st, Blocked)
  end.

End Collaborators.

Arguments mkLoop {Store} _ _ _.
Arguments l_eq {Store} _.
Arguments l_store {Store} _.
Arguments l_cas {Store} _.
Arguments evLoop_handle {Store} _ _ _.
Arguments evLoop_iter {Store} _ _ _.

(** Modelled from the spec: the store client's [CompareAndSwap], whose
    package is not among the sources; a conditional write on a single
    slot where the empty string means idle, answering value-mismatch when
    the slot does not hold the expected value. *)
Definition kv_CompareAndSwap (m : gmap string string)
    (key cur new : string) (leaseID : Z) : gmap string string * option error :=
  if bool_decide (default ""%string (m !! key) = cur)
  then (<[key := new]> m, None)
  else (m, Some ErrEtcdValueNotMatch).

(** The compare-and-swap that one handled event is said to issue, on the
    task key of the given service. *)
Definition task_cas (service : string) (ev : mvEvent) : casCall :=
  mkCas (EtcdPathAppShardTask service) "" (Value ev) 0.

(** A queue built by two pushes, holding an item due at second 5 and one
    due at second 100; and a handled event of a service other than the
    one the parent serves. *)
Definition demo_heap : list PQ.Item :=
  [PQ.mkItem "late" 100 0; PQ.mkItem "due" 5 1].

Definition demo_queue : eventQueue :=
  mkEQ "sm" demo_heap (mkMutex false []) ∅ ∅ [].

Definition other_service_event : mvEvent :=
  mkEvent "S" tShardChanged 0 "moves".

Definition other_service_state : loopState (gmap string string) :=
  mkLoop (mkEQ "sm" [] (mkMutex false [])
               (<["S" := [other_service_event]]> ∅) {["S"]} ["S"])
         ∅ [].

(** [func newEventQueue(_, lg, sc) *eventQueue]: both maps are made, the
    empty priority queue goes through [heap.Init], and the ticker that
    calls [tryPopAndPush] is started. *)
Definition newEventQueue (parent : string) : option eventQueue :=
  h ← PQ.heap_Init [];
  Some (mkEQ parent h (mkMutex false []) ∅ ∅ []).

(** The steps of [push_body] once the event is decoded and not dropped as
    a duplicate: register the service, make sure its channel and evLoop
    exist, route by type. *)
Definition register (checkDup : bool) (ev : mvEvent) (eq : eventQueue)
  : eventQueue :=
  if checkDup then set_blk eq ({[Service ev]} ∪ serviceBlk eq) else eq.

Definition ensure_chan (ev : mvEvent) (eq : eventQueue) : eventQueue :=
  match serviceEvChan eq !! Service ev with
  | Some _ => eq
  | None =>
      add_loop (set_chan eq (<[Service ev := []]> (serviceEvChan eq)))
               (Service ev)
  end.

Definition immediate (ev : mvEvent) : Prop :=
  Type_ ev = tShardChanged \/ Type_ ev = tContainerChanged \/
  Type_ ev = tContainerInit.

Definition deferrable (ev : mvEvent) : Prop :=
  Type_ ev = tShardLoadChanged \/ Type_ ev = tContainerLoadChanged.

Definition route (now : Z) (item : PQ.Item) (ev : mvEvent)
    (eq : eventQueue) : eventQueue * exit :=
  if bool_decide (immediate ev) then send (Service ev) ev eq
  else if bool_decide (deferrable ev)
  then
    if bool_decide (now >= PQ.Priority item) then send (Service ev) ev eq
    else
      match PQ.heap_Push (pq eq) item with
      | Some h => (set_pq eq h, Returned)
      | None => (eq, Panicked "index out of range")
      end
  else (eq, Panicked "unknown ev type").

(** The event of [item] is decoded and is not dropped as a duplicate. *)
Definition accepted (unmarshal : string -> option mvEvent) (item : PQ.Item)
    (checkDup : bool) (eq : eventQueue) (ev : mvEvent) : Prop :=
  unmarshal (PQ.Value item) = Some ev /\
  (checkDup = true -> Service ev ∉ serviceBlk eq).

(** The mutex after one [Lock] and one [Unlock] more. *)
Definition relocked (m : Mutex) : Mutex :=
  mkMutex false (ops m ++ [MuLock; MuUnlock]).

(** Each service with a channel has exactly one evLoop, and only such
    services have one. *)
Definition loops_match (eq : eventQueue) : Prop :=
  NoDup (evLoops eq) /\
  forall s, s ∈ evLoops eq <-> is_Some (serviceEvChan eq !! s).

(** No channel buffers more events than its capacity. *)
Definition chans_bounded (eq : eventQueue) : Prop :=
  map_Forall (λ _ ch, (length ch <= defaultEventChanLength)%nat)
             (serviceEvChan eq).

(** The queue as [newEventQueue] and its own operations keep it. *)
Definition queue_ok (eq : eventQueue) : Prop :=
  loops_match eq /\ chans_bounded eq /\ PQ.is_heap (pq eq) /\
  PQ.indexed (pq eq).

(** A decoder that knows three payloads (an immediate event, a
    deferrable one and one of no known type, all of service S) and an
    idle queue as [newEventQueue] makes it. *)
Definition load_event : mvEvent := mkEvent "S" tShardLoadChanged 0 "load".
Definition odd_event : mvEvent := mkEvent "S" 9 0 "odd".

Definition demo_unmarshal (s : string) : option mvEvent :=
  if bool_decide (s = "moves"%string) then Some other_service_event
  else if bool_decide (s = "load"%string) then Some load_event
  else if bool_decide (s = "odd"%string) then Some odd_event
  else None.

Definition idle_queue : eventQueue :=
  mkEQ "sm" [] (mkMutex false []) ∅ ∅ [].

End EQ.

(** ** The move operator (package smserver) *)

Module OP.
Import Go.

Section Operator.

(** [apputil.ShardSpec], only carried to the HTTP body. *)
Variable ShardSpec : Type.

(** [moveAction]; a [moveActionList] is a slice of pointers to actions,
    taken here as the list of the actions themselves. *)
Record moveAction := mkMove {
  Service : string;
  ShardId : string;
  DropEndpoint : string;
  AddEndpoint : string;
  AllowDrop : bool;
  Spec : option ShardSpec
}.

(** [json.Unmarshal(value, &mal)]; [None] when it reports an error. *)
Variable unmarshal : string -> option (list moveAction).

(** The network reached through [o.httpClient], and [o.send]: the POST of
    [{id, spec}] to [http://endpoint/sm/admin/<action>-shard]. *)
Variable Net : Type.
Variable send :
  Net -> string -> option ShardSpec -> string -> string -> Net * option error.

Record request := mkReq {
  r_id : string;
  r_endpoint : string;
  r_action : string
}.

(** What the operator has done so far: the network, the requests issued and
    the number of [time.Sleep(defaultSleepTimeout)] calls. *)
Record opState := mkOp {
  net : Net;
  sent : list request;
  sleeps : nat
}.

Definition do_send (id : string) (spec : option ShardSpec)
    (endpoint action : string) (st : opState) : opState * option error :=
  let '(n', err) := send (net st) id spec endpoint action in
  (mkOp n' (sent st ++ [mkReq id endpoint action]) (sleeps st), err).

(** [func (o *operator) dropOrAdd(ctx, ma) error] *)
Definition dropOrAdd (ma : moveAction) (st : opState)
  : opState * option error :=
  let '(st1, derr) :=
    if bool_decide (DropEndpoint ma <> ""%string)
    then do_send (ShardId ma) (Spec ma) (DropEndpoint ma) "drop" st
    else (st, None) in
  match derr with
  | Some e => (st1, Some e)
  | None =>
      if bool_decide (AddEndpoint ma <> ""%string)
      then
        let '(st2, aerr) :=
          do_send (ShardId ma) (Spec ma) (AddEndpoint ma) "add" st1 in
        match aerr with
        | Some e => if negb (AllowDrop ma) then (st2, Some e) else (st2, None)
        | None => (st2, None)
        end
      else (st1, None)
  end.

(** The errgroup of one round: every action runs, [g.Wait()] reports the
    first error.  The goroutines are taken in list order. *)
Fixpoint runGroup (mal : list moveAction) (st : opState)
  : opState * option error :=
  match mal with
  | [] => (st, None)
  | ma :: rest =>
      let '(st1, e1) := dropOrAdd ma st in
      let '(st2, e2) := runGroup rest st1 in
      (st2, match e1 with Some e => Some e | None => e2 end)
  end.

(** [for counter <= retry { ... }]; the flag is [succ]. *)
Fixpoint move_loop (fuel : nat) (retry counter : Z)
    (mal : list moveAction) (st : opState) : option (opState * bool) :=
  match fuel with
  | O => None
  | S fuel' =>
      if bool_decide (counter <= retry)
      then
        let st1 :=
          if bool_decide (counter > 0)
          then mkOp (net st) (sent st) (S (sleeps st)) else st in
        let '(st2, err) := runGroup mal st1 in
        match err with
        | Some _ => move_loop fuel' retry (counter + 1) mal st2
        | None => Some (st2, true)
        end
      else Some (st, false)
  end.

Definition unmarshal_error : error := ErrExternal "json.Unmarshal".

(** [func (o *operator) move(ctx, value []byte) error]; [None] only when
    the fuel runs out. *)
Definition move (value : string) (st : opState)
  : option (opState * option error) :=
  match unmarshal value with
  | None => Some (st, Some unmarshal_error)
  | Some mal =>
      let retry := 1 in
      let counter := 0 in
      r ← move_loop (Z.to_nat (retry + 2)) retry counter mal st;
      Some (r.1, None)
  end.

End Operator.

Arguments mkMove {ShardSpec} _ _ _ _ _ _.
Arguments Service {ShardSpec} _.
Arguments ShardId {ShardSpec} _.
Arguments DropEndpoint {ShardSpec} _.
Arguments AddEndpoint {ShardSpec} _.
Arguments AllowDrop {ShardSpec} _.
Arguments Spec {ShardSpec} _.
Arguments mkOp {Net} _ _ _.
Arguments net {Net} _.
Arguments sent {Net} _.
Arguments sleeps {Net} _.
Arguments do_send {ShardSpec Net} _ _ _ _ _ _.
Arguments dropOrAdd {ShardSpec Net} _ _ _.
Arguments runGroup {ShardSpec Net} _ _ _.
Arguments move_loop {ShardSpec Net} _ _ _ _ _ _.
Arguments move {ShardSpec} _ {Net} _ _ _.


(** A network on which every request fails, and a one-move task. *)
Definition failing_send (n : unit) (id : string) (spec : option unit)
    (endpoint action : string) : unit * option error :=
  (n, Some (ErrExternal "not 200")).

Definition one_move : list (moveAction unit) :=
  [mkMove "svc" "s1" "E1" "E2" false None].

(** A network on which only the add requests fail, and a move that may
    give up its add. *)
Definition add_failing_send (n : unit) (id : string) (spec : option unit)
    (endpoint action : string) : unit * option error :=
  (n, if bool_decide (action = "add"%string)
      then Some (ErrExternal "not 200") else None).

Definition droppable_move : moveAction unit :=
  mkMove "svc" "s1" "E1" "E2" true None.

End OP.

(** ** The early event queue (package server) *)

Module Server.
Import Go.

Definition defaultEventChanLength : nat := 32.

(** [eventType] constants, starting at [iota]. *)
Definition evTypeShardUpdate : Z := 0.
Definition evTypeShardDel : Z := 1.
Definition evTypeContainerUpdate : Z := 2.
Definition evTypeContainerDel : Z := 3.

Record loadEvent := mkEvent {
  Service : string;
  Type_ : Z;
  EnqueueTime : Z;
  Load : string
}.

(** [eventQueue]; a map field is [None] while it is the nil map. *)
Record eventQueue := mkEQ {
  pq : list PQ.Item;
  mu : Mutex;
  evChan : option (gmap string (list loadEvent));
  curEvList : option (gset string);
  evLoops : list string
}.

Definition set_pq (eq : eventQueue) (h : list PQ.Item) : eventQueue :=
  mkEQ h (mu eq) (evChan eq) (curEvList eq) (evLoops eq).
Definition set_mu (eq : eventQueue) (m : Mutex) : eventQueue :=
  mkEQ (pq eq) m (evChan eq) (curEvList eq) (evLoops eq).
Definition set_chan (eq : eventQueue) (c : gmap string (list loadEvent))
  : eventQueue :=
  mkEQ (pq eq) (mu eq) (Some c) (curEvList eq) (evLoops eq).
Definition set_cur (eq : eventQueue) (b : gset string) : eventQueue :=
  mkEQ (pq eq) (mu eq) (evChan eq) (Some b) (evLoops eq).
Definition add_loop (eq : eventQueue) (service : string) : eventQueue :=
  mkEQ (pq eq) (mu eq) (evChan eq) (curEvList eq) (evLoops eq ++ [service]).

(** [func newEventQueue(ctx) *eventQueue]: only [evChan] is made. *)
Definition newEventQueue : eventQueue :=
  mkEQ [] (mkMutex false []) (Some ∅) None [].

Definition nil_map_write : string := "assignment to entry in nil map".

Section Collaborators.

(** [json.Unmarshal([]byte(item.Value), &ev)] *)
Variable unmarshal : string -> option loadEvent.

(** [ch <- &ev] on the channel of [service] (capacity 32). *)
Definition send (service : string) (ev : loadEvent) (eq : eventQueue)
  : eventQueue * exit :=
  let chans := default ∅ (evChan eq) in
  let ch := default [] (chans !! service) in
  if decide (length ch < defaultEventChanLength)%nat
  then (set_chan eq (<[service := ch ++ [ev]]> chans), Returned)
  else (eq, Blocked).

(** The part of [push] from the channel lookup on. *)
Definition push_route (now : Z) (item : PQ.Item) (ev : loadEvent)
    (eq : eventQueue) : eventQueue * exit :=
  let found :=
    match evChan eq with
    | Some chans => bool_decide (is_Some (chans !! Service ev))
    | None => false
    end in
  let '(eq1, e1) :=
    if found then (eq, Returned)
    else
      match evChan eq with
      | Some chans =>
          (add_loop (set_chan eq (<[Service ev := []]> chans)) (Service ev),
           Returned)
      | None => (eq, Panicked nil_map_write)
      end in
  match e1 with
  | Returned =>
      if bool_decide (Type_ ev = evTypeShardUpdate \/
                      Type_ ev = evTypeContainerUpdate)
      then send (Service ev) ev eq1
      else if bool_decide (Type_ ev = evTypeShardDel \/
                           Type_ ev = evTypeContainerDel)
      then
        if bool_decide (now >= PQ.Priority item)
        then send (Service ev) ev eq1
        else
          match PQ.heap_Push (pq eq1) item with
          | Some h => (set_pq eq1 h, Returned)
          | None => (eq1, Panicked "index out of range")
          end
      else (eq1, Returned)
  | _ => (eq1, e1)
  end.

(** The body of [push], between [eq.mu.Lock()] and the deferred unlock.
    When the duplicate check trips the body itself calls
    [eq.mu.Unlock()] before it returns. *)
Definition push_body (now : Z) (item : PQ.Item) (checkDup : bool)
    (eq : eventQueue) : eventQueue * exit :=
  match unmarshal (PQ.Value item) with
  | None => (eq, Returned)
  | Some ev =>
      if checkDup
      then
        if bool_decide (Service ev ∈ default ∅ (curEvList eq))
        then
          let '(m', ok) := Unlock (mu eq) in
          (set_mu eq m', if ok then Returned else Fatal unlock_of_unlocked)
        else
          match curEvList eq with
          | None => (eq, Panicked nil_map_write)
          | Some cur =>
              push_route now item ev (set_cur eq ({[Service ev]} ∪ cur))
          end
      else push_route now item ev eq
  end.

(** [func (eq *eventQueue) push(item *Item, checkDup bool)]:
    [eq.mu.Lock(); defer eq.mu.Unlock(); ...]. *)
Definition push (now : Z) (item : PQ.Item) (checkDup : bool)
    (eq : eventQueue) : eventQueue * exit :=
  match Lock (mu eq) with
  | None => (eq, Blocked)
  | Some m =>
      let '(eq1, e) := push_body now item checkDup (set_mu eq m) in
      match e with
      | Returned | Panicked _ =>
          let '(m', ok) := Unlock (mu eq1) in
          (set_mu eq1 m', if ok then e else Fatal unlock_of_unlocked)
      | _ => (eq1, e)
      end
  end.

End Collaborators.

(** A queue that already lists service S, and an event of S. *)
Definition dup_event : loadEvent :=
  mkEvent "S" evTypeShardUpdate 0 "".

Definition dup_queue : eventQueue :=
  mkEQ [] (mkMutex false []) (Some ∅) (Some {["S"]}) [].

(** The duplicate check of the early [push] trips. *)
Definition duplicate (unmarshal : string -> option loadEvent)
    (item : PQ.Item) (checkDup : bool) (eq : eventQueue) : Prop :=
  checkDup = true /\
  exists ev, unmarshal (PQ.Value item) = Some ev /\
             Service ev ∈ default ∅ (curEvList eq).

End Server.

(** ** pkg/apputil/core/shardkeeper.go *)

Module SK.
Import Go.

(** [storage.Lease]: the lease id (a 64-bit [clientv3.LeaseID]) and its
    expire time. *)
Record Lease := mkLease { ID : Z; Expire : Z }.

(** [storage.NoLease] *)
Definition NoLease : Lease := mkLease 0 0.

(** Modelled from the spec: [storage.Lease.EqualTo], whose package is not
    among the sources; leases are compared by id equality. *)
Definition EqualTo (l lease : Lease) : bool := bool_decide (ID l = ID lease).

(** [storage.ShardSpec] *)
Record ShardSpec := mkSpec {
  Id : string;
  Service : string;
  Task : string;
  SpecLease : Lease;
  UpdateTime : Z
}.

(** [storage.ShardKeeperDbValue]: a record of the local durable log. *)
Record ShardKeeperDbValue := mkDv {
  Spec : ShardSpec;
  Disp : bool;
  Drop : bool
}.

Record Assignment := mkAssignment { Drops : list string }.

(** [ShardLease]: the value stored at the bridge and guard keys. *)
Record ShardLease := mkShardLease {
  lease : Lease;
  GuardLeaseID : Z;
  BridgeLeaseID : Z;
  assignment : Assignment
}.

(** [clientv3.Event] with the two predicates the client library defines. *)
Inductive EventType := PUT | DELETE.

#[global] Instance EventType_eq_dec : EqDecision EventType.
Proof. solve_decision. Defined.

Record KeyValue := mkKv {
  Key : string;
  CreateRevision : Z;
  ModRevision : Z;
  KvValue : string
}.

Record Event := mkEv { EvType : EventType; Kv : KeyValue }.

Definition IsCreate (ev : Event) : bool :=
  bool_decide (EvType ev = PUT) &&
  bool_decide (CreateRevision (Kv ev) = ModRevision (Kv ev)).

Definition IsModify (ev : Event) : bool :=
  bool_decide (EvType ev = PUT) &&
  bool_decide (CreateRevision (Kv ev) <> ModRevision (Kv ev)).

(** The [storage.Storage] interface, as far as the shard keeper calls it.
    Every method works on the store's state and may report an error. *)
Class Storage (St : Type) := {
  storage_Add : ShardSpec -> St -> St * option error;
  storage_Drop : list string -> St -> St * option error;
  storage_MigrateLease : Z -> Z -> St -> St * option error;
  storage_DropByLease : bool -> Z -> St -> St * option error;
  storage_ForEach :
    forall A : Type,
      (string -> ShardKeeperDbValue -> A -> A * option error) ->
      St -> A -> A * option error;
  storage_Remove : string -> St -> St * option error;
  storage_Put : string -> ShardKeeperDbValue -> St -> St * option error;
  storage_Reset : St -> St * option error
}.

(** The [ShardPrimitives] interface implemented by the application. *)
Class ShardPrimitives (App : Type) := {
  app_Add : string -> ShardSpec -> App -> App * option error;
  app_Drop : string -> App -> App * option error
}.

(** Calls that leave the shard keeper. *)
Inductive call :=
  | CAdd (spec : ShardSpec)
  | CDrop (ids : list string)
  | CMigrateLease (from to : Z)
  | CDropByLease (exclude : bool) (id : Z)
  | CForEach
  | CRemove (id : string)
  | CPut (id : string) (dv : ShardKeeperDbValue)
  | CEtcdPut (key value : string) (leaseID : Z)
  | CAppAdd (id : string)
  | CAppDrop (id : string).

(** The in-memory fields of [ShardKeeper] that the handlers read and
    write, with [containerOpts.Service] and [containerOpts.ContainerId]. *)
Record ShardKeeper := mkSK {
  initialized : bool;
  bridgeLease : Lease;
  guardLease : Lease;
  optService : string;
  optContainerId : string
}.

Definition set_bridgeLease (sk : ShardKeeper) (l : Lease) : ShardKeeper :=
  mkSK (initialized sk) l (guardLease sk) (optService sk) (optContainerId sk).
Definition set_guardLease (sk : ShardKeeper) (l : Lease) : ShardKeeper :=
  mkSK (initialized sk) (bridgeLease sk) l (optService sk) (optContainerId sk).
Definition set_initialized (sk : ShardKeeper) (b : bool) : ShardKeeper :=
  mkSK b (bridgeLease sk) (guardLease sk) (optService sk) (optContainerId sk).

(** Modelled from the spec: [etcdutil.LeaseSessionPath], whose package is
    not among the sources; the design names the key
    [lease/session/<service>/<container-id>]. *)
Definition LeaseSessionPath (service containerId : string) : string :=
  ("lease/session/" ++ service ++ "/" ++ containerId)%string.

(** The guard event names a bridge lease other than the one held. *)
Definition bridge_mismatch (lease_ : ShardLease) (sk : ShardKeeper)
  : Prop :=
  ID (bridgeLease sk) <> 0 /\ BridgeLeaseID lease_ > 0 /\
  ID (bridgeLease sk) <> BridgeLeaseID lease_.

(** The lease of a record is the guard lease or the bridge lease of the
    keeper, by id. *)
Definition lease_current (sk : ShardKeeper) (dv : ShardKeeperDbValue)
  : Prop :=
  EqualTo (SpecLease (Spec dv)) (guardLease sk) = true \/
  EqualTo (SpecLease (Spec dv)) (bridgeLease sk) = true.

Section Keeper.

Context {St App : Type} `{!Storage St} `{!ShardPrimitives App}.

(** [func (l *Lease) String() string], the JSON text of a lease. *)
Variable Lease_String : Lease -> string.

(** Everything outside the keeper's memory: the durable store, the
    application, the consistent store (key to value and attached lease),
    the answer its client gives to a [Put] ([None]: success) and the calls
    made so far. *)
Record World := mkWorld {
  storage : St;
  app : App;
  etcd : gmap string (string * Z);
  etcd_put_err : option error;
  calls : list call
}.

Definition with_put_err (w : World) (perr : option error) : World :=
  mkWorld (storage w) (app w) (etcd w) perr (calls w).

Definition on_storage (c : call) (f : St -> St * option error) (w : World)
  : World * option error :=
  let '(st', err) := f (storage w) in
  (mkWorld st' (app w) (etcd w) (etcd_put_err w) (calls w ++ [c]), err).

(** [sk.containerOpts.Client.Put(ctx, key, value, clientv3.WithLease(id))] *)
Definition client_Put (key value : string) (leaseID : Z) (w : World)
  : World * option error :=
  let kv :=
    match etcd_put_err w with
    | None => <[key := (value, leaseID)]> (etcd w)
    | Some _ => etcd w
    end in
  (mkWorld (storage w) (app w) kv (etcd_put_err w)
           (calls w ++ [CEtcdPut key value leaseID]),
   etcd_put_err w).

(** [acquireGuardLease] after its deferred function is registered: what
    runs between [defer func() { sk.bridgeLease = storage.NoLease }()] and
    the return. *)
Definition acquireGuardLease_body (lease_ : ShardLease) (sk : ShardKeeper)
    (w : World) : ShardKeeper * World * option error :=
  let sk1 := set_guardLease sk (lease lease_) in
  let '(w1, err) :=
    on_storage (CMigrateLease (ID (bridgeLease sk1)) (ID (lease lease_)))
      (storage_MigrateLease (ID (bridgeLease sk1)) (ID (lease lease_))) w in
  match err with
  | Some e => (sk1, w1, Some e)
  | None =>
      let '(w2, err) :=
        on_storage (CDropByLease true (ID (lease lease_)))
          (storage_DropByLease true (ID (lease lease_))) w1 in
      match err with
      | Some e => (sk1, w2, Some e)
      | None =>
          let sessionPath :=
            LeaseSessionPath (optService sk1) (optContainerId sk1) in
          let '(w3, _) :=
            client_Put sessionPath (Lease_String (guardLease sk1))
              (ID (guardLease sk1)) w2 in
          (sk1, w3, None)
      end
  end.

(** [func (sk *ShardKeeper) acquireGuardLease(ev, lease) error] *)
Definition acquireGuardLease (ev : Event) (lease_ : ShardLease)
    (sk : ShardKeeper) (w : World) : ShardKeeper * World * option error :=
  if IsCreate ev
  then (sk, w,
        Some (Errorf
          "guard node should be created before shardkeeper started, key [%s]"
          [ArgS (Key (Kv ev))]))
  else
    let key := Key (Kv ev) in
    if EqualTo (bridgeLease sk) NoLease
    then (sk, w,
          Some (Errorf
            "bridge lease is zero, can not participating rb, key [%s]"
            [ArgS key]))
    else if bool_decide (BridgeLeaseID lease_ > 0) &&
            bool_decide (ID (bridgeLease sk) <> BridgeLeaseID lease_)
    then (sk, w,
          Some (Errorf
            "bridge lease not match, key [%s] expect [%d] actual [%d]"
            [ArgS key; ArgZ (BridgeLeaseID lease_);
             ArgZ (ID (bridgeLease sk))]))
    else
      let '(sk1, w1, err) := acquireGuardLease_body lease_ sk w in
      (set_bridgeLease sk1 NoLease, w1, err).

(** [func (sk *ShardKeeper) acquireBridgeLease(ev, lease) error] *)
Definition acquireBridgeLease (ev : Event) (lease_ : ShardLease)
    (sk : ShardKeeper) (w : World) : ShardKeeper * World * option error :=
  let key := Key (Kv ev) in
  if IsModify ev
  then (sk, w, Some (Errorf "unexpected modify event, key %s" [ArgS key]))
  else if bool_decide (EvType ev = DELETE)
  then
    let '(w1, err) :=
      on_storage (CDropByLease false (ID (lease lease_)))
        (storage_DropByLease false (ID (lease lease_))) w in
    (sk, w1, err)
  else
    let sk1 := set_bridgeLease sk NoLease in
    let '(w1, err) :=
      on_storage (CDrop (Drops (assignment lease_)))
        (storage_Drop (Drops (assignment lease_))) w in
    match err with
    | Some e => (sk1, w1, Some e)
    | None =>
        let '(w2, err) :=
          on_storage (CMigrateLease (GuardLeaseID lease_) (ID (lease lease_)))
            (storage_MigrateLease (GuardLeaseID lease_) (ID (lease lease_)))
            w1 in
        match err with
        | Some e => (sk1, w2, Some e)
        | None => (set_bridgeLease sk1 (lease lease_), w2, None)
        end
    end.

(** [func (sk *ShardKeeper) Add(id string, spec *storage.ShardSpec) error] *)
Definition Add (id : string) (spec : ShardSpec) (sk : ShardKeeper)
    (w : World) : World * option error :=
  if negb (EqualTo (SpecLease spec) (guardLease sk))
  then (w, Some (ErrNew "lease mismatch"))
  else on_storage (CAdd spec) (storage_Add spec) w.

(** [func (sk *ShardKeeper) Drop(id string) error] *)
Definition Drop_ (id : string) (sk : ShardKeeper) (w : World)
  : World * option error :=
  on_storage (CDrop [id]) (storage_Drop [id]) w.

(** What [sync] gathers while it walks the log: the application, the
    calls, [dropShardIDs] and [updateDbValues]. *)
Record syncAcc := mkAcc {
  a_app : App;
  a_calls : list call;
  dropShardIDs : list string;
  updateDbValues : gmap string ShardKeeperDbValue
}.

(** [dropFn] of [sync] *)
Definition dropFn (dv : ShardKeeperDbValue) (acc : syncAcc)
  : syncAcc * option error :=
  let '(app', err) := app_Drop (Id (Spec dv)) (a_app acc) in
  let calls' := a_calls acc ++ [CAppDrop (Id (Spec dv))] in
  if bool_decide (err = None \/ err = Some ErrNotExist)
  then (mkAcc app' calls' (dropShardIDs acc ++ [Id (Spec dv)])
              (updateDbValues acc), None)
  else (mkAcc app' calls' (dropShardIDs acc) (updateDbValues acc), err).

(** [addFn] of [sync] *)
Definition addFn (dv : ShardKeeperDbValue) (acc : syncAcc)
  : syncAcc * option error :=
  let '(app', err) := app_Add (Id (Spec dv)) (Spec dv) (a_app acc) in
  let calls' := a_calls acc ++ [CAppAdd (Id (Spec dv))] in
  if bool_decide (err = None \/ err = Some ErrExist)
  then
    let dv' := mkDv (Spec dv) true (Drop dv) in
    (mkAcc app' calls' (dropShardIDs acc)
           (<[Id (Spec dv) := dv']> (updateDbValues acc)), None)
  else (mkAcc app' calls' (dropShardIDs acc) (updateDbValues acc), err).

(** The function [sync] hands to [sk.storage.ForEach]. *)
Definition visit (sk : ShardKeeper) (shardID : string)
    (dv : ShardKeeperDbValue) (acc : syncAcc) : syncAcc * option error :=
  if negb (EqualTo (SpecLease (Spec dv)) (guardLease sk)) &&
     negb (EqualTo (SpecLease (Spec dv)) (bridgeLease sk))
  then dropFn dv acc
  else if Disp dv && initialized sk then (acc, None)
  else if Drop dv then dropFn dv acc
  else addFn dv acc.

(** [for _, shardID := range dropShardIDs { sk.storage.Remove(shardID) }] *)
Fixpoint remove_all (ids : list string) (w : World) : World * option error :=
  match ids with
  | [] => (w, None)
  | shardID :: rest =>
      let '(w1, err) := on_storage (CRemove shardID) (storage_Remove shardID) w in
      match err with
      | Some e => (w1, Some e)
      | None => remove_all rest w1
      end
  end.

(** [for shardID, dv := range updateDbValues { dv.Disp = true;
    sk.storage.Put(shardID, dv) }] *)
Fixpoint put_all (kvs : list (string * ShardKeeperDbValue)) (w : World)
  : World * option error :=
  match kvs with
  | [] => (w, None)
  | (shardID, dv) :: rest =>
      let dv' := mkDv (Spec dv) true (Drop dv) in
      let '(w1, err) :=
        on_storage (CPut shardID dv') (storage_Put shardID dv') w in
      match err with
      | Some e => (w1, Some e)
      | None => put_all rest w1
      end
  end.

(** [func (sk *ShardKeeper) sync() error] *)
Definition sync (sk : ShardKeeper) (w : World)
  : ShardKeeper * World * option error :=
  let '(acc, _) :=
    storage_ForEach syncAcc (visit sk) (storage w)
      (mkAcc (app w) (calls w ++ [CForEach]) [] ∅) in
  let w0 := mkWorld (storage w) (a_app acc) (etcd w) (etcd_put_err w)
                    (a_calls acc) in
  let '(w1, err) := remove_all (dropShardIDs acc) w0 in
  match err with
  | Some e => (sk, w1, Some e)
  | None =>
      let '(w2, err) := put_all (map_to_list (updateDbValues acc)) w1 in
      match err with
      | Some e => (sk, w2, Some e)
      | None => (set_initialized sk true, w2, None)
      end
  end.

(** The application's [Drop] succeeds or reports not-found. *)
Definition drop_accepted (dv : ShardKeeperDbValue) : Prop :=
  forall a : App,
    (app_Drop (Id (Spec dv)) a).2 = None \/
    (app_Drop (Id (Spec dv)) a).2 = Some ErrNotExist.

End Keeper.

(** Modelled from the spec: the container's local durable store behind
    [storage.Storage], whose package is not among the sources.  It holds
    one record per shard id and offers atomic get, put and remove, range
    iteration and bulk updates; [faults] tells which operations report an
    error, and a failed operation leaves the records as they were. *)
Inductive storageOp :=
  | OpAdd (id : string)
  | OpDrop (ids : list string)
  | OpMigrateLease (from to : Z)
  | OpDropByLease (exclude : bool) (id : Z)
  | OpRemove (id : string)
  | OpPut (id : string)
  | OpReset.

Record Log := mkLog {
  recs : gmap string ShardKeeperDbValue;
  faults : storageOp -> option error
}.

Definition log_write (o : storageOp)
    (f : gmap string ShardKeeperDbValue -> gmap string ShardKeeperDbValue)
    (l : Log) : Log * option error :=
  match faults l o with
  | Some e => (l, Some e)
  | None => (mkLog (f (recs l)) (faults l), None)
  end.

(** Modelled from the spec: a record marked for drop is pending release,
    the application has not yet been asked to release it. *)
Definition mark_drop (dv : ShardKeeperDbValue) : ShardKeeperDbValue :=
  mkDv (Spec dv) false true.

Definition with_lease_id (dv : ShardKeeperDbValue) (id : Z)
  : ShardKeeperDbValue :=
  let sp := Spec dv in
  mkDv (mkSpec (Id sp) (Service sp) (Task sp)
               (mkLease id (Expire (SpecLease sp))) (UpdateTime sp))
       (Disp dv) (Drop dv).

(** Modelled from the spec: Add inserts a record with dispatched = false
    and drop = false. *)
Definition log_Add (spec : ShardSpec) : Log -> Log * option error :=
  log_write (OpAdd (Id spec)) (λ m, <[Id spec := mkDv spec false false]> m).

(** Modelled from the spec: Drop marks the records of the given ids as
    drop = true. *)
Definition log_Drop (ids : list string) : Log -> Log * option error :=
  log_write (OpDrop ids)
    (λ m, foldr (λ id m', match m' !! id with
                          | Some dv => <[id := mark_drop dv]> m'
                          | None => m'
                          end) m ids).

(** Modelled from the spec: the migrate call rewrites the lease of every
    record whose lease equals [from] to [to]. *)
Definition log_MigrateLease (from to : Z) : Log -> Log * option error :=
  log_write (OpMigrateLease from to)
    (λ m, (λ dv, if bool_decide (ID (SpecLease (Spec dv)) = from)
                 then with_lease_id dv to else dv) <$> m).

(** Modelled from the spec: DropByLease marks for drop the records tied to
    the lease id, or with [exclude] those tied to any other lease. *)
Definition log_DropByLease (exclude : bool) (id : Z)
  : Log -> Log * option error :=
  log_write (OpDropByLease exclude id)
    (λ m, (λ dv, if xorb exclude (bool_decide (ID (SpecLease (Spec dv)) = id))
                 then mark_drop dv else dv) <$> m).

(** Modelled from the spec: range iteration visits every record; an error
    of the visitor does not end the walk (the loop never aborts the
    tick); the first such error is what the walk reports. *)
Definition log_ForEach (A : Type)
    (f : string -> ShardKeeperDbValue -> A -> A * option error)
    (l : Log) (a : A) : A * option error :=
  foldl (λ (r : A * option error) (kv : string * ShardKeeperDbValue),
           let '(a', e') := f kv.1 kv.2 r.1 in
           (a', match r.2 with Some e => Some e | None => e' end))
        (a, None) (map_to_list (recs l)).

Definition log_Remove (id : string) : Log -> Log * option error :=
  log_write (OpRemove id) (λ m, delete id m).

Definition log_Put (id : string) (dv : ShardKeeperDbValue)
  : Log -> Log * option error :=
  log_write (OpPut id) (λ m, <[id := dv]> m).

(** Modelled from the spec: Reset marks every record as not dispatched. *)
Definition log_Reset : Log -> Log * option error :=
  log_write OpReset (λ m, (λ dv, mkDv (Spec dv) false (Drop dv)) <$> m).

#[global] Instance Log_Storage : Storage Log := {
  storage_Add := log_Add;
  storage_Drop := log_Drop;
  storage_MigrateLease := log_MigrateLease;
  storage_DropByLease := log_DropByLease;
  storage_ForEach := log_ForEach;
  storage_Remove := log_Remove;
  storage_Put := log_Put;
  storage_Reset := log_Reset
}.

(** The records of a log are filed under the shard id of their spec. *)
Definition log_keyed (l : Log) : Prop :=
  map_Forall (λ k dv, Id (Spec dv) = k) (recs l).

(** An application that keeps the set of shards it serves. *)
#[global] Instance gset_Primitives : ShardPrimitives (gset string) := {
  app_Add id _ a :=
    if bool_decide (id ∈ a) then (a, Some ErrExist)
    else ({[id]} ∪ a, None);
  app_Drop id a :=
    if bool_decide (id ∈ a) then (a ∖ {[id]}, None)
    else (a, Some ErrNotExist)
}.

Definition lease_text (l : Lease) : string := "lease".

(** A keeper in the middle of a round: guard lease 5, bridge lease 7; the
    log holds two shards already moved to the bridge lease and one left
    on a stale lease. *)
Definition G0 : Lease := mkLease 5 0.
Definition B1 : Lease := mkLease 7 0.
Definition G1 : Lease := mkLease 11 0.

Definition shard (id : string) (l : Lease) : ShardKeeperDbValue :=
  mkDv (mkSpec id "svc" "" l 0) true false.

Definition round_log : Log :=
  mkLog (<["s1" := shard "s1" B1]>
           (<["s2" := shard "s2" B1]>
              (<["s3" := shard "s3" (mkLease 9 0)]> ∅)))
        (λ _, None).

Definition round_keeper : ShardKeeper := mkSK true B1 G0 "svc" "c1".

Definition round_world : World (St := Log) (App := gset string) :=
  mkWorld round_log ({["s1"]} ∪ ({["s2"]} ∪ {["s3"]})) ∅ None [].

Definition guard_modify : Event :=
  mkEv PUT (mkKv "lease/guard/svc" 3 8 "").

(** The steady state before that round: three shards on guard lease 5,
    and the bridge create event that opens the round and drops s3. *)
Definition steady_log : Log :=
  mkLog (<["s1" := shard "s1" G0]>
           (<["s2" := shard "s2" G0]> (<["s3" := shard "s3" G0]> ∅)))
        (λ _, None).

Definition steady_keeper : ShardKeeper := mkSK true NoLease G0 "svc" "c1".

Definition steady_world : World (St := Log) (App := gset string) :=
  mkWorld steady_log ({["s1"]} ∪ ({["s2"]} ∪ {["s3"]})) ∅ None [].

Definition bridge_create : Event :=
  mkEv PUT (mkKv "lease/bridge/svc" 4 4 "").

Definition bridge_value : ShardLease :=
  mkShardLease B1 5 0 (mkAssignment ["s3"]).

(** The guard value that closes the round of bridge lease 7, and one that
    speaks of another round. *)
Definition guard_value : ShardLease :=
  mkShardLease G1 0 7 (mkAssignment []).
Definition guard_value_other_round : ShardLease :=
  mkShardLease G1 0 9 (mkAssignment []).

(** Bridge create, guard modify and one tick, run in a row. *)
Definition run_round : ShardKeeper * World (St := Log) (App := gset string) :=
  let '(sk1, w1, _) :=
    acquireBridgeLease bridge_create bridge_value steady_keeper steady_world in
  let '(sk2, w2, _) :=
    acquireGuardLease lease_text guard_modify guard_value sk1 w1 in
  let '(sk3, w3, _) := sync sk2 w2 in
  (sk3, w3).

Definition put_refused : error := ErrExternal "etcd unavailable".

(** What a handler call comes to: it returns (with an error or nil) or it
    panics. *)
Inductive outcome :=
  | Done (err : option error)
  | Panics (msg : string).

(** A watch event as the handlers read it: the event and its previous
    key-value, nil unless the watch delivers it. *)
Record WatchEvent := mkWatch { event : Event; PrevKv : option KeyValue }.

Definition nil_dereference : string := "nil pointer dereference".

(** The answer of [Client.Get(ctx, leasePfx, clientv3.WithPrefix())]. *)
Record GetResponse := mkGet {
  Count : Z;
  Kvs : list KeyValue;
  Revision : Z
}.

(** The fields [NewShardKeeper] sets besides those of [ShardKeeper]. *)
Record Started := mkStarted { keeper : ShardKeeper; startRev : Z }.

Section Handlers.

Context {St App : Type} `{!Storage St} `{!ShardPrimitives App}.

(** [json.Unmarshal] into a [ShardLease] and into a [storage.Lease]. *)
Variable unmarshalShardLease : string -> option ShardLease.
Variable unmarshalLease : string -> option Lease.
Variable Lease_String : Lease -> string.

(** [etcdutil.LeaseBridgePath], [LeaseGuardPath] and [LeaseSessionDir],
    whose package is not among the sources. *)
Variable LeaseBridgePath : string -> string.
Variable LeaseGuardPath : string -> string.
Variable LeaseSessionDir : string -> string.

Definition unmarshal_failed : error := ErrExternal "json.Unmarshal".

(** [parseShardLease]: the value is taken from [ev.PrevKv] on a delete
    ([None]: the nil dereference when there is none). *)
Definition parseShardLease (wev : WatchEvent)
  : option (ShardLease + error) :=
  let value :=
    if bool_decide (EvType (event wev) = DELETE)
    then KvValue <$> PrevKv wev
    else Some (KvValue (Kv (event wev))) in
  match value with
  | None => None
  | Some v =>
      match unmarshalShardLease v with
      | Some l => Some (inl l)
      | None => Some (inr unmarshal_failed)
      end
  end.

(** [func (sk *ShardKeeper) handleSessionKeyEvent(ev) error] *)
Definition handleSessionKeyEvent (wev : WatchEvent) (sk : ShardKeeper)
    (w : World (St := St) (App := App)) : World * outcome :=
  match EvType (event wev) with
  | PUT => (w, Done None)
  | DELETE =>
      match PrevKv wev with
      | None => (w, Panics nil_dereference)
      | Some prev =>
          match unmarshalLease (KvValue prev) with
          | None =>
              (w, Panics
                    "key [%s] receive delete event, Unmarshal error [%s] with value [%s]")
          | Some l =>
              let '(w1, err) :=
                on_storage (CDropByLease false (ID l))
                  (storage_DropByLease false (ID l)) w in
              (w1, Done err)
          end
      end
  end.

(** [func (sk *ShardKeeper) handleRbEvent(_ string, value interface{}) error];
    [value] is [None] when it does not hold a watch event. *)
Definition handleRbEvent (value : option WatchEvent) (sk : ShardKeeper)
    (w : World (St := St) (App := App)) : ShardKeeper * World * outcome :=
  match value with
  | None => (sk, w, Done (Some (ErrNew "type error")))
  | Some wev =>
      let ev := event wev in
      let key := Key (Kv ev) in
      match parseShardLease wev with
      | None => (sk, w, Panics nil_dereference)
      | Some (inr e) => (sk, w, Done (Some e))
      | Some (inl lease_) =>
          if bool_decide (key = LeaseBridgePath (optService sk))
          then
            let '(sk1, w1, _) := acquireBridgeLease ev lease_ sk w in
            (sk1, w1, Done None)
          else if bool_decide (key = LeaseGuardPath (optService sk))
          then
            let '(sk1, w1, _) :=
              acquireGuardLease Lease_String ev lease_ sk w in
            (sk1, w1, Done None)
          else if negb (String.prefix (LeaseSessionDir (optService sk)) key)
          then (sk, w, Done (Some (Errorf "unexpected key [%s]" [ArgS key])))
          else
            let '(w1, o) := handleSessionKeyEvent wev sk w in
            (sk, w1, o)
      end
  end.

(** [NewShardKeeper], up to the start of the sync loop.  [get] is the
    answer of the store to the prefix read and [ttl] that of [TimeToLive]
    for a lease id (an error, or the remaining seconds); the result is
    the keeper with its start revision, an error, or the message of a
    panic.  The trace of calls has no entry for [storage.Reset]. *)
Definition NewShardKeeper (service containerId : string)
    (dropExpiredShard : bool)
    (get : error + GetResponse) (ttl : Z -> error + Z)
    (w : World (St := St) (App := App))
  : World * (Started + error) + string :=
  let sk := mkSK false NoLease NoLease service containerId in
  let '(st1, err) := storage_Reset (storage w) in
  let w1 := mkWorld st1 (app w) (etcd w) (etcd_put_err w) (calls w) in
  match err with
  | Some e => inl (w1, inr e)
  | None =>
      match get with
      | inl e => inl (w1, inr e)
      | inr gresp =>
          if bool_decide (Count gresp = 0) then inl (w1, inr ErrNotExist)
          else if bool_decide (Count gresp = 1)
          then
            match Kvs gresp with
            | [] => inr "index out of range"%string
            | kv :: _ =>
                match unmarshalShardLease (KvValue kv) with
                | None => inl (w1, inr unmarshal_failed)
                | Some l =>
                    let adopted :=
                      if negb dropExpiredShard then true
                      else
                        match ttl (ID (lease l)) with
                        | inl _ => false
                        | inr secs => negb (bool_decide (secs <= 0))
                        end in
                    let sk1 :=
                      if adopted then set_guardLease sk (lease l) else sk in
                    inl (w1, inl (mkStarted sk1 (Revision gresp + 1)))
                end
            end
          else inl (w1, inl (mkStarted sk (Revision gresp + 1)))
      end
  end.

End Handlers.

(** Modelled from the spec: [etcdutil.LeaseBridgePath],
    [etcdutil.LeaseGuardPath] and [etcdutil.LeaseSessionDir], whose
    package is not among the sources; the design names the keys
    [lease/bridge/<service>], [lease/guard/<service>] and
    [lease/session/<service>/<container-id>]. *)
Definition bridge_path (service : string) : string :=
  ("lease/bridge/" ++ service)%string.
Definition guard_path (service : string) : string :=
  ("lease/guard/" ++ service)%string.
Definition session_dir (service : string) : string :=
  ("lease/session/" ++ service)%string.

(** Decoders for the values of the examples. *)
Definition session_value : ShardLease :=
  mkShardLease G0 0 0 (mkAssignment []).

Definition decode_shard_lease (s : string) : option ShardLease :=
  if bool_decide (s = "bridge"%string) then Some bridge_value
  else if bool_decide (s = "guard"%string) then Some guard_value
  else if bool_decide (s = "session"%string) then Some session_value
  else None.

Definition decode_lease (s : string) : option Lease :=
  if bool_decide (s = "session"%string) then Some G0 else None.


Definition session_delete : WatchEvent :=
  mkWatch (mkEv DELETE (mkKv "lease/session/svc/c2" 6 9 ""))
          (Some (mkKv "lease/session/svc/c2" 6 6 "session")).

(** The round's log on a disk that refuses the lease migration. *)
Definition migrate_refused : error := ErrExternal "disk full".

Definition faulty_round_world : World (St := Log) (App := gset string) :=
  mkWorld (mkLog (recs round_log)
                 (λ o, match o with
                       | OpMigrateLease _ _ => Some migrate_refused
                       | _ => None
                       end))
          ({["s1"]} ∪ ({["s2"]} ∪ {["s3"]})) ∅ None [].

(** A keeper that has just started on guard lease 5, and what the store
    answers at startup: one key under the lease prefix, at revision 10,
    and a lease with 30 seconds left. *)
Definition fresh_keeper : ShardKeeper := mkSK false NoLease G0 "svc" "c1".

Definition startup_read : GetResponse :=
  mkGet 1 [mkKv "lease/guard/svc" 3 3 "guard"] 10.

Definition startup_ttl (id : Z) : error + Z := inr 30.

(** An application that refuses every drop. *)
#[global] Instance busy_Primitives : ShardPrimitives unit := {
  app_Add id _ a := (a, None);
  app_Drop id a := (a, Some (ErrExternal "busy"))
}.

Definition busy_world : World (St := Log) (App := unit) :=
  mkWorld round_log tt ∅ None [].

End SK.

(** ** Facts about the priority queue *)

Module PQFacts.
Import PQ.

Ltac Zify.zify_post_hook ::= Z.to_euclidean_division_equations.

Lemma at_Some (h : list Item) k :
  0 <= k < Len h -> exists it, at_ h k = Some it.
Proof.
  unfold at_, Len. intros Hk. destruct (decide (0 <= k)); [|lia].
  destruct (lookup_lt_is_Some_2 h (Z.to_nat k)) as [it Hit]; [lia|].
  eauto.
Qed.

Lemma at_range (h : list Item) k it : at_ h k = Some it -> 0 <= k < Len h.
Proof.
  unfold at_, Len. destruct (decide (0 <= k)); [|done].
  intros Hl%lookup_lt_Some. lia.
Qed.

Lemma prio_at (h : list Item) k it : at_ h k = Some it -> prio h k = Priority it.
Proof. unfold prio. by intros ->. Qed.

Lemma Less_spec (h : list Item) i j :
  0 <= i < Len h -> 0 <= j < Len h ->
  Less h i j = Some (bool_decide (prio h i > prio h j)).
Proof.
  intros [a Ha]%at_Some [b Hb]%at_Some. unfold Less, prio.
  rewrite Ha, Hb. reflexivity.
Qed.

Lemma Swap_spec (h : list Item) i j :
  0 <= i < Len h -> 0 <= j < Len h ->
  exists h', Swap h i j = Some h' /\ Len h' = Len h /\
    forall k, prio h' k =
      if decide (k = j) then prio h i
      else if decide (k = i) then prio h j else prio h k.
Proof.
  intros Hi Hj. unfold Swap. destruct (decide (Len h <= 1)) as [Hle|Hgt].
  - exists h. split; [done|]. split; [done|]. intros k.
    assert (i = 0) by lia. assert (j = 0) by lia. subst.
    by repeat case_decide; subst.
  - destruct (at_Some h i Hi) as [a Ha]. destruct (at_Some h j Hj) as [b Hb].
    rewrite Ha, Hb. simpl. eexists. split; [done|]. split.
    { unfold Len. by rewrite !length_insert. }
    intros k. unfold prio at 1. unfold at_.
    destruct (decide (0 <= k)) as [Hk|Hk].
    + rewrite !list_lookup_insert, !length_insert.
      unfold Len in *.
      destruct (decide (k = j)) as [->|Hkj].
      { rewrite decide_True by lia. simpl. symmetry. by apply prio_at. }
      rewrite decide_False by lia.
      destruct (decide (k = i)) as [->|Hki].
      { rewrite decide_True by lia. simpl. symmetry. by apply prio_at. }
      rewrite decide_False by lia.
      unfold prio, at_. by rewrite decide_True by done.
    + rewrite !decide_False by lia. unfold prio, at_.
      by rewrite decide_False by done.
Qed.

Lemma up_loop_heap fuel : forall (h : list Item) j,
  0 <= j < Len h -> (Z.to_nat j < fuel)%nat -> up_inv h j ->
  exists h', up_loop fuel h j = Some h' /\ Len h' = Len h /\
             heap_upto h' (Len h').
Proof.
  induction fuel as [|fuel IH]; intros h j Hj Hf [H1 H2]; [lia|].
  simpl. destruct (decide (Z.quot (j - 1) 2 = j)) as [Hq|Hq].
  { exists h. split; [done|]. split; [done|]. intros k Hk. apply H1; lia. }
  assert (0 < j) as Hj0 by lia.
  assert (Z.quot (j - 1) 2 = (j - 1) / 2) as -> by lia.
  set (i := (j - 1) / 2) in *.
  assert (0 <= i < j) as Hi by lia.
  rewrite Less_spec by lia. simpl.
  case_bool_decide as Hlt; simpl; last first.
  { exists h. split; [done|]. split; [done|]. intros k Hk.
    destruct (decide (k = j)) as [->|Hkj]; [fold i; lia|]. by apply H1. }
  destruct (Swap_spec h i j) as (h' & -> & Hlen & Hs); [lia..|]. simpl.
  destruct (IH h' i) as (h'' & Hup & Hlen' & Hheap); [lia|lia| |].
  - split.
    + intros k Hk Hki. rewrite !Hs.
      destruct (decide (k = j)) as [->|Hkj].
      { fold i. rewrite decide_False by lia. rewrite decide_True by done. lia. }
      rewrite (decide_False (P := k = i)) by done.
      destruct (decide ((k - 1) / 2 = j)) as [Hpj|Hpj].
      { specialize (H2 k). fold i in H2. lia. }
      destruct (decide ((k - 1) / 2 = i)) as [Hpi|Hpi].
      { specialize (H1 k). rewrite Hpi in H1. lia. }
      apply H1; lia.
    + intros k Hk Hpi Hi0. rewrite !Hs.
      rewrite (decide_False (P := (i - 1) / 2 = j)) by lia.
      rewrite (decide_False (P := (i - 1) / 2 = i)) by lia.
      pose proof (H1 i) as H1i.
      destruct (decide (k = j)) as [->|Hkj]; [lia|].
      rewrite decide_False by lia.
      pose proof (H1 k) as H1k. rewrite Hpi in H1k. lia.
  - exists h''. split; [done|]. split; [lia|done].
Qed.

Lemma down_loop_heap fuel : forall (h : list Item) i n,
  0 <= i -> n <= Len h -> (Z.to_nat (n - i) < fuel)%nat -> down_inv h i n ->
  exists h' i', down_loop fuel h i n = Some (h', i') /\ Len h' = Len h /\
    heap_upto h' n /\ (forall k, n <= k -> prio h' k = prio h k).
Proof.
  induction fuel as [|fuel IH]; intros h i n Hi Hn Hf [H1 H2]; [lia|].
  simpl. destruct (decide (2 * i + 1 >= n \/ 2 * i + 1 < 0)) as [Hbr|Hbr].
  { exists h, i. split; [done|]. split; [done|]. split; [|done].
    intros k Hk. apply H1; lia. }
  assert (2 * i + 1 < n) as Hj1 by lia.
  set (j1 := 2 * i + 1) in *. set (j2 := j1 + 1).
  assert (forall j, (j = j1 \/ j = j2 /\ j2 < n) ->
            prio h j1 <= prio h j -> (j2 < n -> prio h j2 <= prio h j) ->
            exists h' i',
              (Less h j i ≫=
                (λ lt : bool, if negb lt then Some (h, i)
                   else Swap h i j ≫= (λ h', down_loop fuel h' j n)))
              = Some (h', i') /\ Len h' = Len h /\ heap_upto h' n /\
              (forall k, n <= k -> prio h' k = prio h k)) as Htail.
  { intros j Hj Hc1 Hc2.
    assert (i < j < n) as Hjr by (unfold j2, j1 in *; lia).
    assert ((j - 1) / 2 = i) as Hpj by (unfold j2, j1 in *; lia).
    rewrite Less_spec by lia. simpl.
    case_bool_decide as Hlt; simpl; last first.
    { exists h, i. split; [done|]. split; [done|]. split; [|done].
      intros k Hk. destruct (decide ((k - 1) / 2 = i)) as [Hpk|Hpk].
      - rewrite Hpk.
        assert (k = j1 \/ k = j2) as [->| ->] by (unfold j2, j1; lia); lia.
      - by apply H1. }
    destruct (Swap_spec h i j) as (h' & -> & Hlen & Hs); [lia..|]. simpl.
    destruct (IH h' j n) as (h'' & i'' & Hd & Hlen' & Hheap & Hout);
      [lia|lia|lia| |].
    - split.
      + intros k Hk Hpk. rewrite !Hs.
        destruct (decide (k = j)) as [->|Hkj].
        { rewrite Hpj. rewrite decide_False by lia.
          rewrite decide_True by done. lia. }
        rewrite (decide_False (P := (k - 1) / 2 = j)) by done.
        destruct (decide (k = i)) as [->|Hki].
        { rewrite decide_False by lia. specialize (H2 j). lia. }
        destruct (decide ((k - 1) / 2 = i)) as [Hpi|Hpi]; [|by apply H1].
        assert (k = j1 \/ k = j2) as [->| ->] by (unfold j2, j1; lia); lia.
      + intros k Hk Hpk Hj0. rewrite !Hs. rewrite Hpj.
        rewrite (decide_False (P := i = j)) by lia.
        rewrite (decide_True (P := i = i)) by done.
        rewrite (decide_False (P := k = j)) by lia.
        rewrite (decide_False (P := k = i)) by lia.
        specialize (H1 k). rewrite Hpk in H1. lia.
    - exists h'', i''. split; [done|]. split; [lia|]. split; [done|].
      intros k Hk. rewrite Hout by done. rewrite Hs.
      by rewrite !decide_False by lia. }
  fold j2. destruct (decide (j2 < n)) as [Hj2|Hj2]; simpl.
  - rewrite Less_spec by (unfold j2 in *; lia). simpl.
    case_bool_decide as Hlt.
    + apply (Htail j2); [right; done|lia|lia].
    + apply (Htail j1); [left; done|lia|lia].
  - apply (Htail j1); [left; done|lia|lia].
Qed.

Lemma prio_Push (h : list Item) x k :
  0 <= k < Len h -> prio (Push h x) k = prio h k.
Proof.
  intros Hk. unfold prio, at_, Push, Len in *.
  destruct (decide (0 <= k)); [|lia]. by rewrite lookup_app_l by lia.
Qed.

Lemma Len_Push (h : list Item) x : Len (Push h x) = Len h + 1.
Proof. unfold Push, Len. rewrite length_app. simpl. lia. Qed.

Lemma prio_take (h : list Item) n k :
  0 <= k < n -> prio (take (Z.to_nat n) h) k = prio h k.
Proof.
  intros Hk. unfold prio, at_. destruct (decide (0 <= k)); [|lia].
  by rewrite lookup_take_lt by lia.
Qed.

Lemma heap_Push_heap (h : list Item) x :
  heap_upto h (Len h) ->
  exists h', heap_Push h x = Some h' /\ Len h' = Len h + 1 /\
             heap_upto h' (Len h').
Proof.
  intros Hh. unfold heap_Push, up.
  pose proof (Len_Push h x) as HL.
  assert (0 <= Len h) by (unfold Len; lia).
  destruct (up_loop_heap (S (Z.to_nat (Len (Push h x) - 1))) (Push h x)
              (Len (Push h x) - 1)) as (h' & Hup & Hlen & Hheap);
    [lia|lia| |].
  - rewrite HL. replace (Len h + 1 - 1) with (Len h) by lia. split.
    + intros k Hk Hne. rewrite !prio_Push by lia. apply Hh. lia.
    + intros k Hk Hp. lia.
  - exists h'. split; [done|]. split; [lia|done].
Qed.

Lemma heap_Pop_empty : heap_Pop [] = Some (None, []).
Proof. reflexivity. Qed.

Lemma heap_Pop_heap (h : list Item) :
  heap_upto h (Len h) -> 0 < Len h ->
  exists it h', heap_Pop h = Some (Some it, h') /\
    Priority it = prio h 0 /\ Len h' = Len h - 1 /\ heap_upto h' (Len h').
Proof.
  intros Hh Hpos. unfold heap_Pop, down.
  set (n := Len h - 1).
  destruct (Swap_spec h 0 n) as (h1 & -> & Hlen1 & Hs); [lia..|].
  cbn -[down_loop].
  destruct (down_loop_heap (S (Z.to_nat n)) h1 0 n)
    as (h2 & i2 & -> & Hlen2 & Hheap & Hout); [lia|lia|lia| |].
  - split; [|intros; lia].
    intros k Hk Hp. rewrite !Hs.
    rewrite !decide_False by lia. apply Hh. lia.
  - simpl. unfold Pop. rewrite decide_False by lia.
    destruct (at_Some h2 (Len h2 - 1)) as [it Hit]; [lia|]. rewrite Hit.
    eexists _, _. split; [done|]. simpl.
    replace (Len h2 - 1) with n in * by lia.
    split.
    { rewrite <- (prio_at _ _ _ Hit), Hout by lia. rewrite Hs.
      by rewrite decide_True by done. }
    assert (Len (take (Z.to_nat n) h2) = n) as HL.
    { unfold Len in *. rewrite length_take. lia. }
    split; [lia|]. rewrite HL. intros k Hk.
    rewrite !prio_take by lia. by apply Hheap.
Qed.

Lemma heap_root_max (h : list Item) :
  heap_upto h (Len h) -> forall k, 0 <= k < Len h -> prio h k <= prio h 0.
Proof.
  intros Hh k Hk.
  assert (forall m : nat, forall k, 0 <= k < Len h -> Z.to_nat k = m ->
            prio h k <= prio h 0) as Hind; [|by eapply Hind].
  clear k Hk. intros m.
  induction (lt_wf m) as [m _ IH]. intros k Hk Hm.
  destruct (decide (k = 0)) as [->|Hk0]; [lia|].
  specialize (Hh k ltac:(lia)).
  specialize (IH (Z.to_nat ((k - 1) / 2)) ltac:(lia) ((k - 1) / 2)
                ltac:(lia) eq_refl).
  lia.
Qed.

Lemma heap_upto_is_heap (h : list Item) : heap_upto h (Len h) <-> is_heap h.
Proof.
  split.
  - intros Hh i c a b Hi Hc Ha Hb.
    pose proof (at_range _ _ _ Hb) as Hcr.
    specialize (Hh c ltac:(lia)).
    replace ((c - 1) / 2) with i in Hh by lia.
    by rewrite (prio_at _ _ _ Ha), (prio_at _ _ _ Hb) in Hh.
  - intros Hh k Hk.
    destruct (at_Some h k) as [b Hb]; [lia|].
    destruct (at_Some h ((k - 1) / 2)) as [a Ha]; [lia|].
    rewrite (prio_at _ _ _ Ha), (prio_at _ _ _ Hb).
    apply (Hh ((k - 1) / 2) k); [lia|lia|done|done].
Qed.

Lemma run_heap (ops : list op) : forall h : list Item,
  heap_upto h (Len h) ->
  exists h', run ops h = Some h' /\ heap_upto h' (Len h').
Proof.
  induction ops as [|o ops IH]; intros h Hh; simpl; [eauto|].
  destruct o as [x|]; simpl.
  - destruct (heap_Push_heap h x Hh) as (h' & -> & _ & Hh'). simpl. eauto.
  - destruct (decide (0 < Len h)) as [Hpos|Hz].
    + destruct (heap_Pop_heap h Hh Hpos) as (it & h' & -> & _ & _ & Hh').
      simpl. eauto.
    + assert (h = []) as -> by (destruct h; [done|unfold Len in Hz; simpl in Hz; lia]).
      rewrite heap_Pop_empty. simpl. eauto.
Qed.

(** C8: on the empty queue [heap.Pop] returns nil without panicking; on
    a non-empty queue in heap order, hence on every non-empty queue reached
    from the empty one by [heap.Push] and [heap.Pop], it returns the root
    item, whose priority is at least that of every item of the queue, and
    leaves one item less. *)
Theorem heap_Pop_largest :
  heap_Pop [] = Some (None, []) /\
  (forall h : list Item, is_heap h -> h <> [] -> pops_largest h) /\
  (forall ops (h : list Item),
     run ops [] = Some h -> h <> [] -> pops_largest h).
Proof.
  assert (forall h : list Item, heap_upto h (Len h) -> h <> [] ->
            pops_largest h) as Hmain.
  { intros h Hh Hne.
    assert (0 < Len h) as Hpos.
    { destruct h; [done|]. unfold Len. simpl. lia. }
    destruct (heap_Pop_heap h Hh Hpos) as (it & h' & Hpop & Hprio & Hlen & _).
    destruct (at_Some h 0) as [root Hroot]; [lia|].
    exists it, root, h'. split; [done|]. split; [done|].
    rewrite (prio_at _ _ _ Hroot) in Hprio. split; [done|]. split; [done|].
    intros x [n Hn]%list_elem_of_lookup_1.
    pose proof (lookup_lt_Some _ _ _ Hn) as Hlt.
    assert (at_ h (Z.of_nat n) = Some x) as Hat.
    { unfold at_. rewrite decide_True by lia. by rewrite Nat2Z.id. }
    pose proof (heap_root_max h Hh (Z.of_nat n)) as Hmax.
    rewrite (prio_at _ _ _ Hat), (prio_at _ _ _ Hroot) in Hmax.
    unfold Len in Hmax. lia. }
  split; [reflexivity|]. split.
  - intros h Hh. apply Hmain. by apply heap_upto_is_heap.
  - intros ops h Hrun. apply Hmain.
    destruct (run_heap ops []) as (h0 & Hrun0 & Hh0).
    { intros k Hk. unfold Len in Hk. simpl in Hk. lia. }
    rewrite Hrun in Hrun0. by inversion Hrun0; subst.
Qed.

Lemma Swap_length (h h' : list Item) i j :
  Swap h i j = Some h' -> length h' = length h.
Proof.
  unfold Swap. case_decide; [by intros [= ->]|].
  destruct (at_ h i); [|done]. destruct (at_ h j); [|done]. simpl.
  intros [= <-]. by rewrite !length_insert.
Qed.

Lemma down_loop_length fuel : forall (h h' : list Item) i n i',
  down_loop fuel h i n = Some (h', i') -> length h' = length h.
Proof.
  induction fuel as [|fuel IH]; intros h h' i n i'; simpl; [done|].
  case_decide; [by intros [= -> _]|].
  destruct (if decide (2 * i + 1 + 1 < n) then _ else _) as [rf|]; [|done].
  simpl. destruct (Less h _ i) as [lt|]; [|done]. simpl.
  destruct lt; simpl; [|by intros [= -> _]].
  destruct (Swap h i _) as [h1|] eqn:Hs; [|done]. simpl.
  intros Hd%IH. apply Swap_length in Hs. congruence.
Qed.

(** Whatever the array, a [heap.Pop] that returns an item leaves one item
    less. *)
Lemma heap_Pop_length (h h' : list Item) it :
  heap_Pop h = Some (Some it, h') -> S (length h') = length h.
Proof.
  unfold heap_Pop, down.
  destruct (Swap h 0 _) as [h1|] eqn:Hs; [|done]. cbn -[down_loop].
  destruct (down_loop _ h1 0 _) as [[h2 i2]|] eqn:Hd; [|done].
  cbn -[down_loop]. apply Swap_length in Hs. apply down_loop_length in Hd.
  unfold Pop. case_decide; [done|].
  destruct (at_ h2 _); [|done]. intros [= _ <-].
  rewrite length_take. unfold Len in *. lia.
Qed.

Lemma three_items_heap : is_heap three_items.
Proof.
  apply heap_upto_is_heap. intros k Hk.
  assert (k = 1 \/ k = 2) as [-> | ->] by (unfold Len in Hk; simpl in Hk; lia);
    vm_compute; discriminate.
Defined.

Lemma heap_Pop_largest_witness :
  is_heap three_items /\ three_items <> [] /\ pops_largest three_items.
Proof.
  split; [exact three_items_heap|]. split; [discriminate|].
  apply (proj1 (proj2 heap_Pop_largest) three_items three_items_heap).
  discriminate.
Defined.

(** C9: every sequence of [heap.Push] and [heap.Pop] calls started on the
    empty queue runs without a panic and ends in an array in max-heap
    order. *)
Theorem run_keeps_heap (ops : list op) :
  exists h, run ops [] = Some h /\ is_heap h.
Proof.
  destruct (run_heap ops []) as (h & Hrun & Hh).
  { intros k Hk. unfold Len in Hk. simpl in Hk. lia. }
  exists h. split; [done|]. by apply heap_upto_is_heap.
Qed.

End PQFacts.

(** ** Facts about the event queues *)

Module EQFacts.
Import Go.

Lemma demo_heap_reachable :
  PQ.run [PQ.OpPush (PQ.mkItem "due" 5 0); PQ.OpPush (PQ.mkItem "late" 100 0)]
         [] = Some EQ.demo_heap.
Proof. vm_compute. reflexivity. Qed.

(** C4, at a queue built by two pushes: at second 10 the tick pops the item
    due at second 100, pushes it back and returns, and the item due at
    second 5 is still in the queue. *)
Theorem tryPopAndPush_leaves_due_item (unmarshal : string -> option EQ.mvEvent) :
  exists eq',
    EQ.tryPopAndPush unmarshal 10 EQ.demo_queue = Some (eq', Returned) /\
    EQ.pq eq' = EQ.demo_heap /\
    (PQ.heap_Pop EQ.demo_heap =
       Some (Some (PQ.mkItem "late" 100 (-1)), [PQ.mkItem "due" 5 0])) /\
    exists it, it ∈ EQ.pq eq' /\ PQ.Priority it <= 10.
Proof.
  eexists. split; [vm_compute; reflexivity|]. simpl.
  split; [reflexivity|]. split; [vm_compute; reflexivity|].
  exists (PQ.mkItem "due" 5 1). split; [|simpl; lia].
  unfold EQ.demo_heap. set_solver.
Qed.

Lemma send_pq service ev eq : EQ.pq (EQ.send service ev eq).1 = EQ.pq eq.
Proof. unfold EQ.send. by case_decide. Qed.

(** Pushing an item that is due does not touch the priority queue. *)
Lemma push_due_pq unmarshal now item checkDup eq :
  now >= PQ.Priority item ->
  EQ.pq (EQ.push unmarshal now item checkDup eq).1 = EQ.pq eq.
Proof.
  intros Hdue. unfold EQ.push. destruct (Lock (EQ.mu eq)) as [m|]; [|done].
  assert (EQ.pq (EQ.push_body unmarshal now item checkDup (EQ.set_mu eq m)).1
          = EQ.pq eq) as Hbody.
  { unfold EQ.push_body. destruct (unmarshal _) as [ev|]; [|done].
    destruct (checkDup && _); [done|].
    set (eq1 := if checkDup then _ else EQ.set_mu eq m).
    assert (EQ.pq eq1 = EQ.pq eq) as <- by (unfold eq1; by destruct checkDup).
    set (eq2 := match EQ.serviceEvChan eq1 !! EQ.Service ev with
                | Some _ => eq1 | None => _ end).
    assert (EQ.pq eq2 = EQ.pq eq1) as <-
      by (unfold eq2; by destruct (EQ.serviceEvChan eq1 !! EQ.Service ev)).
    rewrite (bool_decide_eq_true_2 _ Hdue).
    repeat case_bool_decide; try apply send_pq; done. }
  destruct (EQ.push_body _ _ _ _ _) as [eq1 e]. simpl in Hbody.
  destruct e; simpl; done.
Qed.

Lemma tryPopAndPush_loop_total unmarshal now fuel : forall eq,
  (length (EQ.pq eq) < fuel)%nat ->
  exists r, EQ.tryPopAndPush_loop unmarshal fuel now eq = Some r.
Proof.
  induction fuel as [|fuel IH]; intros eq Hlen; [lia|]. simpl.
  destruct (PQ.heap_Pop (EQ.pq eq)) as [[[item|] h]|] eqn:Hpop; [|eauto..].
  apply PQFacts.heap_Pop_length in Hpop.
  case_bool_decide as Hnow.
  { destruct (PQ.heap_Push h item); eauto. }
  pose proof (push_due_pq unmarshal now item false (EQ.set_pq eq h)
                ltac:(lia)) as Hpq.
  destruct (EQ.push unmarshal now item false (EQ.set_pq eq h)) as [eq2 e].
  simpl in Hpq. destruct e; eauto.
  apply IH. rewrite Hpq. lia.
Qed.

(** One tick always comes to an end within its fuel. *)
Lemma tryPopAndPush_total unmarshal now eq :
  exists r, EQ.tryPopAndPush unmarshal now eq = Some r.
Proof. apply tryPopAndPush_loop_total. lia. Qed.

(** [push_body] of smserver never touches the mutex. *)
Lemma send_mu service ev eq :
  EQ.mu (EQ.send service ev eq).1 = EQ.mu eq.
Proof. unfold EQ.send. by case_decide. Qed.

Lemma push_body_mu unmarshal now item checkDup eq :
  EQ.mu (EQ.push_body unmarshal now item checkDup eq).1 = EQ.mu eq.
Proof.
  unfold EQ.push_body. destruct (unmarshal _) as [ev|]; [|done].
  destruct (checkDup && _); [done|].
  set (eq1 := if checkDup then _ else eq).
  assert (EQ.mu eq1 = EQ.mu eq) as <- by (unfold eq1; by destruct checkDup).
  set (eq2 := match EQ.serviceEvChan eq1 !! EQ.Service ev with
              | Some _ => eq1 | None => _ end).
  assert (EQ.mu eq2 = EQ.mu eq1) as <-
    by (unfold eq2; by destruct (EQ.serviceEvChan eq1 !! EQ.Service ev)).
  repeat case_bool_decide; try apply send_mu; try done.
  by destruct (PQ.heap_Push _ _).
Qed.

Lemma push_body_exit unmarshal now item checkDup eq :
  forall msg, (EQ.push_body unmarshal now item checkDup eq).2 <> Fatal msg.
Proof.
  intros msg. unfold EQ.push_body, EQ.send.
  destruct (unmarshal _) as [ev|]; [|done].
  destruct (checkDup && _); [done|].
  repeat case_bool_decide; repeat case_decide; try done.
  by destruct (PQ.heap_Push _ _).
Qed.

(** The smserver [push] locks once and, on every exit (return or panic),
    unlocks exactly once; while it is parked on a full channel it holds
    the mutex and has not unlocked. *)
Lemma smserver_push_unlocks_once unmarshal now item checkDup eq :
  held (EQ.mu eq) = false ->
  let r := EQ.push unmarshal now item checkDup eq in
  (r.2 = Blocked /\ ops (EQ.mu r.1) = ops (EQ.mu eq) ++ [MuLock] /\
   held (EQ.mu r.1) = true) \/
  ((r.2 = Returned \/ exists msg, r.2 = Panicked msg) /\
   ops (EQ.mu r.1) = ops (EQ.mu eq) ++ [MuLock; MuUnlock] /\
   held (EQ.mu r.1) = false).
Proof.
  intros Hfree. unfold EQ.push, Lock. rewrite Hfree.
  set (eq0 := EQ.set_mu eq _).
  pose proof (push_body_mu unmarshal now item checkDup eq0) as Hmu.
  pose proof (push_body_exit unmarshal now item checkDup eq0) as Hex.
  destruct (EQ.push_body unmarshal now item checkDup eq0) as [eq1 e].
  simpl in *. destruct e as [|msg|msg|]; simpl.
  - right. rewrite Hmu. simpl. split; [by left|].
    by rewrite <- app_assoc.
  - right. rewrite Hmu. simpl. split; [right; by eexists|].
    by rewrite <- app_assoc.
  - by destruct (Hex msg).
  - left. by rewrite Hmu.
Qed.


Lemma evLoop_handle_spec
    (Store : Type)
    (CompareAndSwap :
       Store -> string -> string -> string -> Z -> Store * option error)
    (ev : EQ.mvEvent) (st : EQ.loopState Store) :
  held (EQ.mu (EQ.l_eq st)) = false ->
  let r := EQ.evLoop_handle CompareAndSwap ev st in
  EQ.l_cas r.1 =
    EQ.l_cas st ++ [EQ.task_cas (EQ.parent_service (EQ.l_eq st)) ev] /\
  r.2 = Returned /\
  EQ.serviceBlk (EQ.l_eq r.1) = EQ.serviceBlk (EQ.l_eq st) ∖ {[EQ.Service ev]} /\
  held (EQ.mu (EQ.l_eq r.1)) = false.
Proof.
  intros Hfree. unfold EQ.evLoop_handle, Lock. rewrite Hfree.
  by destruct (CompareAndSwap _ _ _ _ _) as [store' err].
Qed.

(** C3 as stated fails: with the queue's parent serving "sm", the event of
    service "S" waiting in the channel of "S" is published by a
    compare-and-swap on the task key of "sm", not on the task key of
    "S". *)
Lemma evLoop_cas_not_on_event_service :
  EQ.serviceEvChan (EQ.l_eq EQ.other_service_state) !! "S"%string
    = Some [EQ.other_service_event] /\
  EQ.l_cas (EQ.evLoop_iter EQ.kv_CompareAndSwap "S" EQ.other_service_state).1
  <> [EQ.task_cas (EQ.Service EQ.other_service_event) EQ.other_service_event].
Proof. split; [vm_compute; reflexivity|vm_compute; discriminate]. Qed.

(** C3, amended: for every event the loop of a service takes from its
    channel, whatever the store answers, exactly one compare-and-swap is
    issued, from the empty string to the event's value, on the task key of
    the queue's parent service; once the loop holds the mutex it removes
    the event's service, and nothing else, from the duplicate-suppression
    set. *)
Theorem evLoop_iter_cas_then_unblock
    (Store : Type)
    (CompareAndSwap :
       Store -> string -> string -> string -> Z -> Store * option error)
    (service : string) (ev : EQ.mvEvent) (rest : list EQ.mvEvent)
    (st : EQ.loopState Store) :
  EQ.serviceEvChan (EQ.l_eq st) !! service = Some (ev :: rest) ->
  held (EQ.mu (EQ.l_eq st)) = false ->
  let r := EQ.evLoop_iter CompareAndSwap service st in
  EQ.l_cas r.1 =
    EQ.l_cas st ++ [EQ.task_cas (EQ.parent_service (EQ.l_eq st)) ev] /\
  r.2 = Returned /\
  (EQ.Service ev ∉ EQ.serviceBlk (EQ.l_eq r.1)) /\
  (forall s, s <> EQ.Service ev ->
     s ∈ EQ.serviceBlk (EQ.l_eq r.1) <-> s ∈ EQ.serviceBlk (EQ.l_eq st)) /\
  EQ.serviceEvChan (EQ.l_eq r.1) !! service = Some rest.
Proof.
  intros Hch Hfree. unfold EQ.evLoop_iter. rewrite Hch.
  set (st1 := EQ.mkLoop _ _ _).
  destruct (evLoop_handle_spec Store CompareAndSwap ev st1 Hfree)
    as (Hcas & Hexit & Hblk & _).
  assert (EQ.serviceEvChan (EQ.l_eq (EQ.evLoop_handle CompareAndSwap ev st1).1)
          = <[service := rest]> (EQ.serviceEvChan (EQ.l_eq st))) as Hchan.
  { unfold EQ.evLoop_handle, Lock. simpl. rewrite Hfree.
    by destruct (CompareAndSwap _ _ _ _ _). }
  split; [exact Hcas|]. split; [exact Hexit|]. rewrite Hblk. simpl.
  split.
  { rewrite elem_of_difference, elem_of_singleton. by intros [_ Hn]. }
  split.
  { intros s Hs. rewrite elem_of_difference, elem_of_singleton. tauto. }
  rewrite Hchan. apply lookup_insert_eq.
Qed.

Lemma evLoop_iter_cas_then_unblock_witness :
  let r := EQ.evLoop_iter EQ.kv_CompareAndSwap "S" EQ.other_service_state in
  held (EQ.mu (EQ.l_eq EQ.other_service_state)) = false /\
  EQ.l_cas r.1 = [EQ.task_cas "sm" EQ.other_service_event] /\
  r.2 = Returned /\
  (EQ.Service EQ.other_service_event ∉ EQ.serviceBlk (EQ.l_eq r.1)).
Proof.
  pose proof (evLoop_iter_cas_then_unblock _ EQ.kv_CompareAndSwap "S"
                EQ.other_service_event [] EQ.other_service_state
                eq_refl eq_refl)
    as (H1 & H2 & H3 & _).
  split; [reflexivity|]. split; [exact H1|]. split; [exact H2|exact H3].
Defined.

End EQFacts.


(** ** Facts about the move operator *)

Module OPFacts.
Import Go.

Section Operator.

Context {ShardSpec Net : Type}.
Variable unmarshal : string -> option (list (OP.moveAction ShardSpec)).
Variable send :
  Net -> string -> option ShardSpec -> string -> string -> Net * option error.






End Operator.

End OPFacts.

Module OPDemo.
Import Go.

(** With every request failing, the two rounds are spent (two drop
    requests, one sleep) and [move] still returns nil. *)
Example move_final_failure_is_nil :
  OP.move (λ _, Some OP.one_move) OP.failing_send "payload" (OP.mkOp tt [] 0%nat)
  = Some (OP.mkOp tt [OP.mkReq "s1" "E1" "drop"; OP.mkReq "s1" "E1" "drop"]
                  1%nat, None).
Proof. vm_compute. reflexivity. Qed.


End OPDemo.

(** ** Facts about the shard keeper *)

Module SKFacts.
Import Go.

Section Keeper.

Context {St App : Type} `{!SK.Storage St} `{!SK.ShardPrimitives App}.
Variable Lease_String : SK.Lease -> string.

(** C6: [Add] with a spec whose lease differs by id from the guard lease
    returns the error "lease mismatch" and leaves the world as it was, no
    call reaching the store; with an equal lease the one call made is
    [storage.Add] on that spec, whose result [Add] returns. *)
Theorem Add_checks_guard_lease (id : string) (spec : SK.ShardSpec)
    (sk : SK.ShardKeeper) (w : SK.World (St := St) (App := App)) :
  (SK.ID (SK.SpecLease spec) <> SK.ID (SK.guardLease sk) ->
     SK.Add id spec sk w = (w, Some (ErrNew "lease mismatch"))) /\
  (SK.ID (SK.SpecLease spec) = SK.ID (SK.guardLease sk) ->
     let r := SK.Add id spec sk w in
     SK.calls r.1 = SK.calls w ++ [SK.CAdd spec] /\
     (SK.storage r.1, r.2) = SK.storage_Add spec (SK.storage w)).
Proof.
  unfold SK.Add, SK.EqualTo. split; intros Hid.
  - by rewrite bool_decide_eq_false_2.
  - rewrite bool_decide_eq_true_2 by done. simpl. unfold SK.on_storage.
    by destruct (SK.storage_Add spec (SK.storage w)).
Qed.

(** C1, amended: on a non-create guard event every exit of
    [acquireGuardLease], normal or with an error, leaves the in-memory
    bridge lease equal to NoLease, except the rejection of an event whose
    BridgeLeaseID disagrees with the bridge lease held: that one returns
    its error before the deferred clear is set up and leaves the keeper
    and the world untouched. *)
Theorem acquireGuardLease_clears_bridge (ev : SK.Event)
    (lease_ : SK.ShardLease) (sk : SK.ShardKeeper)
    (w : SK.World (St := St) (App := App)) :
  SK.IsCreate ev = false ->
  let r := SK.acquireGuardLease Lease_String ev lease_ sk w in
  (~ SK.bridge_mismatch lease_ sk ->
     SK.EqualTo (SK.bridgeLease r.1.1) SK.NoLease = true) /\
  (SK.bridge_mismatch lease_ sk ->
     r.1 = (sk, w) /\ is_Some r.2 /\
     SK.EqualTo (SK.bridgeLease r.1.1) SK.NoLease = false).
Proof.
  intros Hnc. unfold SK.acquireGuardLease, SK.bridge_mismatch. rewrite Hnc.
  destruct (SK.EqualTo (SK.bridgeLease sk) SK.NoLease) eqn:Hz; simpl.
  { split; [by intros _|]. intros [Hne _].
    unfold SK.EqualTo in Hz. by apply bool_decide_eq_true_1 in Hz. }
  destruct (bool_decide (SK.BridgeLeaseID lease_ > 0)) eqn:Hpos; simpl.
  - apply bool_decide_eq_true_1 in Hpos.
    case_bool_decide as Hm; simpl.
    + split.
      { intros Hn. destruct Hn. split; [|done].
        unfold SK.EqualTo in Hz. by apply bool_decide_eq_false_1 in Hz. }
      intros _. split; [done|]. split; [by eexists|done].
    + destruct (SK.acquireGuardLease_body _ _ _ _) as [[sk1 w1] err]. simpl.
      split; [done|]. intros (_ & _ & Hne). done.
  - apply bool_decide_eq_false_1 in Hpos.
    destruct (SK.acquireGuardLease_body _ _ _ _) as [[sk1 w1] err]. simpl.
    split; [done|]. intros (_ & Hgt & _). done.
Qed.

(** The answer of the store client to the session [Put] reaches neither
    the result of [acquireGuardLease], nor the keeper, nor the durable
    store. *)
Lemma acquireGuardLease_put_independent (ev : SK.Event)
    (lease_ : SK.ShardLease) (sk : SK.ShardKeeper)
    (w : SK.World (St := St) (App := App)) (perr : option error) :
  let r := SK.acquireGuardLease Lease_String ev lease_ sk w in
  let r' :=
    SK.acquireGuardLease Lease_String ev lease_ sk (SK.with_put_err w perr) in
  r'.2 = r.2 /\ r'.1.1 = r.1.1 /\ SK.storage r'.1.2 = SK.storage r.1.2.
Proof.
  unfold SK.acquireGuardLease.
  destruct (SK.IsCreate ev); [done|].
  destruct (SK.EqualTo _ _); [done|].
  destruct (_ && _); [done|].
  unfold SK.acquireGuardLease_body, SK.on_storage. simpl.
  destruct (SK.storage_MigrateLease _ _ _) as [s1 [e1|]]; simpl; [done|].
  destruct (SK.storage_DropByLease _ _ _) as [s2 [e2|]]; simpl; done.
Qed.

(** C10: when the guard event passes the checks and the migrate and drop
    calls succeed, a failing [Put] of the session key changes nothing in
    the outcome: [acquireGuardLease] returns nil, the guard lease is the
    new lease, the bridge lease is cleared, the store holds the migrated
    and dropped records, and the consistent store is as it was, without
    the session key if it had none; the keeper, the result and the
    durable store are the same for any other answer to that [Put]. *)
Theorem acquireGuardLease_ignores_Put_failure (ev : SK.Event)
    (lease_ : SK.ShardLease) (sk : SK.ShardKeeper)
    (w : SK.World (St := St) (App := App)) (e : error) (s1 s2 : St) :
  SK.etcd_put_err w = Some e ->
  SK.IsCreate ev = false ->
  SK.EqualTo (SK.bridgeLease sk) SK.NoLease = false ->
  (SK.BridgeLeaseID lease_ > 0 ->
     SK.ID (SK.bridgeLease sk) = SK.BridgeLeaseID lease_) ->
  SK.storage_MigrateLease (SK.ID (SK.bridgeLease sk))
    (SK.ID (SK.lease lease_)) (SK.storage w) = (s1, None) ->
  SK.storage_DropByLease true (SK.ID (SK.lease lease_)) s1 = (s2, None) ->
  let r := SK.acquireGuardLease Lease_String ev lease_ sk w in
  let sessionPath :=
    SK.LeaseSessionPath (SK.optService sk) (SK.optContainerId sk) in
  r.2 = None /\
  SK.guardLease r.1.1 = SK.lease lease_ /\
  SK.bridgeLease r.1.1 = SK.NoLease /\
  SK.storage r.1.2 = s2 /\
  SK.etcd r.1.2 = SK.etcd w /\
  SK.calls r.1.2 =
    SK.calls w ++
      [SK.CMigrateLease (SK.ID (SK.bridgeLease sk)) (SK.ID (SK.lease lease_));
       SK.CDropByLease true (SK.ID (SK.lease lease_));
       SK.CEtcdPut sessionPath (Lease_String (SK.lease lease_))
                   (SK.ID (SK.lease lease_))] /\
  forall perr,
    let r' :=
      SK.acquireGuardLease Lease_String ev lease_ sk (SK.with_put_err w perr)
    in r'.2 = r.2 /\ r'.1.1 = r.1.1 /\ SK.storage r'.1.2 = SK.storage r.1.2.
Proof.
  intros Hput Hnc Hb Hmatch Hmig Hdrop r sessionPath.
  assert (r.2 = None /\ SK.guardLease r.1.1 = SK.lease lease_ /\
          SK.bridgeLease r.1.1 = SK.NoLease /\ SK.storage r.1.2 = s2 /\
          SK.etcd r.1.2 = SK.etcd w /\
          SK.calls r.1.2 =
            SK.calls w ++
              [SK.CMigrateLease (SK.ID (SK.bridgeLease sk))
                 (SK.ID (SK.lease lease_));
               SK.CDropByLease true (SK.ID (SK.lease lease_));
               SK.CEtcdPut sessionPath (Lease_String (SK.lease lease_))
                 (SK.ID (SK.lease lease_))]) as Hmain.
  { unfold r, SK.acquireGuardLease. rewrite Hnc, Hb.
    assert (bool_decide (SK.BridgeLeaseID lease_ > 0) &&
            bool_decide (SK.ID (SK.bridgeLease sk) <> SK.BridgeLeaseID lease_)
            = false) as ->.
    { case_bool_decide as Hpos; [|done]. simpl.
      apply bool_decide_eq_false_2. intros Hne. by apply Hne, Hmatch. }
    unfold SK.acquireGuardLease_body, SK.on_storage. simpl.
    rewrite Hmig. simpl. rewrite Hdrop. simpl.
    unfold SK.client_Put. simpl. rewrite Hput. simpl.
    repeat split; try done. by rewrite <- !app_assoc. }
  destruct Hmain as (H1 & H2 & H3 & H4 & H5 & H6).
  repeat (split; [assumption|]).
  intros perr. apply acquireGuardLease_put_independent.
Qed.

End Keeper.

End SKFacts.

(** ** The sync loop over the durable log *)

Module SyncFacts.
Import Go.

Section Sync.

Context {App : Type} `{!SK.ShardPrimitives App}.

Lemma visit_step (sk : SK.ShardKeeper) k dv (acc : SK.syncAcc (App := App)) :
  SK.drop_accepted dv ->
  (forall k' dv', SK.updateDbValues acc !! k' = Some dv' ->
     SK.lease_current sk dv') ->
  let acc' := (SK.visit sk k dv acc).1 in
  (forall k' dv', SK.updateDbValues acc' !! k' = Some dv' ->
     SK.lease_current sk dv') /\
  (forall id, id ∈ SK.dropShardIDs acc -> id ∈ SK.dropShardIDs acc') /\
  (~ SK.lease_current sk dv -> SK.Id (SK.Spec dv) ∈ SK.dropShardIDs acc').
Proof.
  intros Hdrop Hupd. unfold SK.visit, SK.lease_current.
  assert (forall acc0 : SK.syncAcc (App := App),
            (SK.dropFn dv acc0).1 =
              SK.mkAcc (SK.app_Drop (SK.Id (SK.Spec dv)) (SK.a_app acc0)).1
                (SK.a_calls acc0 ++ [SK.CAppDrop (SK.Id (SK.Spec dv))])
                (SK.dropShardIDs acc0 ++ [SK.Id (SK.Spec dv)])
                (SK.updateDbValues acc0)) as HdropFn.
  { intros acc0. unfold SK.dropFn. specialize (Hdrop (SK.a_app acc0)).
    destruct (SK.app_Drop _ _) as [a' err]. simpl in *.
    by rewrite bool_decide_eq_true_2. }
  destruct (SK.EqualTo _ (SK.guardLease sk)) eqn:Hg;
    destruct (SK.EqualTo _ (SK.bridgeLease sk)) eqn:Hb; simpl.
  4: { rewrite HdropFn. simpl. split; [done|]. split.
       - intros id Hid. apply elem_of_app. by left.
       - intros _. apply elem_of_app. right. by apply list_elem_of_singleton. }
  all: destruct (SK.Disp dv && SK.initialized sk); simpl;
    [split; [done|]; split; [done|]; intros Hn; destruct Hn; auto|].
  all: destruct (SK.Drop dv); simpl;
    [rewrite HdropFn; simpl; split; [done|]; split;
       [intros id Hid; apply elem_of_app; by left
       |intros Hn; destruct Hn; auto]|].
  all: unfold SK.addFn; destruct (SK.app_Add _ _ _) as [a' err];
    case_bool_decide; simpl;
    (split; [|split; [done|intros Hn; destruct Hn; auto]]); try done.
  all: intros k' dv'; rewrite lookup_insert_Some;
    intros [[_ <-]|[_ Hl]]; [simpl; auto|by eapply Hupd].
Qed.

Lemma foreach_inv (sk : SK.ShardKeeper)
    (kvs : list (string * SK.ShardKeeperDbValue)) :
  forall r : SK.syncAcc (App := App) * option error,
  (forall k dv, (k, dv) ∈ kvs -> SK.drop_accepted dv) ->
  (forall k' dv', SK.updateDbValues r.1 !! k' = Some dv' ->
     SK.lease_current sk dv') ->
  let r' :=
    foldl (λ (r : SK.syncAcc * option error)
             (kv : string * SK.ShardKeeperDbValue),
             let '(a', e') := SK.visit sk kv.1 kv.2 r.1 in
             (a', match r.2 with Some e => Some e | None => e' end))
          r kvs in
  (forall k' dv', SK.updateDbValues r'.1 !! k' = Some dv' ->
     SK.lease_current sk dv') /\
  (forall id, id ∈ SK.dropShardIDs r.1 -> id ∈ SK.dropShardIDs r'.1) /\
  (forall k dv, (k, dv) ∈ kvs -> ~ SK.lease_current sk dv ->
     SK.Id (SK.Spec dv) ∈ SK.dropShardIDs r'.1).
Proof.
  induction kvs as [|[k dv] kvs IH]; intros r Hdrop Hupd; simpl.
  { split; [done|]. split; [done|]. intros k dv Hin. by apply elem_of_nil in Hin. }
  destruct (visit_step sk k dv r.1) as (Hu & Hmono & Hbad);
    [eapply Hdrop; left|done|].
  destruct (SK.visit sk k dv r.1) as [a' e'] eqn:Hv. simpl in *.
  destruct (IH (a', match r.2 with Some e => Some e | None => e' end))
    as (Hu' & Hmono' & Hbad'); [|done|].
  { intros k0 dv0 Hin. eapply Hdrop. right. exact Hin. }
  split; [done|]. split; [by auto|].
  intros k0 dv0 [Heq|Hin]%elem_of_cons Hn.
  - inversion Heq; subst. by apply Hmono', Hbad.
  - by eapply Hbad'.
Qed.

Lemma remove_all_recs (ids : list string) :
  forall (w w' : SK.World (St := SK.Log) (App := App)),
  SK.remove_all ids w = (w', None) ->
  forall k dv, SK.recs (SK.storage w') !! k = Some dv ->
    SK.recs (SK.storage w) !! k = Some dv /\ k ∉ ids.
Proof.
  induction ids as [|id ids IH]; intros w w' Hr k dv Hl; simpl in Hr.
  { inversion Hr; subst. split; [done|]. by apply not_elem_of_nil. }
  unfold SK.on_storage in Hr. simpl in Hr.
  unfold SK.log_Remove, SK.log_write in Hr.
  destruct (SK.faults (SK.storage w) (SK.OpRemove id)) as [e|]; [done|].
  simpl in Hr. destruct (IH _ _ Hr k dv Hl) as [Hl1 Hn]. simpl in Hl1.
  apply lookup_delete_Some in Hl1 as [Hne Hl1]. split; [done|].
  apply not_elem_of_cons. by split.
Qed.

Lemma put_all_recs (kvs : list (string * SK.ShardKeeperDbValue)) :
  forall (w w' : SK.World (St := SK.Log) (App := App)),
  SK.put_all kvs w = (w', None) ->
  forall k dv, SK.recs (SK.storage w') !! k = Some dv ->
    SK.recs (SK.storage w) !! k = Some dv \/
    exists dv0, (k, dv0) ∈ kvs /\ SK.Spec dv = SK.Spec dv0.
Proof.
  induction kvs as [|[id dv0] kvs IH]; intros w w' Hr k dv Hl; simpl in Hr.
  { inversion Hr; subst. by left. }
  unfold SK.on_storage in Hr. simpl in Hr.
  unfold SK.log_Put, SK.log_write in Hr.
  destruct (SK.faults (SK.storage w) (SK.OpPut id)) as [e|]; [done|].
  simpl in Hr. destruct (IH _ _ Hr k dv Hl) as [Hl1|(dv1 & Hin & Hs)].
  - simpl in Hl1. apply lookup_insert_Some in Hl1 as [[<- <-]|[_ Hl1]].
    + right. exists dv0. split; [by left|done].
    + by left.
  - right. exists dv1. split; [by right|done].
Qed.

(** C2: on a log whose records are filed under their shard id, if the
    application accepts (or reports not-found for) every drop asked of it
    and the tick runs to its end, every record left in the log carries,
    by id, the guard lease or the bridge lease; the tick leaves both
    leases of the keeper as they were. *)
Theorem sync_leaves_current_leases (sk : SK.ShardKeeper)
    (w : SK.World (St := SK.Log) (App := App)) :
  SK.log_keyed (SK.storage w) ->
  (forall k dv, SK.recs (SK.storage w) !! k = Some dv -> SK.drop_accepted dv) ->
  let r := SK.sync sk w in
  r.2 = None ->
  SK.guardLease r.1.1 = SK.guardLease sk /\
  SK.bridgeLease r.1.1 = SK.bridgeLease sk /\
  forall k dv, SK.recs (SK.storage r.1.2) !! k = Some dv ->
    SK.lease_current r.1.1 dv.
Proof.
  intros Hkeyed Hdrop. unfold SK.sync. simpl. unfold SK.log_ForEach.
  set (acc0 := SK.mkAcc (SK.app w) (SK.calls w ++ [SK.CForEach]) [] ∅).
  destruct (foreach_inv sk (map_to_list (SK.recs (SK.storage w)))
              (acc0, None)) as (Hupd & _ & Hbad).
  { intros k dv Hin%elem_of_map_to_list. by eapply Hdrop. }
  { intros k' dv'. simpl. by rewrite lookup_empty. }
  destruct (foldl _ (acc0, None) _) as [acc e0]. simpl in *.
  destruct (SK.remove_all _ _) as [w1 [e1|]] eqn:Hrm; simpl; [done|].
  destruct (SK.put_all _ _) as [w2 [e2|]] eqn:Hput; simpl; [done|].
  intros _. split; [done|]. split; [done|]. intros k dv Hl.
  assert (forall d, SK.lease_current (SK.set_initialized sk true) d <->
                    SK.lease_current sk d) as Hlc by done.
  apply Hlc.
  destruct (put_all_recs _ _ _ Hput k dv Hl) as [Hl1|(dv0 & Hin & Hs)].
  - destruct (remove_all_recs _ _ _ Hrm k dv Hl1) as [Hl0 Hnot].
    simpl in Hl0.
    destruct (decide (SK.lease_current sk dv)) as [|Hn]; [done|].
    destruct Hnot. specialize (Hkeyed k dv Hl0). simpl in Hkeyed.
    rewrite <- Hkeyed. eapply Hbad; [|done].
    by apply elem_of_map_to_list.
  - apply elem_of_map_to_list in Hin. specialize (Hupd k dv0 Hin).
    unfold SK.lease_current in *. by rewrite Hs.
Qed.

(** [updateDbValues] files every record under the shard id of its spec. *)
Lemma visit_keys (sk : SK.ShardKeeper) k dv (acc : SK.syncAcc (App := App)) :
  map_Forall (λ k' dv', SK.Id (SK.Spec dv') = k') (SK.updateDbValues acc) ->
  map_Forall (λ k' dv', SK.Id (SK.Spec dv') = k')
             (SK.updateDbValues (SK.visit sk k dv acc).1).
Proof.
  intros Hk. unfold SK.visit.
  assert (forall acc0 : SK.syncAcc (App := App),
            SK.updateDbValues (SK.dropFn dv acc0).1 = SK.updateDbValues acc0)
    as HdropFn.
  { intros acc0. unfold SK.dropFn. destruct (SK.app_Drop _ _) as [a' err].
    by case_bool_decide. }
  destruct (negb _ && negb _); [by rewrite HdropFn|].
  destruct (SK.Disp dv && SK.initialized sk); [done|].
  destruct (SK.Drop dv); [by rewrite HdropFn|].
  unfold SK.addFn. destruct (SK.app_Add _ _ _) as [a' err].
  case_bool_decide; simpl; [|done].
  by apply map_Forall_insert_2.
Qed.

Lemma foreach_keys (sk : SK.ShardKeeper)
    (kvs : list (string * SK.ShardKeeperDbValue)) :
  forall r : SK.syncAcc (App := App) * option error,
  map_Forall (λ k' dv', SK.Id (SK.Spec dv') = k') (SK.updateDbValues r.1) ->
  map_Forall (λ k' dv', SK.Id (SK.Spec dv') = k')
    (SK.updateDbValues
       (foldl (λ (r : SK.syncAcc * option error)
                 (kv : string * SK.ShardKeeperDbValue),
                 let '(a', e') := SK.visit sk kv.1 kv.2 r.1 in
                 (a', match r.2 with Some e => Some e | None => e' end))
              r kvs).1).
Proof.
  induction kvs as [|[k dv] kvs IH]; intros r Hk; simpl; [done|].
  pose proof (visit_keys sk k dv r.1 Hk) as Hv.
  destruct (SK.visit sk k dv r.1) as [a' e']. by apply IH.
Qed.

Lemma remove_all_keyed (ids : list string) :
  forall w : SK.World (St := SK.Log) (App := App),
  SK.log_keyed (SK.storage w) ->
  SK.log_keyed (SK.storage (SK.remove_all ids w).1).
Proof.
  induction ids as [|id ids IH]; intros w Hk; simpl; [done|].
  unfold SK.on_storage. simpl. unfold SK.log_Remove, SK.log_write.
  destruct (SK.faults (SK.storage w) (SK.OpRemove id)) as [e|]; simpl;
    [done|].
  apply IH. simpl. unfold SK.log_keyed. simpl. by apply map_Forall_delete.
Qed.

Lemma put_all_keyed (kvs : list (string * SK.ShardKeeperDbValue)) :
  forall w : SK.World (St := SK.Log) (App := App),
  Forall (λ kv, SK.Id (SK.Spec kv.2) = kv.1) kvs ->
  SK.log_keyed (SK.storage w) ->
  SK.log_keyed (SK.storage (SK.put_all kvs w).1).
Proof.
  induction kvs as [|[id dv] kvs IH]; intros w Hkvs Hk; simpl; [done|].
  inversion Hkvs as [|? ? Hhd Htl]; subst. simpl in Hhd.
  unfold SK.on_storage. simpl. unfold SK.log_Put, SK.log_write.
  destruct (SK.faults (SK.storage w) (SK.OpPut id)) as [e|]; simpl; [done|].
  apply IH; [done|]. unfold SK.log_keyed. simpl.
  by apply map_Forall_insert_2.
Qed.

(** However the tick ends, it leaves the records filed under their shard
    ids. *)
Lemma sync_keeps_log_keyed (sk : SK.ShardKeeper)
    (w : SK.World (St := SK.Log) (App := App)) :
  SK.log_keyed (SK.storage w) ->
  SK.log_keyed (SK.storage (SK.sync sk w).1.2).
Proof.
  intros Hk. unfold SK.sync. simpl. unfold SK.log_ForEach.
  set (acc0 := SK.mkAcc (SK.app w) (SK.calls w ++ [SK.CForEach]) [] ∅).
  pose proof (foreach_keys sk (map_to_list (SK.recs (SK.storage w)))
                (acc0, None) (map_Forall_empty _)) as Hupd.
  destruct (foldl _ (acc0, None) _) as [acc e0]. simpl in *.
  set (w0 := SK.mkWorld _ _ _ _ _).
  pose proof (remove_all_keyed (SK.dropShardIDs acc) w0 Hk) as Hrm.
  destruct (SK.remove_all _ w0) as [w1 [e1|]]; simpl in *; [done|].
  pose proof (put_all_keyed (map_to_list (SK.updateDbValues acc)) w1) as Hput.
  destruct (SK.put_all _ w1) as [w2 [e2|]]; simpl in *; apply Hput; try done.
  all: apply Forall_forall; intros [k dv] Hin%elem_of_map_to_list;
    by apply Hupd.
Qed.

(** [storage.Add] files the new record under the shard id of the spec. *)
Lemma log_Add_keyed (spec : SK.ShardSpec) (l : SK.Log) :
  SK.log_keyed l -> SK.log_keyed (SK.log_Add spec l).1.
Proof.
  intros Hk. unfold SK.log_Add, SK.log_write.
  destruct (SK.faults l _); simpl; [done|].
  by apply map_Forall_insert_2.
Qed.

Lemma log_Drop_keyed (ids : list string) (l : SK.Log) :
  SK.log_keyed l -> SK.log_keyed (SK.log_Drop ids l).1.
Proof.
  intros Hk. unfold SK.log_Drop, SK.log_write.
  destruct (SK.faults l _); simpl; [done|]. unfold SK.log_keyed. simpl.
  induction ids as [|id ids IH]; simpl; [done|].
  destruct (foldr _ (SK.recs l) ids !! id) as [dv|] eqn:Hl; [|done].
  apply map_Forall_insert_2; [|done]. simpl. by apply (IH id dv).
Qed.

Lemma log_MigrateLease_keyed (from to : Z) (l : SK.Log) :
  SK.log_keyed l -> SK.log_keyed (SK.log_MigrateLease from to l).1.
Proof.
  intros Hk. unfold SK.log_MigrateLease, SK.log_write.
  destruct (SK.faults l _); simpl; [done|]. unfold SK.log_keyed. simpl.
  apply map_Forall_fmap. intros k dv Hl. simpl.
  specialize (Hk k dv Hl). simpl in Hk. by case_bool_decide.
Qed.

Lemma log_DropByLease_keyed (exclude : bool) (id : Z) (l : SK.Log) :
  SK.log_keyed l -> SK.log_keyed (SK.log_DropByLease exclude id l).1.
Proof.
  intros Hk. unfold SK.log_DropByLease, SK.log_write.
  destruct (SK.faults l _); simpl; [done|]. unfold SK.log_keyed. simpl.
  apply map_Forall_fmap. intros k dv Hl. simpl.
  specialize (Hk k dv Hl). simpl in Hk. by destruct (xorb _ _).
Qed.

Lemma log_Reset_keyed (l : SK.Log) :
  SK.log_keyed l -> SK.log_keyed (SK.log_Reset l).1.
Proof.
  intros Hk. unfold SK.log_Reset, SK.log_write.
  destruct (SK.faults l _); simpl; [done|]. unfold SK.log_keyed. simpl.
  apply map_Forall_fmap. intros k dv Hl. simpl. exact (Hk k dv Hl).
Qed.

(** The handlers of the keeper leave the records filed under their shard
    ids as well. *)
Lemma handlers_keep_log_keyed (Lease_String : SK.Lease -> string)
    (ev : SK.Event) (lease_ : SK.ShardLease) (id : string)
    (spec : SK.ShardSpec) (sk : SK.ShardKeeper)
    (w : SK.World (St := SK.Log) (App := App)) :
  SK.log_keyed (SK.storage w) ->
  SK.log_keyed
    (SK.storage (SK.acquireBridgeLease ev lease_ sk w).1.2) /\
  SK.log_keyed
    (SK.storage (SK.acquireGuardLease Lease_String ev lease_ sk w).1.2) /\
  SK.log_keyed (SK.storage (SK.Add id spec sk w).1) /\
  SK.log_keyed (SK.storage (SK.Drop_ id sk w).1).
Proof.
  intros Hk. repeat split.
  - unfold SK.acquireBridgeLease, SK.on_storage. simpl.
    destruct (SK.IsModify ev); [done|]. case_bool_decide.
    { pose proof (log_DropByLease_keyed false (SK.ID (SK.lease lease_)) _ Hk).
      by destruct (SK.log_DropByLease _ _ _). }
    pose proof (log_Drop_keyed (SK.Drops (SK.assignment lease_)) _ Hk) as H1.
    destruct (SK.log_Drop _ _) as [l1 [e1|]]; simpl in *; [done|].
    pose proof (log_MigrateLease_keyed (SK.GuardLeaseID lease_)
                  (SK.ID (SK.lease lease_)) _ H1) as H2.
    by destruct (SK.log_MigrateLease _ _ l1) as [l2 [e2|]].
  - unfold SK.acquireGuardLease. destruct (SK.IsCreate ev); [done|].
    destruct (SK.EqualTo _ _); [done|]. destruct (_ && _); [done|].
    unfold SK.acquireGuardLease_body, SK.on_storage. simpl.
    pose proof (log_MigrateLease_keyed (SK.ID (SK.bridgeLease sk))
                  (SK.ID (SK.lease lease_)) _ Hk) as H1.
    destruct (SK.log_MigrateLease _ _ _) as [l1 [e1|]]; simpl in *; [done|].
    pose proof (log_DropByLease_keyed true (SK.ID (SK.lease lease_)) _ H1)
      as H2.
    by destruct (SK.log_DropByLease _ _ l1) as [l2 [e2|]].
  - unfold SK.Add, SK.on_storage. destruct (negb _); [done|]. simpl.
    pose proof (log_Add_keyed spec _ Hk).
    by destruct (SK.log_Add spec _).
  - unfold SK.Drop_, SK.on_storage. simpl.
    pose proof (log_Drop_keyed [id] _ Hk).
    by destruct (SK.log_Drop _ _).
Qed.

End Sync.

End SyncFacts.

(** ** The properties on a running round *)

Module Round.
Import Go.

(** C1 as stated fails: a guard modify event naming bridge lease 9 while
    the keeper holds bridge lease 7 is rejected, and the bridge lease held
    is still 7 when the call returns. *)
Lemma acquireGuardLease_mismatch_keeps_bridge :
  SK.IsCreate SK.guard_modify = false /\
  SK.EqualTo
    (SK.bridgeLease
       (SK.acquireGuardLease SK.lease_text SK.guard_modify
          SK.guard_value_other_round SK.round_keeper SK.round_world).1.1)
    SK.NoLease = false.
Proof. split; vm_compute; reflexivity. Qed.

Lemma acquireGuardLease_clears_bridge_witness :
  SK.IsCreate SK.guard_modify = false /\
  (~ SK.bridge_mismatch SK.guard_value SK.round_keeper ->
   SK.EqualTo
     (SK.bridgeLease
        (SK.acquireGuardLease SK.lease_text SK.guard_modify SK.guard_value
           SK.round_keeper SK.round_world).1.1)
     SK.NoLease = true).
Proof.
  split; [reflexivity|].
  exact (proj1 (SKFacts.acquireGuardLease_clears_bridge SK.lease_text
                  SK.guard_modify SK.guard_value SK.round_keeper
                  SK.round_world eq_refl)).
Defined.

Lemma acquireGuardLease_ignores_Put_failure_witness :
  let w := SK.with_put_err SK.round_world (Some SK.put_refused) in
  let r := SK.acquireGuardLease SK.lease_text SK.guard_modify SK.guard_value
             SK.round_keeper w in
  SK.etcd_put_err w = Some SK.put_refused /\
  r.2 = None /\ SK.guardLease r.1.1 = SK.G1 /\
  SK.bridgeLease r.1.1 = SK.NoLease /\ SK.etcd r.1.2 = ∅.
Proof.
  pose proof (SKFacts.acquireGuardLease_ignores_Put_failure SK.lease_text
                SK.guard_modify SK.guard_value SK.round_keeper
                (SK.with_put_err SK.round_world (Some SK.put_refused))
                SK.put_refused
                (SK.log_MigrateLease 7 11 SK.round_log).1
                (SK.log_DropByLease true 11
                   (SK.log_MigrateLease 7 11 SK.round_log).1).1
                eq_refl eq_refl eq_refl (λ _, eq_refl) eq_refl eq_refl)
    as (H1 & H2 & H3 & _ & H5 & _).
  split; [reflexivity|]. split; [exact H1|]. split; [exact H2|].
  split; [exact H3|exact H5].
Defined.

Lemma Add_checks_guard_lease_witness :
  SK.Add "s4" (SK.mkSpec "s4" "svc" "" SK.B1 0) SK.round_keeper SK.round_world
    = (SK.round_world, Some (ErrNew "lease mismatch")) /\
  SK.calls (SK.Add "s4" (SK.mkSpec "s4" "svc" "" SK.G0 0) SK.round_keeper
              SK.round_world).1
    = [SK.CAdd (SK.mkSpec "s4" "svc" "" SK.G0 0)].
Proof.
  split.
  - apply (proj1 (SKFacts.Add_checks_guard_lease "s4"
                    (SK.mkSpec "s4" "svc" "" SK.B1 0) SK.round_keeper
                    SK.round_world)).
    simpl. lia.
  - apply (proj2 (SKFacts.Add_checks_guard_lease "s4"
                    (SK.mkSpec "s4" "svc" "" SK.G0 0) SK.round_keeper
                    SK.round_world)).
    reflexivity.
Defined.

Lemma round_log_keyed : SK.log_keyed SK.round_log.
Proof.
  unfold SK.log_keyed, SK.round_log. simpl.
  repeat (apply map_Forall_insert_2; [reflexivity|]).
  apply map_Forall_empty.
Defined.

Lemma gset_drop_accepted (dv : SK.ShardKeeperDbValue) :
  SK.drop_accepted (App := gset string) dv.
Proof.
  intros a. simpl. destruct (bool_decide _); simpl; [by left|by right].
Defined.

Lemma sync_leaves_current_leases_witness :
  (SK.sync SK.round_keeper SK.round_world).2 = None /\
  forall k dv,
    SK.recs (SK.storage (SK.sync SK.round_keeper SK.round_world).1.2) !! k
      = Some dv ->
    SK.lease_current SK.round_keeper dv.
Proof.
  assert ((SK.sync SK.round_keeper SK.round_world).2 = None) as Hdone
    by (vm_compute; reflexivity).
  split; [exact Hdone|].
  exact (proj2 (proj2 (SyncFacts.sync_leaves_current_leases SK.round_keeper
                         SK.round_world round_log_keyed
                         (λ _ dv _, gset_drop_accepted dv) Hdone))).
Defined.

(** On the round above the tick drops the shard left on the stale lease
    and keeps the two on the bridge lease. *)
Example sync_round :
  dom (SK.recs (SK.storage (SK.sync SK.round_keeper SK.round_world).1.2))
  = ({["s1"]} ∪ {["s2"]} : gset string) /\
  SK.app (SK.sync SK.round_keeper SK.round_world).1.2
  = ({["s1"]} ∪ {["s2"]} : gset string).
Proof. split; apply (bool_decide_unpack _); vm_compute; exact I. Qed.

(** The rebalance round of the design: after bridge create (dropping
    s3), guard modify and one tick, s3 has left the application and the
    log, s1 and s2 carry the new guard lease, the session key is bound to
    it and the bridge lease is NoLease again. *)
Example rebalance_round :
  SK.app SK.run_round.2 = ({["s1"]} ∪ {["s2"]} : gset string) /\
  SK.recs (SK.storage SK.run_round.2) !! "s3"%string = None /\
  SK.recs (SK.storage SK.run_round.2) !! "s1"%string
    = Some (SK.shard "s1" SK.G1) /\
  SK.recs (SK.storage SK.run_round.2) !! "s2"%string
    = Some (SK.shard "s2" SK.G1) /\
  SK.etcd SK.run_round.2 !! "lease/session/svc/c1"%string
    = Some ("lease"%string, 11) /\
  SK.bridgeLease SK.run_round.1 = SK.NoLease /\
  SK.guardLease SK.run_round.1 = SK.G1.
Proof.
  split; [apply (bool_decide_unpack _); vm_compute; exact I|].
  repeat split; vm_compute; reflexivity.
Qed.

End Round.

(** ** More on the priority queue: indices, contents, panics, order *)

Module PQMore.
Import PQ PQFacts.

Lemma Swap_indexed (h h' : list Item) i j :
  Swap h i j = Some h' -> indexed h -> indexed h'.
Proof.
  unfold Swap. case_decide; [by intros [= ->]|].
  destruct (at_ h i) as [a|] eqn:Ha; [|done].
  destruct (at_ h j) as [b|] eqn:Hb; [|done]. simpl.
  intros [= <-] Hidx k it. unfold at_. case_decide as Hk; [|done].
  rewrite !list_lookup_insert, !length_insert.
  case_decide as Hj.
  { intros [= <-]. simpl. destruct Hj as [Hj _].
    apply at_range in Hb. lia. }
  case_decide as Hi.
  { intros [= <-]. simpl. destruct Hi as [Hi _].
    apply at_range in Ha. lia. }
  intros Hl. apply Hidx. unfold at_. by rewrite decide_True.
Qed.

Lemma up_loop_indexed fuel : forall (h h' : list Item) j,
  up_loop fuel h j = Some h' -> indexed h -> indexed h'.
Proof.
  induction fuel as [|fuel IH]; intros h h' j; simpl; [done|].
  case_decide; [by intros [= ->]|].
  destruct (Less h j _) as [lt|]; [|done]. simpl.
  destruct lt; simpl; [|by intros [= ->]].
  destruct (Swap h _ j) as [h1|] eqn:Hs; [|done]. simpl.
  intros Hup Hidx. eapply IH; [done|]. by eapply Swap_indexed.
Qed.

Lemma down_loop_indexed fuel : forall (h h' : list Item) i n i',
  down_loop fuel h i n = Some (h', i') -> indexed h -> indexed h'.
Proof.
  induction fuel as [|fuel IH]; intros h h' i n i'; simpl; [done|].
  case_decide; [by intros [= -> _]|].
  destruct (if decide (2 * i + 1 + 1 < n) then _ else _) as [rf|]; [|done].
  simpl. destruct (Less h _ i) as [lt|]; [|done]. simpl.
  destruct lt; simpl; [|by intros [= -> _]].
  destruct (Swap h i _) as [h1|] eqn:Hs; [|done]. simpl.
  intros Hd Hidx. eapply IH; [done|]. by eapply Swap_indexed.
Qed.

Lemma heap_Push_indexed (h h' : list Item) x :
  heap_Push h x = Some h' -> indexed h -> indexed h'.
Proof.
  unfold heap_Push, up. intros Hup Hidx.
  eapply up_loop_indexed; [done|].
  intros k it. unfold at_, Push. case_decide as Hk; [|done].
  intros [[Hlt Hl]|[Heq <-]]%lookup_snoc_Some.
  - apply Hidx. unfold at_. by rewrite decide_True.
  - simpl. unfold Len. lia.
Qed.

Lemma heap_Pop_indexed (h h' : list Item) r :
  heap_Pop h = Some (r, h') -> indexed h ->
  indexed h' /\ forall it, r = Some it -> Index it = -1.
Proof.
  unfold heap_Pop, down. intros Hpop Hidx.
  destruct (Swap h 0 _) as [h1|] eqn:Hs; [|done]. cbn -[down_loop] in Hpop.
  destruct (down_loop _ h1 0 _) as [[h2 i2]|] eqn:Hd; [|done].
  cbn -[down_loop] in Hpop.
  assert (indexed h2) as Hidx2.
  { eapply down_loop_indexed; [done|]. by eapply Swap_indexed. }
  unfold Pop in Hpop. case_decide; [by inversion Hpop; subst|].
  destruct (at_ h2 _) as [last|]; [|by inversion Hpop; subst].
  inversion Hpop; subst. split; [|by intros it [= <-]].
  intros k it. unfold at_. case_decide as Hk; [|done].
  intros [Hl Hlt]%lookup_take_Some. apply Hidx2. unfold at_.
  by rewrite decide_True.
Qed.

(** After any run of [heap.Push] and [heap.Pop] from the empty queue,
    every item of the array carries its own position in [Index], and an
    item handed out by [heap.Pop] carries index -1. *)
Theorem run_keeps_index (ops : list op) :
  exists h, run ops [] = Some h /\ indexed h /\
    forall it h', heap_Pop h = Some (Some it, h') ->
      Index it = -1 /\ indexed h'.
Proof.
  destruct (run_heap ops []) as (h & Hrun & _).
  { intros k Hk. unfold Len in Hk. simpl in Hk. lia. }
  exists h. split; [done|].
  assert (forall ops (h0 h1 : list Item),
            run ops h0 = Some h1 -> indexed h0 -> indexed h1) as Hind.
  { clear. induction ops as [|o ops IH]; intros h0 h1; simpl.
    - by intros [= ->].
    - destruct (step h0 o) as [h'|] eqn:Hst; [|done]. simpl.
      intros Hr Hidx. eapply IH; [done|]. destruct o as [x|]; simpl in Hst.
      + by eapply heap_Push_indexed.
      + destruct (heap_Pop h0) as [[r h'']|] eqn:Hp; [|done].
        simpl in Hst. inversion Hst; subst.
        by destruct (heap_Pop_indexed _ _ _ Hp Hidx). }
  assert (indexed h) as Hidx.
  { eapply Hind; [done|]. intros k it. unfold at_. case_decide; [|done].
    by rewrite lookup_nil. }
  split; [done|]. intros it h' Hp.
  destruct (heap_Pop_indexed _ _ _ Hp Hidx) as [H1 H2]. split; [|done].
  by apply H2.
Qed.

Lemma insert_back_Permutation {A} (l : list A) j x c :
  l !! j = Some x -> x :: <[j := c]> l ≡ₚ c :: l.
Proof.
  revert j. induction l as [|y l IH]; intros [|j] Hl; simplify_eq/=.
  - apply perm_swap.
  - rewrite perm_swap. rewrite (IH j Hl). apply perm_swap.
Qed.

Lemma exchange_Permutation {A} (l : list A) : forall i j a b,
  l !! i = Some a -> l !! j = Some b ->
  <[j := a]> (<[i := b]> l) ≡ₚ l.
Proof.
  induction l as [|c l IH]; intros [|i] [|j] a b Hi Hj; simplify_eq/=.
  - done.
  - by apply insert_back_Permutation.
  - by apply insert_back_Permutation.
  - f_equiv. by apply IH.
Qed.

Lemma Swap_content (h h' : list Item) i j :
  Swap h i j = Some h' -> content <$> h' ≡ₚ content <$> h.
Proof.
  unfold Swap. case_decide; [by intros [= ->]|].
  destruct (at_ h i) as [a|] eqn:Ha; [|done].
  destruct (at_ h j) as [b|] eqn:Hb; [|done]. simpl.
  intros [= <-]. rewrite !list_fmap_insert.
  change (content (setIndex a j)) with (content a).
  change (content (setIndex b i)) with (content b).
  unfold at_ in Ha, Hb. case_decide; [|done]. case_decide; [|done].
  apply exchange_Permutation; by rewrite list_lookup_fmap, ?Ha, ?Hb.
Qed.

Lemma up_loop_content fuel : forall (h h' : list Item) j,
  up_loop fuel h j = Some h' -> content <$> h' ≡ₚ content <$> h.
Proof.
  induction fuel as [|fuel IH]; intros h h' j; simpl; [done|].
  case_decide; [by intros [= ->]|].
  destruct (Less h j _) as [lt|]; [|done]. simpl.
  destruct lt; simpl; [|by intros [= ->]].
  destruct (Swap h _ j) as [h1|] eqn:Hs; [|done]. simpl.
  intros Hup%IH. rewrite Hup. by eapply Swap_content.
Qed.

Lemma down_loop_content fuel : forall (h h' : list Item) i n i',
  down_loop fuel h i n = Some (h', i') -> content <$> h' ≡ₚ content <$> h.
Proof.
  induction fuel as [|fuel IH]; intros h h' i n i'; simpl; [done|].
  case_decide; [by intros [= -> _]|].
  destruct (if decide (2 * i + 1 + 1 < n) then _ else _) as [rf|]; [|done].
  simpl. destruct (Less h _ i) as [lt|]; [|done]. simpl.
  destruct lt; simpl; [|by intros [= -> _]].
  destruct (Swap h i _) as [h1|] eqn:Hs; [|done]. simpl.
  intros Hd%IH. rewrite Hd. by eapply Swap_content.
Qed.

Lemma heap_Push_content (h h' : list Item) x :
  heap_Push h x = Some h' -> content <$> h' ≡ₚ content x :: (content <$> h).
Proof.
  unfold heap_Push, up. intros Hup%up_loop_content. rewrite Hup.
  unfold Push. rewrite fmap_app. simpl.
  change (content (setIndex x (Len h))) with (content x).
  symmetry. apply Permutation_cons_append.
Qed.

Lemma heap_Pop_content (h h' : list Item) it :
  heap_Pop h = Some (Some it, h') ->
  content <$> h ≡ₚ content it :: (content <$> h').
Proof.
  unfold heap_Pop, down. intros Hpop.
  destruct (Swap h 0 _) as [h1|] eqn:Hs; [|done]. cbn -[down_loop] in Hpop.
  destruct (down_loop _ h1 0 _) as [[h2 i2]|] eqn:Hd; [|done].
  cbn -[down_loop] in Hpop.
  apply Swap_content in Hs. apply down_loop_content in Hd.
  rewrite <- Hs, <- Hd. clear Hs Hd.
  unfold Pop in Hpop. case_decide as Hn; [done|].
  destruct (at_ h2 _) as [last|] eqn:Hlast; [|done].
  inversion Hpop; subst. clear Hpop.
  change (content (setIndex last (-1))) with (content last).
  unfold at_ in Hlast. case_decide; [|done].
  rewrite <- (take_drop (Z.to_nat (Len h2 - 1)) h2) at 1.
  rewrite fmap_app, Permutation_cons_append. f_equiv.
  assert (drop (Z.to_nat (Len h2 - 1)) h2 = [last]) as ->; [|done].
  apply list_eq. intros k. rewrite lookup_drop. destruct k as [|k]; simpl.
  - by rewrite Nat.add_0_r.
  - apply lookup_ge_None. unfold Len. lia.
Qed.

(** [heap.Push] and [heap.Pop] neither lose nor duplicate what the queue
    holds: a push adds exactly the pushed value and priority, a pop takes
    out exactly those of the item it returns. *)
Theorem heap_ops_keep_content :
  forall ops : list op,
  exists h, run ops [] = Some h /\
    (forall x, exists h', heap_Push h x = Some h' /\
       content <$> h' ≡ₚ content x :: (content <$> h)) /\
    (h <> [] -> exists it h', heap_Pop h = Some (Some it, h') /\
       content <$> h ≡ₚ content it :: (content <$> h')).
Proof.
  intros ops. destruct (run_heap ops []) as (h & Hrun & Hh).
  { intros k Hk. unfold Len in Hk. simpl in Hk. lia. }
  exists h. split; [done|]. split.
  - intros x. destruct (heap_Push_heap h x Hh) as (h' & Hp & _).
    exists h'. split; [done|]. by apply heap_Push_content.
  - intros Hne. assert (0 < Len h) as Hpos.
    { destruct h; [done|]. unfold Len. simpl. lia. }
    destruct (heap_Pop_heap h Hh Hpos) as (it & h' & Hp & _).
    exists it, h'. split; [done|]. by apply heap_Pop_content.
Qed.

Lemma up_loop_total fuel : forall (h : list Item) j,
  0 <= j < Len h -> (Z.to_nat j < fuel)%nat ->
  exists h', up_loop fuel h j = Some h'.
Proof.
  induction fuel as [|fuel IH]; intros h j Hj Hf; [lia|]. simpl.
  case_decide as Hq; [eauto|].
  assert (0 < j) by lia.
  assert (0 <= Z.quot (j - 1) 2 < j) as Hi by lia.
  rewrite Less_spec by lia. simpl. destruct (bool_decide _); simpl; [|eauto].
  destruct (Swap_spec h (Z.quot (j - 1) 2) j) as (h' & -> & Hlen & _);
    [lia..|]. simpl.
  apply IH; lia.
Qed.

Lemma down_loop_total fuel : forall (h : list Item) i n,
  0 <= i -> n <= Len h -> (Z.to_nat (n - i) < fuel)%nat ->
  exists r, down_loop fuel h i n = Some r.
Proof.
  induction fuel as [|fuel IH]; intros h i n Hi Hn Hf; [lia|]. simpl.
  case_decide as Hbr; [eauto|].
  assert (exists (j : Z) (rf : bool),
            (if decide (2 * i + 1 + 1 < n)
             then Less h (2 * i + 1 + 1) (2 * i + 1) else Some false)
            = Some rf /\
            j = (if rf then 2 * i + 1 + 1 else 2 * i + 1) /\ i < j < n)
    as (j & rf & -> & Hj & Hjr).
  { case_decide.
    - rewrite Less_spec by lia. eexists _, _. split; [done|]. split; [done|].
      destruct (bool_decide _); lia.
    - eexists _, false. split; [done|]. split; [done|]. lia. }
  simpl. rewrite <- Hj. rewrite Less_spec by lia. simpl.
  destruct (bool_decide _); simpl; [|eauto].
  destruct (Swap_spec h i j) as (h' & -> & Hlen & _); [lia..|]. simpl.
  apply IH; lia.
Qed.

Lemma heap_ops_never_panic_holds (h : list Item) (x : Item) :
  (exists h', heap_Push h x = Some h' /\ length h' = S (length h)) /\
  (exists r h', heap_Pop h = Some (r, h') /\
     match h with
     | [] => r = None /\ h' = []
     | _ :: _ => is_Some r /\ S (length h') = length h
     end).
Proof.
  split.
  - unfold heap_Push, up. pose proof (Len_Push h x) as HL.
    assert (0 <= Len h) by (unfold Len; lia).
    destruct (up_loop_total (S (Z.to_nat (Len (Push h x) - 1))) (Push h x)
                (Len (Push h x) - 1)) as [h' Hup]; [lia..|].
    exists h'. split; [done|].
    apply up_loop_content, Permutation_length in Hup.
    rewrite !length_fmap in Hup. rewrite Hup. unfold Push.
    rewrite length_app. simpl. lia.
  - destruct h as [|y h]; [by exists None, []|].
    set (h0 := y :: h).
    assert (0 < Len h0) as Hpos by (unfold Len, h0; simpl; lia).
    unfold heap_Pop, down.
    destruct (Swap_spec h0 0 (Len h0 - 1)) as (h1 & Hs & Hlen1 & _); [lia..|].
    rewrite Hs. cbn -[down_loop].
    destruct (down_loop_total (S (Z.to_nat (Len h0 - 1))) h1 0 (Len h0 - 1))
      as [[h2 i2] Hd]; [lia..|].
    rewrite Hd. cbn -[down_loop].
    apply down_loop_length in Hd.
    assert (Len h2 = Len h0) as Hlen2 by (unfold Len in *; lia).
    unfold Pop. rewrite decide_False by lia.
    destruct (at_Some h2 (Len h2 - 1)) as [last ->]; [lia|].
    eexists _, _. split; [done|]. split; [by eexists|].
    rewrite length_take. unfold Len in *. simpl in *. lia.
Qed.

(** Whatever the array holds, in heap order or not, [heap.Push] and
    [heap.Pop] run to their end without an index panic: a push leaves one
    item more, a pop on a non-empty array returns an item and leaves one
    less, a pop on the empty array returns nil and leaves it empty. *)
Theorem heap_ops_never_panic (h : list Item) (x : Item) :
  (exists h', heap_Push h x = Some h' /\ length h' = S (length h)) /\
  (exists r h', heap_Pop h = Some (r, h') /\
     match h with
     | [] => r = None /\ h' = []
     | _ :: _ => is_Some r /\ S (length h') = length h
     end).
Proof. exact (heap_ops_never_panic_holds h x). Qed.

Lemma heap_root_max_elem (h : list Item) x :
  heap_upto h (Len h) -> x ∈ h -> Priority x <= prio h 0.
Proof.
  intros Hh [n Hn]%list_elem_of_lookup_1.
  pose proof (lookup_lt_Some _ _ _ Hn) as Hlt.
  assert (at_ h (Z.of_nat n) = Some x) as Hat.
  { unfold at_. rewrite decide_True by lia. by rewrite Nat2Z.id. }
  pose proof (heap_root_max h Hh (Z.of_nat n)) as Hmax.
  rewrite (prio_at _ _ _ Hat) in Hmax. unfold Len in Hmax. lia.
Qed.

Lemma drain_heap (n : nat) : forall h : list Item,
  length h = n -> heap_upto h (Len h) ->
  exists out, drain n h = Some out /\
    content <$> out ≡ₚ content <$> h /\
    descending (Priority <$> out).
Proof.
  induction n as [|n IH]; intros h Hlen Hh; simpl.
  { destruct h; [|done]. by exists []. }
  assert (0 < Len h) as Hpos by (unfold Len; lia).
  destruct (heap_Pop_heap h Hh Hpos) as (it & h' & Hpop & Hprio & Hlen' & Hh').
  rewrite Hpop. simpl.
  destruct (IH h') as (rest & -> & Hperm & Hdesc); [unfold Len in *; lia|done|].
  simpl. exists (it :: rest). split; [done|].
  pose proof (heap_Pop_content _ _ _ Hpop) as Hc. split.
  { simpl. by rewrite Hperm, Hc. }
  simpl. split; [|done]. apply Forall_forall. intros y Hy.
  apply list_elem_of_fmap in Hy as (b & -> & Hb).
  assert (content b ∈ content <$> h) as Hin.
  { rewrite Hc. right. rewrite <- Hperm. by apply list_elem_of_fmap_2. }
  apply list_elem_of_fmap in Hin as (x & Hx & Hxin).
  pose proof (heap_root_max_elem h x Hh Hxin) as Hmax.
  inversion Hx as [[Hv Hp]]. lia.
Qed.

(** Popping a queue in heap order until it is empty hands out every item
    it held, each once, in an order in which no priority is larger than
    one handed out before it. *)
Theorem drain_descending (ops : list op) :
  exists h out,
    run ops [] = Some h /\ drain (length h) h = Some out /\
    content <$> out ≡ₚ content <$> h /\
    descending (Priority <$> out).
Proof.
  destruct (run_heap ops []) as (h & Hrun & Hh).
  { intros k Hk. unfold Len in Hk. simpl in Hk. lia. }
  destruct (drain_heap (length h) h eq_refl Hh) as (out & Hd & Hp & Hs).
  by exists h, out.
Qed.

End PQMore.

(** ** More on the event queue of smserver *)

Module EQMore.
Import Go.

Lemma newEventQueue_eq parent :
  EQ.newEventQueue parent = Some (EQ.mkEQ parent [] (mkMutex false []) ∅ ∅ []).
Proof. reflexivity. Qed.

Lemma push_body_steps unmarshal now item checkDup eq :
  EQ.push_body unmarshal now item checkDup eq =
  match unmarshal (PQ.Value item) with
  | None => (eq, Returned)
  | Some ev =>
      if checkDup && bool_decide (EQ.Service ev ∈ EQ.serviceBlk eq)
      then (eq, Returned)
      else EQ.route now item ev (EQ.ensure_chan ev (EQ.register checkDup ev eq))
  end.
Proof. reflexivity. Qed.

Lemma queue_ok_set_mu eq m : EQ.queue_ok eq -> EQ.queue_ok (EQ.set_mu eq m).
Proof. done. Qed.

Lemma register_ok checkDup ev eq :
  EQ.queue_ok eq -> EQ.queue_ok (EQ.register checkDup ev eq).
Proof. unfold EQ.register. by destruct checkDup. Qed.

Lemma ensure_chan_lookup ev eq s :
  EQ.serviceEvChan (EQ.ensure_chan ev eq) !! s =
  if decide (s = EQ.Service ev)
  then Some (default [] (EQ.serviceEvChan eq !! s))
  else EQ.serviceEvChan eq !! s.
Proof.
  unfold EQ.ensure_chan.
  destruct (EQ.serviceEvChan eq !! EQ.Service ev) as [ch|] eqn:Hch; simpl.
  - case_decide as Hs; [|done]. subst. by rewrite Hch.
  - case_decide as Hs.
    + subst. by rewrite lookup_insert_eq, Hch.
    + by rewrite lookup_insert_ne.
Qed.

Lemma ensure_chan_ok ev eq :
  EQ.queue_ok eq -> EQ.queue_ok (EQ.ensure_chan ev eq).
Proof.
  intros ((Hnd & Hm) & Hb & Hh & Hi). unfold EQ.ensure_chan.
  destruct (EQ.serviceEvChan eq !! EQ.Service ev) as [ch|] eqn:Hch; [done|].
  split; [|split; [|done]].
  - split; simpl.
    + apply NoDup_app. split; [done|]. split; [|apply NoDup_singleton].
      intros s Hs ->%list_elem_of_singleton.
      apply Hm in Hs. rewrite Hch in Hs. by destruct Hs.
    + intros s. rewrite elem_of_app, list_elem_of_singleton, Hm.
      rewrite lookup_insert_is_Some.
      destruct (decide (EQ.Service ev = s)) as [Heq|Hne];
        [split; intros _; [by left|by right]|].
      split; [intros [?|?]; [auto|by subst]|intros [?|[_ ?]]; [done|auto]].
  - unfold EQ.chans_bounded. simpl. apply map_Forall_insert_2; [|done].
    simpl. unfold EQ.defaultEventChanLength. lia.
Qed.

Lemma send_fields service ev eq :
  let eq' := (EQ.send service ev eq).1 in
  EQ.pq eq' = EQ.pq eq /\ EQ.mu eq' = EQ.mu eq /\
  EQ.serviceBlk eq' = EQ.serviceBlk eq /\ EQ.evLoops eq' = EQ.evLoops eq /\
  EQ.parent_service eq' = EQ.parent_service eq.
Proof. unfold EQ.send. by case_decide. Qed.

Lemma send_ok service ev eq :
  is_Some (EQ.serviceEvChan eq !! service) ->
  EQ.queue_ok eq -> EQ.queue_ok (EQ.send service ev eq).1.
Proof.
  intros Hch ((Hnd & Hm) & Hb & Hh & Hi). unfold EQ.send.
  case_decide as Hlen; [|done]. split; [|split; [|done]].
  - split; [done|]. simpl. intros s. rewrite Hm, lookup_insert_is_Some.
    destruct (decide (service = s)) as [<-|Hne];
      [split; intros _; [by left|done]|].
    split; [auto|intros [?|[_ ?]]; [done|auto]].
  - unfold EQ.chans_bounded. simpl. apply map_Forall_insert_2; [|done].
    simpl. rewrite length_app. simpl. lia.
Qed.

Lemma route_ok now item ev eq :
  is_Some (EQ.serviceEvChan eq !! EQ.Service ev) ->
  EQ.queue_ok eq -> EQ.queue_ok (EQ.route now item ev eq).1.
Proof.
  intros Hch Hok. unfold EQ.route.
  case_bool_decide; [by apply send_ok|].
  case_bool_decide; [|done].
  case_bool_decide; [by apply send_ok|].
  destruct Hok as (Hl & Hb & Hh & Hi).
  destruct (PQ.heap_Push (EQ.pq eq) item) as [h|] eqn:Hp; [|done].
  split; [done|]. split; [done|]. simpl. split.
  - apply PQFacts.heap_upto_is_heap in Hh.
    destruct (PQFacts.heap_Push_heap _ item Hh) as (h' & Hp' & _ & Hh').
    rewrite Hp in Hp'. inversion Hp'; subst.
    by apply PQFacts.heap_upto_is_heap.
  - by eapply PQMore.heap_Push_indexed.
Qed.

Lemma push_body_ok unmarshal now item checkDup eq :
  EQ.queue_ok eq ->
  EQ.queue_ok (EQ.push_body unmarshal now item checkDup eq).1.
Proof.
  intros Hok. rewrite push_body_steps.
  destruct (unmarshal _) as [ev|]; [|done].
  destruct (checkDup && _); [done|].
  apply route_ok.
  - rewrite ensure_chan_lookup. by rewrite decide_True.
  - by apply ensure_chan_ok, register_ok.
Qed.

Lemma push_ok unmarshal now item checkDup eq :
  EQ.queue_ok eq -> EQ.queue_ok (EQ.push unmarshal now item checkDup eq).1.
Proof.
  intros Hok. unfold EQ.push. destruct (Lock _) as [m|]; [|done].
  pose proof (push_body_ok unmarshal now item checkDup (EQ.set_mu eq m)
                (queue_ok_set_mu _ _ Hok)) as Hb.
  destruct (EQ.push_body _ _ _ _ _) as [eq1 e]. simpl in Hb.
  by destruct e.
Qed.

Lemma heap_Pop_ok (h h' : list PQ.Item) r :
  PQ.is_heap h -> PQ.indexed h -> PQ.heap_Pop h = Some (r, h') ->
  PQ.is_heap h' /\ PQ.indexed h' /\
  match r with
  | None => h = [] /\ h' = []
  | Some it => forall x, x ∈ h' -> PQ.Priority x <= PQ.Priority it
  end.
Proof.
  intros Hh Hi Hp. destruct (PQMore.heap_Pop_indexed _ _ _ Hp Hi) as [Hi' _].
  destruct (proj2 (PQMore.heap_ops_never_panic_holds h (PQ.mkItem "" 0 0)))
    as (r0 & h0 & Hp0 & Hcase).
  rewrite Hp in Hp0. inversion Hp0; subst r0 h0. clear Hp0.
  destruct h as [|y h].
  { destruct Hcase as [-> ->]. done. }
  destruct Hcase as [[it ->] _].
  apply PQFacts.heap_upto_is_heap in Hh.
  destruct (PQFacts.heap_Pop_heap (y :: h) Hh) as (it' & h'' & Hp' & Hprio & _ & Hh').
  { unfold PQ.Len. simpl. lia. }
  rewrite Hp in Hp'. inversion Hp'; subst it' h''.
  split; [by apply PQFacts.heap_upto_is_heap|]. split; [done|].
  intros x Hx. rewrite Hprio.
  pose proof (PQMore.heap_Pop_content _ _ _ Hp) as Hc.
  assert (PQ.content x ∈ PQ.content <$> (y :: h)) as Hin.
  { rewrite Hc. right. by apply list_elem_of_fmap_2. }
  apply list_elem_of_fmap in Hin as (x0 & Hx0 & Hin).
  pose proof (PQMore.heap_root_max_elem _ x0 Hh Hin) as Hmax.
  inversion Hx0 as [[Hv Hpr]]. lia.
Qed.

Lemma push_back_root (h h' : list PQ.Item) item now :
  PQ.is_heap h -> PQ.indexed h -> PQ.heap_Push h item = Some h' ->
  now < PQ.Priority item ->
  PQ.is_heap h' /\ PQ.indexed h' /\
  exists root, PQ.at_ h' 0 = Some root /\ now < PQ.Priority root.
Proof.
  intros Hh Hi Hp Hnow. apply PQFacts.heap_upto_is_heap in Hh.
  destruct (PQFacts.heap_Push_heap h item Hh) as (h0 & Hp0 & Hlen & Hh').
  rewrite Hp in Hp0. inversion Hp0; subst h0.
  split; [by apply PQFacts.heap_upto_is_heap|].
  split; [by eapply PQMore.heap_Push_indexed|].
  assert (0 <= PQ.Len h) by (unfold PQ.Len; lia).
  destruct (PQFacts.at_Some h' 0) as [root Hroot]; [lia|].
  exists root. split; [done|].
  pose proof (PQMore.heap_Push_content _ _ _ Hp) as Hc.
  assert (PQ.content item ∈ PQ.content <$> h') as Hin by (rewrite Hc; left).
  apply list_elem_of_fmap in Hin as (x & Hx & Hin).
  pose proof (PQMore.heap_root_max_elem _ x Hh' Hin) as Hmax.
  rewrite (PQFacts.prio_at _ _ _ Hroot) in Hmax.
  inversion Hx as [[Hv Hpr]]. lia.
Qed.

Lemma tick_loop_spec unmarshal now fuel : forall eq r,
  EQ.queue_ok eq ->
  EQ.tryPopAndPush_loop unmarshal fuel now eq = Some r ->
  EQ.queue_ok r.1 /\
  (r.2 = Returned ->
   EQ.pq r.1 = [] \/
   exists root, PQ.at_ (EQ.pq r.1) 0 = Some root /\ now < PQ.Priority root).
Proof.
  induction fuel as [|fuel IH]; intros eq r Hok; simpl; [done|].
  destruct Hok as (Hl & Hb & Hh & Hi).
  destruct (PQ.heap_Pop (EQ.pq eq)) as [[[item|] h]|] eqn:Hpop.
  - destruct (heap_Pop_ok _ _ _ Hh Hi Hpop) as (Hh' & Hi' & _).
    case_bool_decide as Hnow.
    + destruct (PQ.heap_Push h item) as [h'|] eqn:Hpush.
      * intros [= <-]. simpl.
        destruct (push_back_root _ _ _ _ Hh' Hi' Hpush Hnow)
          as (Hh2 & Hi2 & Hroot).
        split; [done|]. intros _. by right.
      * intros [= <-]. simpl. split; [done|]. done.
    + pose proof (push_ok unmarshal now item false (EQ.set_pq eq h)) as Hpk.
      destruct (EQ.push unmarshal now item false (EQ.set_pq eq h))
        as [eq2 e]. simpl in Hpk.
      assert (EQ.queue_ok eq2) as Hok2 by (by apply Hpk).
      destruct e; try (intros [= <-]; simpl; split; [done|done]).
      by apply IH.
  - destruct (heap_Pop_ok _ _ _ Hh Hi Hpop) as (Hh' & Hi' & _ & ->).
    intros [= <-]. simpl. split; [done|]. intros _. by left.
  - intros [= <-]. simpl. split; [done|]. done.
Qed.

(** The event queue keeps its shape: it starts, and after every [push],
    every tick and every evLoop iteration still is, a queue in which each
    service with a channel has exactly one evLoop, no channel holds more
    than 32 events, and the priority queue is in heap order with every
    item's [Index] at its position. *)
Theorem queue_ok_kept (unmarshal : string -> option EQ.mvEvent) :
  (forall parent, exists eq,
     EQ.newEventQueue parent = Some eq /\ EQ.queue_ok eq) /\
  (forall now item checkDup eq,
     EQ.queue_ok eq ->
     EQ.queue_ok (EQ.push unmarshal now item checkDup eq).1) /\
  (forall now eq,
     EQ.queue_ok eq ->
     exists r, EQ.tryPopAndPush unmarshal now eq = Some r /\
               EQ.queue_ok r.1) /\
  (forall (Store : Type) CompareAndSwap service (st : EQ.loopState Store),
     EQ.queue_ok (EQ.l_eq st) ->
     EQ.queue_ok (EQ.l_eq (EQ.evLoop_iter CompareAndSwap service st).1)).
Proof.
  split; [|split; [|split]].
  - intros parent. exists (EQ.mkEQ parent [] (mkMutex false []) ∅ ∅ []).
    split; [reflexivity|].
    split; [|split; [|split]].
    + split; [apply NoDup_nil_2|]. intros s. simpl.
      rewrite lookup_empty, elem_of_nil. split; [done|by intros [? ?]].
    + apply map_Forall_empty.
    + intros i c a b _ _ Ha. by destruct i.
    + intros k it Hk. simpl in Hk. unfold PQ.at_ in Hk.
      case_decide; [|done]. by rewrite lookup_nil in Hk.
  - intros. by apply push_ok.
  - intros now eq Hok.
    destruct (EQFacts.tryPopAndPush_total unmarshal now eq) as [r Hr].
    exists r. split; [done|]. by eapply tick_loop_spec.
  - intros Store CAS service st ((Hnd & Hm) & Hb & Hh & Hi).
    unfold EQ.evLoop_iter.
    destruct (EQ.serviceEvChan (EQ.l_eq st) !! service) as [[|ev rest]|]
      eqn:Hch; [done| |done].
    unfold EQ.evLoop_handle. simpl.
    destruct (CAS _ _ _ _ _) as [store' err].
    assert (EQ.queue_ok
              (EQ.set_chan (EQ.l_eq st)
                 (<[service := rest]> (EQ.serviceEvChan (EQ.l_eq st)))))
      as Hok.
    { split; [|split; [|done]].
      - split; [done|]. simpl. intros s. rewrite Hm, lookup_insert_is_Some.
        destruct (decide (service = s)) as [<-|Hne].
        + rewrite Hch. split; intros _; [by left|by eexists].
        + split; [auto|intros [?|[_ ?]]; [done|auto]].
      - unfold EQ.chans_bounded. simpl. apply map_Forall_insert_2; [|done].
        specialize (Hb _ _ Hch). simpl in *. lia. }
    destruct (Lock _) as [m|]; simpl; done.
Qed.

(** When a tick over such a queue returns normally, the priority queue is
    empty or its root, the item with the largest priority, is not yet
    due. *)
Theorem tryPopAndPush_stops_at_future_root
    (unmarshal : string -> option EQ.mvEvent) (now : Z)
    (eq eq' : EQ.eventQueue) :
  EQ.queue_ok eq ->
  EQ.tryPopAndPush unmarshal now eq = Some (eq', Returned) ->
  EQ.pq eq' = [] \/
  exists root, PQ.at_ (EQ.pq eq') 0 = Some root /\ now < PQ.Priority root.
Proof.
  intros Hok Hr. by apply (tick_loop_spec _ _ _ _ _ Hok Hr).
Qed.

Lemma push_accepted unmarshal now item checkDup eq ev :
  held (EQ.mu eq) = false ->
  EQ.accepted unmarshal item checkDup eq ev ->
  EQ.push unmarshal now item checkDup eq =
  let '(eq1, e) :=
    EQ.route now item ev
      (EQ.ensure_chan ev
         (EQ.register checkDup ev
            (EQ.set_mu eq (mkMutex true (ops (EQ.mu eq) ++ [MuLock]))))) in
  match e with
  | Returned | Panicked _ =>
      let '(m', ok) := Unlock (EQ.mu eq1) in
      (EQ.set_mu eq1 m', if ok then e else Fatal unlock_of_unlocked)
  | _ => (eq1, e)
  end.
Proof.
  intros Hfree [Hdec Hnew]. unfold EQ.push, Lock. rewrite Hfree.
  rewrite push_body_steps, Hdec.
  assert (checkDup && bool_decide (EQ.Service ev ∈ EQ.serviceBlk
            (EQ.set_mu eq (mkMutex true (ops (EQ.mu eq) ++ [MuLock]))))
          = false) as ->; [|done].
  destruct checkDup; [|done]. simpl. apply bool_decide_eq_false_2.
  by apply Hnew.
Qed.

Lemma prepared_fields checkDup ev eq :
  let eq2 := EQ.ensure_chan ev (EQ.register checkDup ev eq) in
  EQ.pq eq2 = EQ.pq eq /\ EQ.mu eq2 = EQ.mu eq /\
  EQ.serviceBlk eq2 =
    (if checkDup then {[EQ.Service ev]} ∪ EQ.serviceBlk eq
     else EQ.serviceBlk eq) /\
  (forall s, EQ.serviceEvChan eq2 !! s =
     if decide (s = EQ.Service ev)
     then Some (default [] (EQ.serviceEvChan eq !! s))
     else EQ.serviceEvChan eq !! s) /\
  EQ.evLoops eq2 =
    match EQ.serviceEvChan eq !! EQ.Service ev with
    | Some _ => EQ.evLoops eq
    | None => EQ.evLoops eq ++ [EQ.Service ev]
    end.
Proof.
  simpl.
  assert (EQ.serviceEvChan (EQ.register checkDup ev eq) = EQ.serviceEvChan eq)
    as Hch by (unfold EQ.register; by destruct checkDup).
  split; [|split; [|split; [|split]]].
  - unfold EQ.ensure_chan. rewrite Hch.
    destruct (EQ.serviceEvChan eq !! _); unfold EQ.register;
      by destruct checkDup.
  - unfold EQ.ensure_chan. rewrite Hch.
    destruct (EQ.serviceEvChan eq !! _); unfold EQ.register;
      by destruct checkDup.
  - unfold EQ.ensure_chan. rewrite Hch.
    destruct (EQ.serviceEvChan eq !! _); unfold EQ.register;
      by destruct checkDup.
  - intros s. rewrite ensure_chan_lookup. by rewrite Hch.
  - unfold EQ.ensure_chan. rewrite Hch.
    destruct (EQ.serviceEvChan eq !! _); unfold EQ.register;
      by destruct checkDup.
Qed.

(** A [push] whose item does not decode, or whose service is already in
    the duplicate-suppression set while the check is on, is dropped: it
    returns with nothing changed but the mutex, locked and unlocked
    once. *)
Theorem push_drops_silently
    (unmarshal : string -> option EQ.mvEvent) (now : Z) (item : PQ.Item)
    (checkDup : bool) (eq : EQ.eventQueue) :
  held (EQ.mu eq) = false ->
  (unmarshal (PQ.Value item) = None \/
   exists ev, unmarshal (PQ.Value item) = Some ev /\ checkDup = true /\
              EQ.Service ev ∈ EQ.serviceBlk eq) ->
  EQ.push unmarshal now item checkDup eq =
    (EQ.set_mu eq (EQ.relocked (EQ.mu eq)), Returned).
Proof.
  intros Hfree Hcase. unfold EQ.push, Lock. rewrite Hfree.
  rewrite push_body_steps.
  destruct Hcase as [->|(ev & -> & -> & Hin)]; simpl.
  - unfold EQ.set_mu, EQ.relocked. simpl. by rewrite <- app_assoc.
  - rewrite bool_decide_eq_true_2 by done. simpl.
    unfold EQ.set_mu, EQ.relocked. simpl. by rewrite <- app_assoc.
Qed.

Lemma send_result service ev eq :
  let ch := default [] (EQ.serviceEvChan eq !! service) in
  EQ.send service ev eq =
  if decide (length ch < EQ.defaultEventChanLength)%nat
  then (EQ.set_chan eq (<[service := ch ++ [ev]]> (EQ.serviceEvChan eq)),
        Returned)
  else (eq, Blocked).
Proof. reflexivity. Qed.

Lemma push_delivers_due_holds
    (unmarshal : string -> option EQ.mvEvent) (now : Z) (item : PQ.Item)
    (checkDup : bool) (eq : EQ.eventQueue) (ev : EQ.mvEvent) :
  held (EQ.mu eq) = false ->
  EQ.accepted unmarshal item checkDup eq ev ->
  EQ.immediate ev \/ (EQ.deferrable ev /\ now >= PQ.Priority item) ->
  let ch := default [] (EQ.serviceEvChan eq !! EQ.Service ev) in
  let r := EQ.push unmarshal now item checkDup eq in
  EQ.pq r.1 = EQ.pq eq /\
  EQ.serviceBlk r.1 =
    (if checkDup then {[EQ.Service ev]} ∪ EQ.serviceBlk eq
     else EQ.serviceBlk eq) /\
  (forall s, s <> EQ.Service ev ->
     EQ.serviceEvChan r.1 !! s = EQ.serviceEvChan eq !! s) /\
  if decide (length ch < EQ.defaultEventChanLength)%nat
  then r.2 = Returned /\ EQ.mu r.1 = EQ.relocked (EQ.mu eq) /\
       EQ.serviceEvChan r.1 !! EQ.Service ev = Some (ch ++ [ev])
  else r.2 = Blocked /\ held (EQ.mu r.1) = true /\
       ops (EQ.mu r.1) = ops (EQ.mu eq) ++ [MuLock] /\
       EQ.serviceEvChan r.1 !! EQ.Service ev = Some ch.
Proof.
  intros Hfree Hacc Hkind ch r. unfold r.
  rewrite (push_accepted _ _ _ _ _ _ Hfree Hacc).
  set (eq0 := EQ.set_mu eq _).
  destruct (prepared_fields checkDup ev eq0) as (Hpq & Hmu & Hblk & Hch & _).
  set (eq2 := EQ.ensure_chan ev (EQ.register checkDup ev eq0)) in *.
  assert (EQ.route now item ev eq2 = EQ.send (EQ.Service ev) ev eq2) as ->.
  { unfold EQ.route. destruct Hkind as [Hi|[Hd Hnow]].
    - by rewrite bool_decide_eq_true_2.
    - case_bool_decide; [done|].
      by rewrite !bool_decide_eq_true_2. }
  rewrite send_result. rewrite (Hch (EQ.Service ev)).
  destruct (decide (EQ.Service ev = EQ.Service ev)); [|done]. simpl. fold ch.
  case_decide as Hroom; simpl.
  - rewrite Hmu. simpl. split; [done|]. split; [done|]. split.
    { intros s Hs. rewrite lookup_insert_ne by done. rewrite Hch.
      by rewrite decide_False. }
    split; [done|]. split.
    { unfold EQ.relocked. by rewrite <- app_assoc. }
    by rewrite lookup_insert_eq.
  - split; [done|]. split; [done|]. split.
    { intros s Hs. rewrite Hch. by rewrite decide_False. }
    rewrite Hmu. simpl. split; [done|]. split; [done|]. split; [done|].
    rewrite Hch. by rewrite decide_True.
Qed.

(** An accepted event that is immediate, or deferrable and already due
    (its priority is at most now, equality included), goes to the channel
    of its service when there is room: it is appended there, the
    priority queue and the other channels stay as they are, the service
    is in the suppression set if the check was on, and the mutex is
    released.  When the channel is full the call is parked with the mutex
    still held and nothing sent. *)
Theorem push_delivers_due
    (unmarshal : string -> option EQ.mvEvent) (now : Z) (item : PQ.Item)
    (checkDup : bool) (eq : EQ.eventQueue) (ev : EQ.mvEvent) :
  held (EQ.mu eq) = false ->
  EQ.accepted unmarshal item checkDup eq ev ->
  EQ.immediate ev \/ (EQ.deferrable ev /\ now >= PQ.Priority item) ->
  let ch := default [] (EQ.serviceEvChan eq !! EQ.Service ev) in
  let r := EQ.push unmarshal now item checkDup eq in
  EQ.pq r.1 = EQ.pq eq /\
  EQ.serviceBlk r.1 =
    (if checkDup then {[EQ.Service ev]} ∪ EQ.serviceBlk eq
     else EQ.serviceBlk eq) /\
  (forall s, s <> EQ.Service ev ->
     EQ.serviceEvChan r.1 !! s = EQ.serviceEvChan eq !! s) /\
  if decide (length ch < EQ.defaultEventChanLength)%nat
  then r.2 = Returned /\ EQ.mu r.1 = EQ.relocked (EQ.mu eq) /\
       EQ.serviceEvChan r.1 !! EQ.Service ev = Some (ch ++ [ev])
  else r.2 = Blocked /\ held (EQ.mu r.1) = true /\
       ops (EQ.mu r.1) = ops (EQ.mu eq) ++ [MuLock] /\
       EQ.serviceEvChan r.1 !! EQ.Service ev = Some ch.
Proof. exact (push_delivers_due_holds unmarshal now item checkDup eq ev). Qed.

Lemma push_parks_future_holds
    (unmarshal : string -> option EQ.mvEvent) (now : Z) (item : PQ.Item)
    (checkDup : bool) (eq : EQ.eventQueue) (ev : EQ.mvEvent) :
  held (EQ.mu eq) = false ->
  EQ.accepted unmarshal item checkDup eq ev ->
  EQ.deferrable ev -> now < PQ.Priority item ->
  let r := EQ.push unmarshal now item checkDup eq in
  r.2 = Returned /\ EQ.mu r.1 = EQ.relocked (EQ.mu eq) /\
  PQ.content <$> EQ.pq r.1 ≡ₚ PQ.content item :: (PQ.content <$> EQ.pq eq) /\
  (forall s, EQ.serviceEvChan r.1 !! s =
     if decide (s = EQ.Service ev)
     then Some (default [] (EQ.serviceEvChan eq !! s))
     else EQ.serviceEvChan eq !! s) /\
  EQ.serviceBlk r.1 =
    (if checkDup then {[EQ.Service ev]} ∪ EQ.serviceBlk eq
     else EQ.serviceBlk eq).
Proof.
  intros Hfree Hacc Hd Hnow r. unfold r.
  rewrite (push_accepted _ _ _ _ _ _ Hfree Hacc).
  set (eq0 := EQ.set_mu eq _).
  destruct (prepared_fields checkDup ev eq0) as (Hpq & Hmu & Hblk & Hch & _).
  set (eq2 := EQ.ensure_chan ev (EQ.register checkDup ev eq0)) in *.
  destruct (proj1 (PQMore.heap_ops_never_panic_holds (EQ.pq eq2) item))
    as (h' & Hpush & _).
  assert (EQ.route now item ev eq2 = (EQ.set_pq eq2 h', Returned)) as ->.
  { unfold EQ.route, EQ.immediate, EQ.deferrable in *.
    rewrite bool_decide_eq_false_2.
    2:{ unfold EQ.tShardChanged, EQ.tContainerChanged, EQ.tContainerInit,
          EQ.tShardLoadChanged, EQ.tContainerLoadChanged in *. lia. }
    rewrite bool_decide_eq_true_2 by done.
    rewrite bool_decide_eq_false_2 by lia. by rewrite Hpush. }
  simpl. rewrite Hmu. simpl. split; [done|]. split.
  { unfold EQ.relocked. by rewrite <- app_assoc. }
  split.
  { apply PQMore.heap_Push_content in Hpush. by rewrite Hpq in Hpush. }
  split; [exact Hch|exact Hblk].
Qed.

(** An accepted deferrable event whose priority is later than now is
    parked: the call returns with the item added to the priority queue
    (its value and priority, nothing else added or lost), the channel of
    the service in place with no event added, and the mutex released. *)
Theorem push_parks_future
    (unmarshal : string -> option EQ.mvEvent) (now : Z) (item : PQ.Item)
    (checkDup : bool) (eq : EQ.eventQueue) (ev : EQ.mvEvent) :
  held (EQ.mu eq) = false ->
  EQ.accepted unmarshal item checkDup eq ev ->
  EQ.deferrable ev -> now < PQ.Priority item ->
  let r := EQ.push unmarshal now item checkDup eq in
  r.2 = Returned /\ EQ.mu r.1 = EQ.relocked (EQ.mu eq) /\
  PQ.content <$> EQ.pq r.1 ≡ₚ PQ.content item :: (PQ.content <$> EQ.pq eq) /\
  (forall s, EQ.serviceEvChan r.1 !! s =
     if decide (s = EQ.Service ev)
     then Some (default [] (EQ.serviceEvChan eq !! s))
     else EQ.serviceEvChan eq !! s) /\
  EQ.serviceBlk r.1 =
    (if checkDup then {[EQ.Service ev]} ∪ EQ.serviceBlk eq
     else EQ.serviceBlk eq).
Proof. exact (push_parks_future_holds unmarshal now item checkDup eq ev). Qed.

(** An accepted event whose type is none of the five known ones makes
    [push] panic after the service was registered and its channel and
    evLoop were set up: the deferred unlock still releases the mutex, no
    event is sent, the priority queue is untouched, and with the check on
    the service is left in the suppression set. *)
Theorem push_unknown_type_panics
    (unmarshal : string -> option EQ.mvEvent) (now : Z) (item : PQ.Item)
    (checkDup : bool) (eq : EQ.eventQueue) (ev : EQ.mvEvent) :
  held (EQ.mu eq) = false ->
  EQ.accepted unmarshal item checkDup eq ev ->
  ~ EQ.immediate ev -> ~ EQ.deferrable ev ->
  let r := EQ.push unmarshal now item checkDup eq in
  r.2 = Panicked "unknown ev type" /\
  EQ.mu r.1 = EQ.relocked (EQ.mu eq) /\
  EQ.pq r.1 = EQ.pq eq /\
  EQ.serviceEvChan r.1 !! EQ.Service ev
    = Some (default [] (EQ.serviceEvChan eq !! EQ.Service ev)) /\
  EQ.serviceBlk r.1 =
    (if checkDup then {[EQ.Service ev]} ∪ EQ.serviceBlk eq
     else EQ.serviceBlk eq).
Proof.
  intros Hfree Hacc Hni Hnd r. unfold r.
  rewrite (push_accepted _ _ _ _ _ _ Hfree Hacc).
  set (eq0 := EQ.set_mu eq _).
  destruct (prepared_fields checkDup ev eq0) as (Hpq & Hmu & Hblk & Hch & _).
  set (eq2 := EQ.ensure_chan ev (EQ.register checkDup ev eq0)) in *.
  unfold EQ.route. rewrite !bool_decide_eq_false_2 by done.
  simpl. rewrite Hmu. simpl. split; [done|]. split.
  { unfold EQ.relocked. by rewrite <- app_assoc. }
  split; [done|]. split; [|done].
  rewrite Hch. by rewrite decide_True.
Qed.

Lemma prepared_parent checkDup ev eq :
  EQ.parent_service (EQ.ensure_chan ev (EQ.register checkDup ev eq))
  = EQ.parent_service eq.
Proof.
  unfold EQ.ensure_chan.
  destruct (EQ.serviceEvChan _ !! _); unfold EQ.register;
    by destruct checkDup.
Qed.

(** From push to publication: an accepted immediate event pushed while
    the channel of its service is idle is taken by the next iteration of
    that service's evLoop, which issues one compare-and-swap carrying the
    event's value, leaves the channel empty and takes the service out of
    the suppression set again. *)
Theorem push_then_evLoop_publishes
    (unmarshal : string -> option EQ.mvEvent) (now : Z) (item : PQ.Item)
    (checkDup : bool) (eq : EQ.eventQueue) (ev : EQ.mvEvent)
    (Store : Type)
    (CompareAndSwap :
       Store -> string -> string -> string -> Z -> Store * option error)
    (store : Store) (cas : list EQ.casCall) :
  held (EQ.mu eq) = false ->
  EQ.accepted unmarshal item checkDup eq ev ->
  EQ.immediate ev ->
  default [] (EQ.serviceEvChan eq !! EQ.Service ev) = [] ->
  let r1 := EQ.push unmarshal now item checkDup eq in
  let r2 := EQ.evLoop_iter CompareAndSwap (EQ.Service ev)
              (EQ.mkLoop r1.1 store cas) in
  r1.2 = Returned /\ r2.2 = Returned /\
  EQ.l_cas r2.1 = cas ++ [EQ.task_cas (EQ.parent_service eq) ev] /\
  EQ.serviceEvChan (EQ.l_eq r2.1) !! EQ.Service ev = Some [] /\
  EQ.serviceBlk (EQ.l_eq r2.1) = EQ.serviceBlk eq ∖ {[EQ.Service ev]}.
Proof.
  intros Hfree Hacc Himm Hidle r1 r2.
  destruct (push_delivers_due_holds unmarshal now item checkDup eq ev Hfree Hacc
              (or_introl Himm)) as (_ & Hblk & _ & Hres).
  rewrite Hidle in Hres. simpl in Hres.
  destruct Hres as (Hret & Hmu & Hch).
  fold r1 in Hblk, Hret, Hmu, Hch.
  assert (EQ.parent_service r1.1 = EQ.parent_service eq) as Hpar.
  { unfold r1. rewrite (push_accepted _ _ _ _ _ _ Hfree Hacc).
    set (eq0 := EQ.set_mu eq _).
    pose proof (prepared_parent checkDup ev) as Hprep.
    unfold EQ.route. rewrite bool_decide_eq_true_2 by done.
    pose proof (send_fields (EQ.Service ev) ev
                  (EQ.ensure_chan ev (EQ.register checkDup ev eq0)))
      as (_ & _ & _ & _ & Hp).
    destruct (EQ.send _ _ _) as [eq1 e]. simpl in Hp.
    destruct e; simpl; rewrite ?Hp, Hprep; done. }
  split; [done|]. unfold r2, EQ.evLoop_iter. simpl. rewrite Hch.
  set (st1 := EQ.mkLoop _ _ _).
  destruct (EQFacts.evLoop_handle_spec Store CompareAndSwap ev st1)
    as (Hcas & Hexit & Hb & _).
  { simpl. by rewrite Hmu. }
  assert (EQ.serviceEvChan (EQ.l_eq (EQ.evLoop_handle CompareAndSwap ev st1).1)
          = <[EQ.Service ev := []]> (EQ.serviceEvChan r1.1)) as Hchan.
  { unfold EQ.evLoop_handle, Lock. simpl. rewrite Hmu. simpl.
    by destruct (CompareAndSwap _ _ _ _ _). }
  split; [done|]. split.
  { rewrite Hcas. simpl. by rewrite Hpar. }
  split; [by rewrite Hchan, lookup_insert_eq|].
  rewrite Hb. simpl. rewrite Hblk.
  destruct Hacc as [_ Hnew]. destruct checkDup; [|done].
  specialize (Hnew eq_refl). set_solver.
Qed.

Lemma heap_Pop_single (x : PQ.Item) :
  PQ.heap_Pop [x] = Some (Some (PQ.setIndex x (-1)), []).
Proof. reflexivity. Qed.

(** Defer and promote: an accepted deferrable event pushed before it is
    due into a queue with nothing parked waits in the priority queue; a
    tick at or after its due second moves it to the channel of its
    service and leaves the priority queue empty. *)
Theorem park_then_tick_delivers
    (unmarshal : string -> option EQ.mvEvent) (now0 now1 : Z)
    (item : PQ.Item) (checkDup : bool) (eq : EQ.eventQueue)
    (ev : EQ.mvEvent) :
  held (EQ.mu eq) = false ->
  EQ.pq eq = [] ->
  EQ.accepted unmarshal item checkDup eq ev ->
  EQ.deferrable ev ->
  now0 < PQ.Priority item <= now1 ->
  default [] (EQ.serviceEvChan eq !! EQ.Service ev) = [] ->
  let r1 := EQ.push unmarshal now0 item checkDup eq in
  r1.2 = Returned /\
  (exists x, EQ.pq r1.1 = [x] /\ PQ.content x = PQ.content item) /\
  EQ.serviceEvChan r1.1 !! EQ.Service ev = Some [] /\
  exists eq2,
    EQ.tryPopAndPush unmarshal now1 r1.1 = Some (eq2, Returned) /\
    EQ.pq eq2 = [] /\
    EQ.serviceEvChan eq2 !! EQ.Service ev = Some [ev].
Proof.
  intros Hfree Hempty Hacc Hdef [Hlate Hdue] Hidle r1.
  destruct (push_parks_future_holds unmarshal now0 item checkDup eq ev Hfree Hacc
              Hdef Hlate) as (Hret & Hmu & Hperm & Hch & _).
  fold r1 in Hret, Hmu, Hperm, Hch.
  rewrite Hempty in Hperm. simpl in Hperm.
  apply Permutation_singleton_r in Hperm.
  destruct (EQ.pq r1.1) as [|x [|y l]] eqn:Hpq; simpl in Hperm;
    try discriminate Hperm.
  inversion Hperm as [[Hv Hp]].
  specialize (Hch (EQ.Service ev)) as Hsvc.
  rewrite decide_True in Hsvc by done. rewrite Hidle in Hsvc.
  split; [done|].
  split; [exists x; split; [done|]; unfold PQ.content; by rewrite Hv, Hp|].
  split; [done|].
  unfold EQ.tryPopAndPush. rewrite Hpq. simpl length.
  cbn [EQ.tryPopAndPush_loop]. rewrite Hpq, heap_Pop_single.
  rewrite bool_decide_eq_false_2 by (simpl; lia).
  set (eq1 := EQ.set_pq r1.1 []).
  set (x' := PQ.setIndex x (-1)).
  assert (EQ.accepted unmarshal x' false eq1 ev) as Hacc'.
  { split; [|done]. simpl. rewrite Hv. by destruct Hacc. }
  assert (held (EQ.mu eq1) = false) as Hfree' by (simpl; by rewrite Hmu).
  destruct (push_delivers_due_holds unmarshal now1 x' false eq1 ev Hfree' Hacc')
    as (Hpq2 & _ & _ & Hres).
  { right. split; [done|]. simpl. lia. }
  simpl in Hres. rewrite Hsvc in Hres. simpl in Hres.
  destruct Hres as (Hret2 & _ & Hch2).
  destruct (EQ.push unmarshal now1 x' false eq1) as [eq2 e].
  simpl in *. subst e. rewrite Hpq2.
  exists (EQ.set_pq eq2 []). split; [done|]. split; [done|]. done.
Qed.

End EQMore.

(** ** More on the early event queue of package server *)

Module ServerMore.
Import Go.

Lemma send_keeps service ev eq :
  Server.mu (Server.send service ev eq).1 = Server.mu eq /\
  Server.curEvList (Server.send service ev eq).1 = Server.curEvList eq /\
  ((Server.send service ev eq).2 = Returned \/
   (Server.send service ev eq).2 = Blocked).
Proof. unfold Server.send. case_decide; simpl; auto. Qed.

Lemma push_route_keeps now item ev eq :
  let r := Server.push_route now item ev eq in
  Server.mu r.1 = Server.mu eq /\
  Server.curEvList r.1 = Server.curEvList eq /\
  (r.2 = Returned \/ r.2 = Blocked \/ exists msg, r.2 = Panicked msg).
Proof.
  assert (forall eq1,
    let r :=
      (if bool_decide (Server.Type_ ev = Server.evTypeShardUpdate \/
                       Server.Type_ ev = Server.evTypeContainerUpdate)
       then Server.send (Server.Service ev) ev eq1
       else if bool_decide (Server.Type_ ev = Server.evTypeShardDel \/
                            Server.Type_ ev = Server.evTypeContainerDel)
       then
         if bool_decide (now >= PQ.Priority item)
         then Server.send (Server.Service ev) ev eq1
         else
           match PQ.heap_Push (Server.pq eq1) item with
           | Some h => (Server.set_pq eq1 h, Returned)
           | None => (eq1, Panicked "index out of range")
           end
       else (eq1, Returned)) in
    Server.mu r.1 = Server.mu eq1 /\
    Server.curEvList r.1 = Server.curEvList eq1 /\
    (r.2 = Returned \/ r.2 = Blocked \/ exists msg, r.2 = Panicked msg))
    as Hroute.
  { intros eq1.
    pose proof (send_keeps (Server.Service ev) ev eq1) as (H1 & H2 & H3).
    destruct (bool_decide (_ \/ _)); simpl; [intuition|].
    destruct (bool_decide (_ \/ _)); simpl; [|auto].
    destruct (bool_decide (now >= _)); simpl; [intuition|].
    destruct (PQ.heap_Push _ _); simpl; eauto 6. }
  unfold Server.push_route.
  destruct (match Server.evChan eq with
            | Some chans => bool_decide (is_Some (chans !! Server.Service ev))
            | None => false end).
  - apply Hroute.
  - destruct (Server.evChan eq) as [chans|]; [|simpl; eauto 6].
    destruct (Hroute (Server.add_loop
                (Server.set_chan eq (<[Server.Service ev := []]> chans))
                (Server.Service ev))) as (H1 & H2 & H3).
    simpl in *. auto.
Qed.

(** The early [push] releases its mutex twice exactly when the duplicate
    check trips, whatever the queue and the item: then the body's own
    unlock is followed by the deferred one, which is a fatal error; on
    every other path it unlocks once when it returns or panics, and not
    at all while it is parked on a full channel. *)
Theorem early_push_unlock_count
    (unmarshal : string -> option Server.loadEvent) (now : Z)
    (item : PQ.Item) (checkDup : bool) (eq : Server.eventQueue) :
  held (Server.mu eq) = false ->
  let r := Server.push unmarshal now item checkDup eq in
  (Server.duplicate unmarshal item checkDup eq ->
   r.2 = Fatal unlock_of_unlocked /\
   ops (Server.mu r.1) = ops (Server.mu eq) ++ [MuLock; MuUnlock; MuUnlock]) /\
  (~ Server.duplicate unmarshal item checkDup eq ->
   (r.2 = Blocked /\ ops (Server.mu r.1) = ops (Server.mu eq) ++ [MuLock]) \/
   ((r.2 = Returned \/ exists msg, r.2 = Panicked msg) /\
    ops (Server.mu r.1) = ops (Server.mu eq) ++ [MuLock; MuUnlock])).
Proof.
  intros Hfree. unfold Server.push, Lock. rewrite Hfree.
  set (eq0 := Server.set_mu eq _). split.
  - intros (-> & ev & Hdec & Hin). unfold Server.push_body.
    rewrite Hdec. rewrite bool_decide_eq_true_2 by done. simpl.
    split; [done|]. by rewrite <- !app_assoc.
  - intros Hnd.
    assert (exists eq1 e,
              Server.push_body unmarshal now item checkDup eq0 = (eq1, e) /\
              Server.mu eq1 = Server.mu eq0 /\
              (e = Returned \/ e = Blocked \/ exists msg, e = Panicked msg))
      as (eq1 & e & -> & Hmu & He).
    { unfold Server.push_body.
      destruct (unmarshal (PQ.Value item)) as [ev|] eqn:Hdec;
        [|eexists _, _; split; [done|]; auto].
      destruct checkDup.
      - case_bool_decide as Hin.
        { destruct Hnd. split; [done|]. by exists ev. }
        destruct (Server.curEvList eq0) as [cur|] eqn:Hcur;
          [|eexists _, _; split; [done|]; eauto 6].
        destruct (push_route_keeps now item ev
                    (Server.set_cur eq0 ({[Server.Service ev]} ∪ cur)))
          as (H1 & _ & H3).
        destruct (Server.push_route _ _ _ _) as [eq1 e].
        eexists _, _. split; [done|]. simpl in *. auto.
      - destruct (push_route_keeps now item ev eq0) as (H1 & _ & H3).
        destruct (Server.push_route _ _ _ _) as [eq1 e].
        eexists _, _. split; [done|]. simpl in *. auto. }
    destruct He as [->|[->|[msg ->]]]; simpl.
    + right. rewrite Hmu. simpl. split; [by left|]. by rewrite <- app_assoc.
    + left. by rewrite Hmu.
    + right. rewrite Hmu. simpl. split; [right; by eexists|].
      by rewrite <- app_assoc.
Qed.

(** [newEventQueue] of package server never makes [curEvList], and no
    [push] makes it either: on a queue whose [curEvList] is the nil map
    every [push] with the duplicate check on whose item decodes panics
    on the write to the nil map, with the mutex released once and the
    map still nil. *)
Theorem early_push_nil_map
    (unmarshal : string -> option Server.loadEvent) (now : Z)
    (item : PQ.Item) (eq : Server.eventQueue) (ev : Server.loadEvent) :
  Server.curEvList Server.newEventQueue = None /\
  (held (Server.mu eq) = false ->
   Server.curEvList eq = None ->
   unmarshal (PQ.Value item) = Some ev ->
   Server.push unmarshal now item true eq =
     (Server.set_mu eq
        (mkMutex false (ops (Server.mu eq) ++ [MuLock; MuUnlock])),
      Panicked Server.nil_map_write)) /\
  (forall checkDup,
     Server.curEvList eq = None ->
     Server.curEvList (Server.push unmarshal now item checkDup eq).1 = None).
Proof.
  split; [done|]. split.
  - intros Hfree Hnil Hdec. unfold Server.push, Lock. rewrite Hfree.
    unfold Server.push_body. rewrite Hdec. simpl. rewrite Hnil. simpl.
    rewrite bool_decide_eq_false_2 by apply not_elem_of_empty. simpl.
    unfold Server.set_mu. simpl. rewrite <- app_assoc, ?Hnil. done.
  - intros checkDup Hnil. unfold Server.push.
    destruct (Lock _) as [m|]; [|done].
    set (eq0 := Server.set_mu eq m).
    assert (Server.curEvList
              (Server.push_body unmarshal now item checkDup eq0).1 = None)
      as Hb.
    { unfold Server.push_body. destruct (unmarshal _) as [ev'|]; [|done].
      destruct checkDup.
      - simpl. rewrite Hnil. simpl. rewrite bool_decide_eq_false_2; [done|].
        apply not_elem_of_empty.
      - destruct (push_route_keeps now item ev' eq0) as (_ & H2 & _).
        by rewrite H2. }
    destruct (Server.push_body _ _ _ _ _) as [eq1 e]. simpl in Hb.
    destruct e; simpl; done.
Qed.

End ServerMore.

(** ** More on the move operator *)

Module OPMore.
Import Go.

Section Operator.

Context {ShardSpec Net : Type}.
Variable unmarshal : string -> option (list (OP.moveAction ShardSpec)).
Variable send :
  Net -> string -> option ShardSpec -> string -> string -> Net * option error.

(** A failed drop ends the action: [dropOrAdd] returns the error of the
    drop request, and that request is the only one it has issued, the add
    endpoint is never contacted. *)
Theorem dropOrAdd_failed_drop_skips_add
    (ma : OP.moveAction ShardSpec) (st : OP.opState Net) (e : error) :
  OP.DropEndpoint ma <> ""%string ->
  (send (OP.net st) (OP.ShardId ma) (OP.Spec ma) (OP.DropEndpoint ma) "drop").2
    = Some e ->
  let r := OP.dropOrAdd send ma st in
  r.2 = Some e /\
  OP.sent r.1 =
    OP.sent st ++ [OP.mkReq (OP.ShardId ma) (OP.DropEndpoint ma) "drop"].
Proof.
  intros Hd Hfail. unfold OP.dropOrAdd, OP.do_send.
  rewrite bool_decide_eq_true_2 by done.
  destruct (send _ _ _ _ _) as [n' err]. simpl in Hfail. subst err. done.
Qed.

(** When the drop succeeded or was not asked for, a failed add is
    reported unless the action allows it to be given up: with [AllowDrop]
    set [dropOrAdd] returns nil although the add request failed. *)
Theorem dropOrAdd_failed_add
    (ma : OP.moveAction ShardSpec) (st : OP.opState Net) (e : error) :
  OP.AddEndpoint ma <> ""%string ->
  let st1 :=
    if bool_decide (OP.DropEndpoint ma <> ""%string)
    then (OP.do_send send (OP.ShardId ma) (OP.Spec ma) (OP.DropEndpoint ma)
            "drop" st)
    else (st, None) in
  st1.2 = None ->
  (send (OP.net st1.1) (OP.ShardId ma) (OP.Spec ma) (OP.AddEndpoint ma)
        "add").2 = Some e ->
  let r := OP.dropOrAdd send ma st in
  r.2 = (if OP.AllowDrop ma then None else Some e) /\
  OP.sent r.1 =
    OP.sent st1.1 ++ [OP.mkReq (OP.ShardId ma) (OP.AddEndpoint ma) "add"].
Proof.
  intros Ha st1 Hdrop Hfail. unfold OP.dropOrAdd. fold st1.
  destruct st1 as [s1 derr]. simpl in *. subst derr.
  rewrite bool_decide_eq_true_2 by done. unfold OP.do_send.
  destruct (send _ _ _ _ "add") as [n' err]. simpl in Hfail. subst err.
  by destruct (OP.AllowDrop ma).
Qed.





End Operator.

End OPMore.

(** ** More on the shard keeper: handlers, dispatch and startup *)

Module SKMore.
Import Go.

Section Keeper.

Context {St App : Type} `{!SK.Storage St} `{!SK.ShardPrimitives App}.
Variable unmarshalShardLease : string -> option SK.ShardLease.
Variable unmarshalLease : string -> option SK.Lease.
Variable Lease_String : SK.Lease -> string.
Variable LeaseBridgePath : string -> string.
Variable LeaseGuardPath : string -> string.
Variable LeaseSessionDir : string -> string.

(** Guard before bridge: a guard event that is a create, or that arrives
    while the keeper holds no bridge lease, is rejected with an error and
    nothing is touched: the keeper is as before, and no call reaches the
    durable store or the consistent store. *)
Theorem acquireGuardLease_rejects_untouched (ev : SK.Event)
    (lease_ : SK.ShardLease) (sk : SK.ShardKeeper)
    (w : SK.World (St := St) (App := App)) :
  SK.IsCreate ev = true \/ SK.ID (SK.bridgeLease sk) = 0 ->
  let r := SK.acquireGuardLease Lease_String ev lease_ sk w in
  r.1 = (sk, w) /\ is_Some r.2.
Proof.
  intros Hcase. unfold SK.acquireGuardLease.
  destruct (SK.IsCreate ev); [split; [done|by eexists]|].
  destruct Hcase as [|Hz]; [done|].
  unfold SK.EqualTo. rewrite bool_decide_eq_true_2 by done.
  split; [done|by eexists].
Qed.

(** Once the checks are passed the guard lease is set ahead of the store
    calls: when [MigrateLease] or [DropByLease] then fails, the call
    returns that error with the guard lease already the new one and the
    bridge lease cleared, and the session key is not written. *)
Theorem acquireGuardLease_storage_failure (ev : SK.Event)
    (lease_ : SK.ShardLease) (sk : SK.ShardKeeper)
    (w : SK.World (St := St) (App := App)) (e : error) :
  SK.IsCreate ev = false ->
  SK.ID (SK.bridgeLease sk) <> 0 ->
  (SK.BridgeLeaseID lease_ > 0 ->
     SK.ID (SK.bridgeLease sk) = SK.BridgeLeaseID lease_) ->
  let m := SK.storage_MigrateLease (SK.ID (SK.bridgeLease sk))
             (SK.ID (SK.lease lease_)) (SK.storage w) in
  m.2 = Some e \/
  (m.2 = None /\
   (SK.storage_DropByLease true (SK.ID (SK.lease lease_)) m.1).2 = Some e) ->
  let r := SK.acquireGuardLease Lease_String ev lease_ sk w in
  r.2 = Some e /\
  SK.guardLease r.1.1 = SK.lease lease_ /\
  SK.bridgeLease r.1.1 = SK.NoLease /\
  SK.etcd r.1.2 = SK.etcd w /\
  exists added,
    SK.calls r.1.2 = SK.calls w ++ added /\
    forall key value id, SK.CEtcdPut key value id ∉ added.
Proof.
  intros Hnc Hb Hmatch m Hfail. unfold SK.acquireGuardLease.
  rewrite Hnc.
  assert (SK.EqualTo (SK.bridgeLease sk) SK.NoLease = false) as ->
    by (unfold SK.EqualTo; by apply bool_decide_eq_false_2).
  assert (bool_decide (SK.BridgeLeaseID lease_ > 0) &&
          bool_decide (SK.ID (SK.bridgeLease sk) <> SK.BridgeLeaseID lease_)
          = false) as ->.
  { case_bool_decide as Hpos; [|done]. simpl.
    apply bool_decide_eq_false_2. intros Hne. by apply Hne, Hmatch. }
  unfold SK.acquireGuardLease_body, SK.on_storage. simpl. fold m.
  destruct m as [s1 [e1|]]; simpl in *.
  - destruct Hfail as [[= ->]|[? _]]; [|done].
    do 4 (split; [done|]). eexists. split; [done|].
    intros key value id Hin. by apply list_elem_of_singleton in Hin.
  - destruct Hfail as [|[_ Hd]]; [done|].
    destruct (SK.storage_DropByLease true _ s1) as [s2 err]. simpl in Hd.
    subst err. simpl. do 4 (split; [done|]). eexists.
    split; [by rewrite <- app_assoc|].
    intros key value id Hin.
    apply elem_of_cons in Hin as [?|Hin]; [done|].
    by apply list_elem_of_singleton in Hin.
Qed.



(** What the dispatcher refuses, it refuses without touching anything: a
    value that is no watch event, a lease value that does not parse, and
    a key that is neither the bridge key, nor the guard key, nor under
    the session directory each give an error with the keeper and the
    world as they were. *)
Theorem handleRbEvent_refusals_untouched (value : option SK.WatchEvent)
    (sk : SK.ShardKeeper) (w : SK.World (St := St) (App := App)) :
  let r := SK.handleRbEvent unmarshalShardLease unmarshalLease Lease_String
             LeaseBridgePath LeaseGuardPath LeaseSessionDir value sk w in
  match value with
  | None => r = (sk, w, SK.Done (Some (Go.ErrNew "type error")))
  | Some wev =>
      let key := SK.Key (SK.Kv (SK.event wev)) in
      match SK.parseShardLease unmarshalShardLease wev with
      | None => r = (sk, w, SK.Panics SK.nil_dereference)
      | Some (inr e) => r = (sk, w, SK.Done (Some e))
      | Some (inl _) =>
          key <> LeaseBridgePath (SK.optService sk) ->
          key <> LeaseGuardPath (SK.optService sk) ->
          String.prefix (LeaseSessionDir (SK.optService sk)) key = false ->
          r = (sk, w, SK.Done (Some (Go.Errorf "unexpected key [%s]" [Go.ArgS key])))
      end
  end.
Proof.
  unfold SK.handleRbEvent. destruct value as [wev|]; [|done]. simpl.
  destruct (SK.parseShardLease _ wev) as [[l|e]|]; try done.
  intros Hnb Hng Hpre. rewrite !bool_decide_eq_false_2 by done.
  by rewrite Hpre.
Qed.

(** Session keys: for an event under the session directory (and on
    neither lease key) the keeper's memory is never changed; a put,
    create or modify, is ignored without any call; a delete whose previous
    value decodes to a lease asks the store once to drop the records of
    that lease id and returns the store's answer. *)
Theorem handleRbEvent_session_events (wev : SK.WatchEvent)
    (lease_ : SK.ShardLease) (sk : SK.ShardKeeper)
    (w : SK.World (St := St) (App := App)) :
  SK.parseShardLease unmarshalShardLease wev = Some (inl lease_) ->
  let key := SK.Key (SK.Kv (SK.event wev)) in
  key <> LeaseBridgePath (SK.optService sk) ->
  key <> LeaseGuardPath (SK.optService sk) ->
  String.prefix (LeaseSessionDir (SK.optService sk)) key = true ->
  let r := SK.handleRbEvent unmarshalShardLease unmarshalLease Lease_String
             LeaseBridgePath LeaseGuardPath LeaseSessionDir (Some wev) sk w in
  r.1.1 = sk /\
  (SK.EvType (SK.event wev) = SK.PUT -> r = (sk, w, SK.Done None)) /\
  (forall prev l,
     SK.EvType (SK.event wev) = SK.DELETE ->
     SK.PrevKv wev = Some prev ->
     unmarshalLease (SK.KvValue prev) = Some l ->
     SK.calls r.1.2 = SK.calls w ++ [SK.CDropByLease false (SK.ID l)] /\
     (SK.storage r.1.2, r.2) =
       (let '(s1, err) :=
          SK.storage_DropByLease false (SK.ID l) (SK.storage w) in
        (s1, SK.Done err))).
Proof.
  intros Hparse key Hnb Hng Hpre r. unfold r, SK.handleRbEvent.
  rewrite Hparse. fold key. rewrite !bool_decide_eq_false_2 by done.
  rewrite Hpre. simpl. unfold SK.handleSessionKeyEvent.
  destruct (SK.EvType (SK.event wev)); simpl.
  - split; [done|]. split; [done|]. intros prev l Hd. done.
  - split.
    { destruct (SK.PrevKv wev) as [prev|]; [|done].
      destruct (unmarshalLease _) as [l|]; [|done].
      unfold SK.on_storage. by destruct (SK.storage_DropByLease _ _ _). }
    split; [done|]. intros prev l _ -> ->. unfold SK.on_storage.
    by destruct (SK.storage_DropByLease _ _ _).
Qed.

(** A rebalance round in memory: when a bridge create is handled without
    an error the keeper holds the new bridge lease; a guard modify that
    follows and names that bridge lease, or none, passes the checks, asks
    the store to migrate the records from the bridge lease to the new
    guard lease, and ends with the guard lease set and the bridge lease
    NoLease again, whether the store calls succeed or not. *)
Theorem round_bridge_then_guard (bev gev : SK.Event)
    (bl gl : SK.ShardLease) (sk sk1 : SK.ShardKeeper)
    (w w1 : SK.World (St := St) (App := App)) :
  SK.IsCreate bev = true ->
  SK.acquireBridgeLease bev bl sk w = (sk1, w1, None) ->
  SK.ID (SK.lease bl) <> 0 ->
  SK.IsCreate gev = false ->
  (SK.BridgeLeaseID gl > 0 -> SK.BridgeLeaseID gl = SK.ID (SK.lease bl)) ->
  let r := SK.acquireGuardLease Lease_String gev gl sk1 w1 in
  SK.bridgeLease sk1 = SK.lease bl /\
  SK.guardLease sk1 = SK.guardLease sk /\
  SK.guardLease r.1.1 = SK.lease gl /\
  SK.bridgeLease r.1.1 = SK.NoLease /\
  exists more,
    SK.calls r.1.2 =
      SK.calls w1 ++
        SK.CMigrateLease (SK.ID (SK.lease bl)) (SK.ID (SK.lease gl)) :: more.
Proof.
  intros Hbc Hbridge Hid Hgc Hmatch r.
  assert (SK.bridgeLease sk1 = SK.lease bl /\
          SK.guardLease sk1 = SK.guardLease sk) as [Hb Hg].
  { revert Hbridge. unfold SK.acquireBridgeLease, SK.on_storage.
    unfold SK.IsCreate in Hbc. unfold SK.IsModify.
    apply andb_true_iff in Hbc as [Hput Hrev].
    apply bool_decide_eq_true_1 in Hput, Hrev. rewrite Hput. simpl.
    rewrite bool_decide_eq_false_2 by (intros Hn; by apply Hn). simpl.
    destruct (SK.storage_Drop _ _) as [s1 [e1|]]; simpl; [done|].
    destruct (SK.storage_MigrateLease _ _ _) as [s2 [e2|]]; simpl; [done|].
    by intros [= <- _]. }
  split; [done|]. split; [done|].
  unfold r, SK.acquireGuardLease. rewrite Hgc.
  assert (SK.EqualTo (SK.bridgeLease sk1) SK.NoLease = false) as ->.
  { unfold SK.EqualTo. apply bool_decide_eq_false_2. by rewrite Hb. }
  assert (bool_decide (SK.BridgeLeaseID gl > 0) &&
          bool_decide (SK.ID (SK.bridgeLease sk1) <> SK.BridgeLeaseID gl)
          = false) as ->.
  { case_bool_decide as Hpos; [|done]. simpl.
    apply bool_decide_eq_false_2. intros Hne. apply Hne.
    rewrite Hb. symmetry. by apply Hmatch. }
  unfold SK.acquireGuardLease_body, SK.on_storage. simpl. rewrite Hb.
  destruct (SK.storage_MigrateLease _ _ _) as [s1 [e1|]]; simpl.
  { split; [done|]. split; [done|]. by eexists. }
  destruct (SK.storage_DropByLease _ _ _) as [s2 [e2|]]; simpl.
  { split; [done|]. split; [done|]. eexists. by rewrite <- app_assoc. }
  split; [done|]. split; [done|]. eexists. by rewrite <- !app_assoc.
Qed.

(** Startup: when [NewShardKeeper] succeeds, [storage.Reset] has
    succeeded, the prefix read found at least one key, the keeper starts
    uninitialized with the bridge lease NoLease and the watch revision one
    past the read's; and it holds a guard lease only if the read found
    exactly one key, whose value decodes to that lease, and, when expired
    shards are to be dropped, the lease's remaining time is positive. *)
Theorem NewShardKeeper_adopts_one_live_guard
    (service containerId : string) (dropExpiredShard : bool)
    (get : error + SK.GetResponse) (ttl : Z -> error + Z)
    (w w' : SK.World (St := St) (App := App)) (started : SK.Started) :
  SK.NewShardKeeper unmarshalShardLease service containerId dropExpiredShard
    get ttl w = inl (w', inl started) ->
  (SK.storage_Reset (SK.storage w)).2 = None /\
  exists gresp,
    get = inr gresp /\ SK.Count gresp <> 0 /\
    SK.startRev started = SK.Revision gresp + 1 /\
    SK.initialized (SK.keeper started) = false /\
    SK.bridgeLease (SK.keeper started) = SK.NoLease /\
    (SK.guardLease (SK.keeper started) = SK.NoLease \/
     SK.Count gresp = 1 /\
     exists kv l,
       head (SK.Kvs gresp) = Some kv /\
       unmarshalShardLease (SK.KvValue kv) = Some l /\
       SK.guardLease (SK.keeper started) = SK.lease l /\
       (dropExpiredShard = true ->
        exists secs, ttl (SK.ID (SK.lease l)) = inr secs /\ secs > 0)).
Proof.
  unfold SK.NewShardKeeper.
  destruct (SK.storage_Reset (SK.storage w)) as [st1 [e|]]; [done|].
  simpl. destruct get as [e|gresp]; [done|].
  case_bool_decide as Hz; [done|].
  case_bool_decide as Hone.
  - destruct (SK.Kvs gresp) as [|kv kvs] eqn:Hkvs; [done|].
    destruct (unmarshalShardLease (SK.KvValue kv)) as [l|] eqn:Hl; [|done].
    destruct dropExpiredShard; simpl.
    + destruct (ttl (SK.ID (SK.lease l))) as [e|secs] eqn:Httl.
      { intros [= <- <-]. split; [done|]. exists gresp.
        repeat (split; [done|]). by left. }
      case_bool_decide as Hsecs; simpl.
      { intros [= <- <-]. split; [done|]. exists gresp.
        repeat (split; [done|]). by left. }
      intros [= <- <-]. split; [done|]. exists gresp.
      repeat (split; [done|]). right. split; [done|].
      exists kv, l. rewrite Hkvs. repeat (split; [done|]). intros _.
      exists secs. split; [done|]. apply Z.lt_gt. by apply Z.nle_gt.
    + intros [= <- <-]. split; [done|]. exists gresp.
      repeat (split; [done|]). right. split; [done|].
      exists kv, l. rewrite Hkvs. repeat (split; [done|]). done.
  - intros [= <- <-]. split; [done|]. exists gresp.
    repeat (split; [done|]). by left.
Qed.

End Keeper.

End SKMore.


Module SyncMore.
Import Go.

Section Sync.

Context {App : Type} `{!SK.ShardPrimitives App}.

Lemma visit_current (sk : SK.ShardKeeper) k dv
    (acc : SK.syncAcc (App := App)) :
  SK.lease_current sk dv ->
  SK.visit sk k dv acc =
    if SK.Disp dv && SK.initialized sk then (acc, None)
    else if SK.Drop dv then SK.dropFn dv acc
    else SK.addFn dv acc.
Proof.
  intros Hc. unfold SK.visit.
  assert (negb (SK.EqualTo (SK.SpecLease (SK.Spec dv)) (SK.guardLease sk)) &&
          negb (SK.EqualTo (SK.SpecLease (SK.Spec dv)) (SK.bridgeLease sk))
          = false) as ->; [|done].
  destruct Hc as [-> | ->]; [done|]. by rewrite andb_false_r.
Qed.

Lemma walk_steady (sk : SK.ShardKeeper)
    (kvs : list (string * SK.ShardKeeperDbValue)) :
  forall r : SK.syncAcc (App := App) * option error,
  SK.initialized sk = true ->
  (forall k dv, (k, dv) ∈ kvs ->
     SK.Disp dv = true /\ SK.lease_current sk dv) ->
  foldl (λ (r : SK.syncAcc * option error)
           (kv : string * SK.ShardKeeperDbValue),
           let '(a', e') := SK.visit sk kv.1 kv.2 r.1 in
           (a', match r.2 with Some e => Some e | None => e' end))
        r kvs = r.
Proof.
  induction kvs as [|[k dv] kvs IH]; intros r Hinit Hall; simpl; [done|].
  destruct (Hall k dv) as [Hd Hc]; [by left|].
  rewrite (visit_current sk k dv) by done. rewrite Hd, Hinit. simpl.
  assert ((r.1, match r.2 with Some e => Some e | None => None end) = r)
    as ->.
  { destruct r as [a [e|]]; done. }
  apply IH; [done|]. intros k0 dv0 Hin. apply (Hall k0 dv0). by right.
Qed.

(** A steady tick does nothing: on an initialized keeper, when every
    record of the log is dispatched and carries the guard or the bridge
    lease, [sync] walks the log and returns nil without asking anything
    of the application and without writing to the log; the keeper and
    the log are as before. *)
Theorem sync_steady_tick (sk : SK.ShardKeeper)
    (w : SK.World (St := SK.Log) (App := App)) :
  SK.initialized sk = true ->
  (forall k dv, SK.recs (SK.storage w) !! k = Some dv ->
     SK.Disp dv = true /\ SK.lease_current sk dv) ->
  SK.sync sk w =
    (sk,
     SK.mkWorld (SK.storage w) (SK.app w) (SK.etcd w) (SK.etcd_put_err w)
                (SK.calls w ++ [SK.CForEach]),
     None).
Proof.
  intros Hinit Hall. unfold SK.sync. simpl. unfold SK.log_ForEach.
  rewrite walk_steady; [|done|].
  - simpl. rewrite map_to_list_empty. simpl.
    destruct sk as [i b g s c]. simpl in Hinit. by subst.
  - intros k dv Hin%elem_of_map_to_list. by apply (Hall k dv).
Qed.

Lemma walk_first (sk : SK.ShardKeeper)
    (kvs : list (string * SK.ShardKeeperDbValue)) :
  forall r : SK.syncAcc (App := App) * option error,
  SK.initialized sk = false ->
  NoDup kvs.*1 ->
  (forall k dv, (k, dv) ∈ kvs ->
     SK.Id (SK.Spec dv) = k /\ SK.lease_current sk dv /\ SK.Drop dv = false) ->
  (forall id spec (a : App),
     (SK.app_Add id spec a).2 = None \/
     (SK.app_Add id spec a).2 = Some ErrExist) ->
  r.2 = None ->
  let r' :=
    foldl (λ (r : SK.syncAcc * option error)
             (kv : string * SK.ShardKeeperDbValue),
             let '(a', e') := SK.visit sk kv.1 kv.2 r.1 in
             (a', match r.2 with Some e => Some e | None => e' end))
          r kvs in
  r'.2 = None /\
  SK.dropShardIDs r'.1 = SK.dropShardIDs r.1 /\
  (forall c, c ∈ SK.a_calls r.1 -> c ∈ SK.a_calls r'.1) /\
  (forall k dv, (k, dv) ∈ kvs -> SK.CAppAdd k ∈ SK.a_calls r'.1) /\
  forall k,
    SK.updateDbValues r'.1 !! k =
      match (list_to_map kvs : gmap string SK.ShardKeeperDbValue) !! k with
      | Some dv => Some (SK.mkDv (SK.Spec dv) true (SK.Drop dv))
      | None => SK.updateDbValues r.1 !! k
      end.
Proof.
  induction kvs as [|[k0 dv0] kvs IH]; intros r Hinit Hnd Hall Hacc Hr; simpl.
  { repeat (split; [done|]). split; [|done].
    intros k dv Hin. by apply elem_of_nil in Hin. }
  destruct (Hall k0 dv0) as (Hk & Hc & Hdrop); [by left|].
  rewrite (visit_current sk k0 dv0) by done. rewrite Hinit, andb_false_r, Hdrop.
  unfold SK.addFn. rewrite Hk.
  destruct (SK.app_Add k0 (SK.Spec dv0) (SK.a_app r.1)) as [app' err] eqn:Ha.
  rewrite bool_decide_eq_true_2
    by (specialize (Hacc k0 (SK.Spec dv0) (SK.a_app r.1));
        by rewrite Ha in Hacc).
  rewrite Hr. simpl in Hnd. apply NoDup_cons in Hnd as [Hnin Hnd].
  match goal with
  | |- context [foldl _ ?r1 kvs] =>
      destruct (IH r1 Hinit Hnd) as (He & Hd & Hmono & Hadd & Hu);
        [|done|done|]
  end.
  { intros k dv Hin. apply (Hall k dv). by right. }
  simpl in *. split; [done|]. split; [done|]. split.
  { intros c Hin. apply Hmono. apply elem_of_app. by left. }
  split.
  { intros k dv [Heq|Hin]%elem_of_cons.
    - inversion Heq; subst. apply Hmono. apply elem_of_app. right.
      by apply list_elem_of_singleton.
    - by eapply Hadd. }
  intros k. rewrite Hu. destruct (decide (k = k0)) as [->|Hne].
  - rewrite lookup_insert_eq.
    rewrite (not_elem_of_list_to_map_1 _ _ Hnin). by rewrite lookup_insert_eq.
  - rewrite !lookup_insert_ne by done. done.
Qed.

Lemma put_all_no_faults (kvs : list (string * SK.ShardKeeperDbValue)) :
  forall (w : SK.World (St := SK.Log) (App := App)),
  (forall id, SK.faults (SK.storage w) (SK.OpPut id) = None) ->
  NoDup kvs.*1 ->
  exists w',
    SK.put_all kvs w = (w', None) /\
    (forall c, c ∈ SK.calls w -> c ∈ SK.calls w') /\
    forall k,
      SK.recs (SK.storage w') !! k =
        match (list_to_map kvs : gmap string SK.ShardKeeperDbValue) !! k with
        | Some dv => Some (SK.mkDv (SK.Spec dv) true (SK.Drop dv))
        | None => SK.recs (SK.storage w) !! k
        end.
Proof.
  induction kvs as [|[k0 dv0] kvs IH]; intros w Hf Hnd; simpl.
  { exists w. done. }
  unfold SK.on_storage. simpl. unfold SK.log_Put, SK.log_write.
  rewrite Hf. simpl. apply NoDup_cons in Hnd as [Hnin Hnd].
  match goal with
  | |- context [SK.put_all kvs ?w1] =>
      destruct (IH w1) as (w' & Hp & Hc & Hl); [done|done|]
  end.
  exists w'. split; [done|]. split.
  { intros c Hin. apply Hc. simpl. apply elem_of_app. by left. }
  intros k. rewrite Hl. simpl. destruct (decide (k = k0)) as [->|Hne].
  - rewrite lookup_insert_eq.
    rewrite (not_elem_of_list_to_map_1 _ _ Hnin). by rewrite lookup_insert_eq.
  - rewrite !lookup_insert_ne by done. done.
Qed.

(** The first tick hands over everything: on a keeper that has not yet
    completed a tick, when every record of the log carries the guard or
    the bridge lease and is not marked for drop, the application accepts
    every add (or reports the shard as existing) and the log takes every
    put, [sync] returns nil, the keeper is initialized, the application
    has been asked to add every shard of the log, whatever its dispatched
    mark was, and every record is now marked dispatched and otherwise
    unchanged. *)
Theorem first_sync_dispatches_all (sk : SK.ShardKeeper)
    (w : SK.World (St := SK.Log) (App := App)) :
  SK.initialized sk = false ->
  SK.log_keyed (SK.storage w) ->
  (forall k dv, SK.recs (SK.storage w) !! k = Some dv ->
     SK.lease_current sk dv /\ SK.Drop dv = false) ->
  (forall id spec (a : App),
     (SK.app_Add id spec a).2 = None \/
     (SK.app_Add id spec a).2 = Some ErrExist) ->
  (forall id, SK.faults (SK.storage w) (SK.OpPut id) = None) ->
  let r := SK.sync sk w in
  r.2 = None /\
  SK.initialized r.1.1 = true /\
  (forall k dv, SK.recs (SK.storage w) !! k = Some dv ->
     SK.CAppAdd k ∈ SK.calls r.1.2) /\
  SK.recs (SK.storage r.1.2) =
    (λ dv, SK.mkDv (SK.Spec dv) true (SK.Drop dv)) <$> SK.recs (SK.storage w).
Proof.
  intros Hinit Hkeyed Hall Hacc Hf. unfold SK.sync. simpl.
  unfold SK.log_ForEach.
  set (acc0 := SK.mkAcc (SK.app w) (SK.calls w ++ [SK.CForEach]) [] ∅).
  destruct (walk_first sk (map_to_list (SK.recs (SK.storage w)))
              (acc0, None) Hinit) as (He & Hd & _ & Hadd & Hu);
    [apply NoDup_fst_map_to_list| |done|done|].
  { intros k dv Hin%elem_of_map_to_list. destruct (Hall k dv Hin).
    split; [|done]. by apply (Hkeyed k dv). }
  destruct (foldl _ (acc0, None) _) as [acc e0]. simpl in *.
  rewrite Hd. simpl.
  match goal with
  | |- context [SK.put_all ?kvs ?w1] =>
      destruct (put_all_no_faults kvs w1) as (w2 & Hp & Hc & Hl);
        [done|apply NoDup_fst_map_to_list|]
  end.
  rewrite Hp. simpl. split; [done|]. split; [done|]. split.
  { intros k dv Hk. apply Hc. simpl. eapply Hadd.
    by apply elem_of_map_to_list. }
  apply map_eq. intros k. rewrite Hl, list_to_map_to_list, Hu.
  rewrite list_to_map_to_list. simpl. rewrite lookup_empty, lookup_fmap.
  by destruct (SK.recs (SK.storage w) !! k).
Qed.

Lemma walk_keeps_refused (sk : SK.ShardKeeper)
    (m : gmap string SK.ShardKeeperDbValue) (k : string)
    (kvs : list (string * SK.ShardKeeperDbValue)) :
  forall r : SK.syncAcc (App := App) * option error,
  (forall a : App,
     (SK.app_Drop k a).2 <> None /\ (SK.app_Drop k a).2 <> Some ErrNotExist) ->
  (forall k' dv', (k', dv') ∈ kvs ->
     m !! k' = Some dv' /\ SK.Id (SK.Spec dv') = k') ->
  k ∉ SK.dropShardIDs r.1 ->
  (forall k' d', SK.updateDbValues r.1 !! k' = Some d' ->
     exists d0, m !! k' = Some d0 /\ SK.Spec d' = SK.Spec d0) ->
  let r' :=
    foldl (λ (r : SK.syncAcc * option error)
             (kv : string * SK.ShardKeeperDbValue),
             let '(a', e') := SK.visit sk kv.1 kv.2 r.1 in
             (a', match r.2 with Some e => Some e | None => e' end))
          r kvs in
  k ∉ SK.dropShardIDs r'.1 /\
  (forall k' d', SK.updateDbValues r'.1 !! k' = Some d' ->
     exists d0, m !! k' = Some d0 /\ SK.Spec d' = SK.Spec d0).
Proof.
  induction kvs as [|[k1 dv1] kvs IH]; intros r Href Hall Hnd Hu; simpl;
    [done|].
  destruct (Hall k1 dv1) as [Hm Hk]; [by left|].
  assert (forall acc : SK.syncAcc (App := App),
            k ∉ SK.dropShardIDs acc ->
            (forall k' d', SK.updateDbValues acc !! k' = Some d' ->
               exists d0, m !! k' = Some d0 /\ SK.Spec d' = SK.Spec d0) ->
            k ∉ SK.dropShardIDs (SK.dropFn dv1 acc).1 /\
            (forall k' d',
               SK.updateDbValues (SK.dropFn dv1 acc).1 !! k' = Some d' ->
               exists d0, m !! k' = Some d0 /\ SK.Spec d' = SK.Spec d0))
    as Hdropfn.
  { intros acc Hn Hup. unfold SK.dropFn. rewrite Hk.
    destruct (SK.app_Drop k1 (SK.a_app acc)) as [app' err] eqn:Ha.
    case_bool_decide as Hok; simpl; [|done]. split; [|done].
    intros [Hin|Hin%list_elem_of_singleton]%elem_of_app; [done|].
    destruct (Href (SK.a_app acc)) as [H1 H2].
    rewrite Hin, Ha in H1, H2. simpl in *. by destruct Hok. }
  assert (k ∉ SK.dropShardIDs (SK.visit sk k1 dv1 r.1).1 /\
          (forall k' d',
             SK.updateDbValues (SK.visit sk k1 dv1 r.1).1 !! k' = Some d' ->
             exists d0, m !! k' = Some d0 /\ SK.Spec d' = SK.Spec d0))
    as [Hn1 Hu1].
  { unfold SK.visit.
    destruct (negb _ && negb _); [by apply Hdropfn|].
    destruct (SK.Disp dv1 && SK.initialized sk); [done|].
    destruct (SK.Drop dv1); [by apply Hdropfn|].
    unfold SK.addFn. rewrite Hk.
    destruct (SK.app_Add k1 (SK.Spec dv1) (SK.a_app r.1)) as [app' err].
    case_bool_decide; simpl; [|done]. split; [done|].
    intros k' d' [[<- <-]|[_ Hl]]%lookup_insert_Some; [|by apply Hu].
    by exists dv1. }
  destruct (SK.visit sk k1 dv1 r.1) as [a' e'].
  apply IH; [done| |done|done].
  intros k' dv' Hin. apply (Hall k' dv'). by right.
Qed.

Lemma remove_all_other (ids : list string) (k : string) :
  forall (w : SK.World (St := SK.Log) (App := App)),
  k ∉ ids ->
  SK.recs (SK.storage (SK.remove_all ids w).1) !! k =
    SK.recs (SK.storage w) !! k.
Proof.
  induction ids as [|id ids IH]; intros w Hn; simpl; [done|].
  apply not_elem_of_cons in Hn as [Hne Hn].
  unfold SK.on_storage. simpl. unfold SK.log_Remove, SK.log_write.
  destruct (SK.faults (SK.storage w) (SK.OpRemove id)) as [e|]; simpl;
    [done|].
  rewrite IH by done. simpl. by rewrite lookup_delete_ne.
Qed.

Lemma put_all_keeps_spec (m : gmap string SK.ShardKeeperDbValue)
    (k : string) (dv : SK.ShardKeeperDbValue)
    (kvs : list (string * SK.ShardKeeperDbValue)) :
  forall (w : SK.World (St := SK.Log) (App := App)),
  m !! k = Some dv ->
  (forall k' d', (k', d') ∈ kvs ->
     exists d0, m !! k' = Some d0 /\ SK.Spec d' = SK.Spec d0) ->
  (exists d, SK.recs (SK.storage w) !! k = Some d /\
             SK.Spec d = SK.Spec dv) ->
  exists d, SK.recs (SK.storage (SK.put_all kvs w).1) !! k = Some d /\
            SK.Spec d = SK.Spec dv.
Proof.
  induction kvs as [|[k1 d1] kvs IH]; intros w Hm Hall Hw; simpl; [done|].
  unfold SK.on_storage. simpl. unfold SK.log_Put, SK.log_write.
  destruct (SK.faults (SK.storage w) (SK.OpPut k1)) as [e|]; simpl; [done|].
  apply IH; [done| |].
  { intros k' d' Hin. apply (Hall k' d'). by right. }
  simpl. destruct (decide (k = k1)) as [<-|Hne].
  - rewrite lookup_insert_eq. eexists. split; [done|]. simpl.
    destruct (Hall k d1) as (d0 & Hd0 & Hs); [by left|].
    rewrite Hm in Hd0. inversion Hd0; by subst.
  - by rewrite lookup_insert_ne.
Qed.

(** A shard the application refuses to release is never forgotten: when
    the application answers every drop of a shard with an error other
    than not-found, the record of that shard is still in the log after
    [sync], with the same spec, whatever else the tick did and whether
    it returned nil or an error. *)
Theorem sync_keeps_refused_shard (sk : SK.ShardKeeper)
    (w : SK.World (St := SK.Log) (App := App))
    (k : string) (dv : SK.ShardKeeperDbValue) :
  SK.log_keyed (SK.storage w) ->
  SK.recs (SK.storage w) !! k = Some dv ->
  (forall a : App,
     (SK.app_Drop k a).2 <> None /\ (SK.app_Drop k a).2 <> Some ErrNotExist) ->
  exists dv',
    SK.recs (SK.storage (SK.sync sk w).1.2) !! k = Some dv' /\
    SK.Spec dv' = SK.Spec dv.
Proof.
  intros Hkeyed Hk Href. unfold SK.sync. simpl. unfold SK.log_ForEach.
  set (acc0 := SK.mkAcc (SK.app w) (SK.calls w ++ [SK.CForEach]) [] ∅).
  destruct (walk_keeps_refused sk (SK.recs (SK.storage w)) k
              (map_to_list (SK.recs (SK.storage w))) (acc0, None) Href)
    as [Hn Hu].
  { intros k' dv' Hin%elem_of_map_to_list. split; [done|].
    by apply (Hkeyed k' dv'). }
  { simpl. apply not_elem_of_nil. }
  { intros k' d'. simpl. by rewrite lookup_empty. }
  destruct (foldl _ (acc0, None) _) as [acc e0]. simpl in *.
  set (w0 := SK.mkWorld (SK.storage w) (SK.a_app acc) (SK.etcd w)
                        (SK.etcd_put_err w) (SK.a_calls acc)).
  pose proof (remove_all_other (SK.dropShardIDs acc) k w0 Hn) as Hrm.
  destruct (SK.remove_all (SK.dropShardIDs acc) w0) as [w1 [e1|]]; simpl in *.
  { exists dv. by rewrite Hrm. }
  pose proof (put_all_keeps_spec (SK.recs (SK.storage w)) k dv
                (map_to_list (SK.updateDbValues acc)) w1 Hk) as Hput.
  destruct Hput as (d & Hd & Hs).
  { intros k' d' Hin%elem_of_map_to_list. by apply Hu. }
  { exists dv. by rewrite Hrm. }
  destruct (SK.put_all _ w1) as [w2 [e2|]]; simpl in *; by exists d.
Qed.

End Sync.

End SyncMore.


(** ** The properties above at work on the example queues *)

Module EQDemo.
Import Go.

Lemma demo_queue_ok : EQ.queue_ok EQ.demo_queue.
Proof.
  split; [|split; [|split]].
  - split; [constructor|]. intros s. simpl. rewrite lookup_empty. split.
    + intros Hin. by apply elem_of_nil in Hin.
    + by intros [x Hx].
  - apply map_Forall_empty.
  - apply PQFacts.heap_upto_is_heap. intros k Hk.
    assert (k = 1) as -> by (unfold PQ.Len in Hk; simpl in Hk; lia).
    vm_compute. discriminate.
  - intros k it Hat. pose proof (PQFacts.at_range _ _ _ Hat) as Hr.
    unfold PQ.Len in Hr. simpl in Hr.
    assert (k = 0 \/ k = 1) as [-> | ->] by lia;
      vm_compute in Hat; by inversion Hat.
Defined.

Lemma idle_accepts (v : string) (ev : EQ.mvEvent) (p : Z) (checkDup : bool) :
  EQ.demo_unmarshal v = Some ev ->
  EQ.accepted EQ.demo_unmarshal (PQ.mkItem v p 0) checkDup EQ.idle_queue ev.
Proof. intros Hv. split; [exact Hv|]. intros _. apply not_elem_of_empty. Defined.

Lemma tryPopAndPush_stops_at_future_root_witness :
  exists eq',
    EQ.tryPopAndPush EQ.demo_unmarshal 50 EQ.demo_queue
      = Some (eq', Returned) /\
    (EQ.pq eq' = [] \/
     exists root, PQ.at_ (EQ.pq eq') 0 = Some root /\ 50 < PQ.Priority root).
Proof.
  destruct (EQ.tryPopAndPush EQ.demo_unmarshal 50 EQ.demo_queue)
    as [[eq' e]|] eqn:Hrun; [|vm_compute in Hrun; discriminate].
  assert (e = Returned) as -> by (vm_compute in Hrun; by inversion Hrun).
  exists eq'. split; [reflexivity|].
  exact (EQMore.tryPopAndPush_stops_at_future_root EQ.demo_unmarshal 50
           EQ.demo_queue eq' demo_queue_ok Hrun).
Defined.

Lemma push_drops_silently_witness :
  EQ.push EQ.demo_unmarshal 0 (PQ.mkItem "junk" 0 0) true EQ.idle_queue =
    (EQ.set_mu EQ.idle_queue (EQ.relocked (EQ.mu EQ.idle_queue)), Returned).
Proof.
  apply EQMore.push_drops_silently; [reflexivity|]. left. reflexivity.
Defined.

Lemma push_delivers_due_witness :
  let r := EQ.push EQ.demo_unmarshal 0 (PQ.mkItem "moves" 0 0) true
             EQ.idle_queue in
  EQ.pq r.1 = [] /\ EQ.serviceBlk r.1 = {["S"]} ∪ ∅.
Proof.
  pose proof (EQMore.push_delivers_due EQ.demo_unmarshal 0
                (PQ.mkItem "moves" 0 0) true EQ.idle_queue
                EQ.other_service_event eq_refl
                (idle_accepts "moves" _ 0 true eq_refl)
                (or_introl (or_introl eq_refl))) as (H1 & H2 & _).
  split; [exact H1|exact H2].
Defined.

Lemma push_parks_future_witness :
  let r := EQ.push EQ.demo_unmarshal 50 (PQ.mkItem "load" 100 0) true
             EQ.idle_queue in
  r.2 = Returned /\
  PQ.content <$> EQ.pq r.1 ≡ₚ [("load"%string, 100)].
Proof.
  assert (50 < PQ.Priority (PQ.mkItem "load" 100 0)) as Hlate
    by (simpl; lia).
  pose proof (EQMore.push_parks_future EQ.demo_unmarshal 50
                (PQ.mkItem "load" 100 0) true EQ.idle_queue
                EQ.load_event eq_refl
                (idle_accepts "load" _ 100 true eq_refl)
                (or_introl eq_refl) Hlate) as (H1 & _ & H3 & _).
  split; [exact H1|exact H3].
Defined.

Lemma push_unknown_type_panics_witness :
  let r := EQ.push EQ.demo_unmarshal 0 (PQ.mkItem "odd" 0 0) true
             EQ.idle_queue in
  r.2 = Panicked "unknown ev type" /\
  EQ.mu r.1 = EQ.relocked (EQ.mu EQ.idle_queue).
Proof.
  assert (~ EQ.immediate EQ.odd_event) as Hni
    by (intros [H|[H|H]]; vm_compute in H; discriminate).
  assert (~ EQ.deferrable EQ.odd_event) as Hnd
    by (intros [H|H]; vm_compute in H; discriminate).
  pose proof (EQMore.push_unknown_type_panics EQ.demo_unmarshal 0
                (PQ.mkItem "odd" 0 0) true EQ.idle_queue
                EQ.odd_event eq_refl
                (idle_accepts "odd" _ 0 true eq_refl) Hni Hnd)
    as (H1 & H2 & _).
  split; [exact H1|exact H2].
Defined.

Lemma push_then_evLoop_publishes_witness :
  let r1 := EQ.push EQ.demo_unmarshal 0 (PQ.mkItem "moves" 0 0) true
              EQ.idle_queue in
  let r2 := EQ.evLoop_iter EQ.kv_CompareAndSwap "S"
              (EQ.mkLoop r1.1 (∅ : gmap string string) []) in
  r1.2 = Returned /\ r2.2 = Returned /\
  EQ.l_cas r2.1 = [] ++ [EQ.task_cas "sm" EQ.other_service_event].
Proof.
  pose proof (EQMore.push_then_evLoop_publishes EQ.demo_unmarshal 0
                (PQ.mkItem "moves" 0 0) true EQ.idle_queue
                EQ.other_service_event (gmap string string)
                EQ.kv_CompareAndSwap ∅ [] eq_refl
                (idle_accepts "moves" _ 0 true eq_refl)
                (or_introl eq_refl) eq_refl) as (H1 & H2 & H3 & _).
  split; [exact H1|]. split; [exact H2|exact H3].
Defined.

Lemma park_then_tick_delivers_witness :
  let r1 := EQ.push EQ.demo_unmarshal 50 (PQ.mkItem "load" 100 0) true
              EQ.idle_queue in
  r1.2 = Returned /\
  exists eq2,
    EQ.tryPopAndPush EQ.demo_unmarshal 100 r1.1 = Some (eq2, Returned) /\
    EQ.pq eq2 = [] /\
    EQ.serviceEvChan eq2 !! "S" = Some [EQ.load_event].
Proof.
  assert (50 < PQ.Priority (PQ.mkItem "load" 100 0) <= 100) as Hdue
    by (simpl; lia).
  pose proof (EQMore.park_then_tick_delivers EQ.demo_unmarshal 50 100
                (PQ.mkItem "load" 100 0) true EQ.idle_queue
                EQ.load_event eq_refl eq_refl
                (idle_accepts "load" _ 100 true eq_refl)
                (or_introl eq_refl) Hdue eq_refl) as (H1 & _ & _ & H4).
  split; [exact H1|exact H4].
Defined.

Lemma smserver_push_unlocks_once_witness :
  let r := EQ.push EQ.demo_unmarshal 0 (PQ.mkItem "moves" 0 0) true
             EQ.idle_queue in
  (r.2 = Blocked /\ ops (EQ.mu r.1) = [] ++ [MuLock] /\
   held (EQ.mu r.1) = true) \/
  ((r.2 = Returned \/ exists msg, r.2 = Panicked msg) /\
   ops (EQ.mu r.1) = [] ++ [MuLock; MuUnlock] /\
   held (EQ.mu r.1) = false).
Proof.
  exact (EQFacts.smserver_push_unlocks_once EQ.demo_unmarshal 0
           (PQ.mkItem "moves" 0 0) true EQ.idle_queue eq_refl).
Defined.

Lemma early_push_unlock_count_witness :
  let r := Server.push (λ _, Some Server.dup_event) 0 (PQ.mkItem "ev" 0 0)
             true Server.dup_queue in
  r.2 = Fatal unlock_of_unlocked /\
  ops (Server.mu r.1) = [] ++ [MuLock; MuUnlock; MuUnlock].
Proof.
  apply (proj1 (ServerMore.early_push_unlock_count
                  (λ _, Some Server.dup_event) 0 (PQ.mkItem "ev" 0 0) true
                  Server.dup_queue eq_refl)).
  split; [reflexivity|]. exists Server.dup_event. split; [reflexivity|].
  simpl. by apply elem_of_singleton.
Defined.

End EQDemo.


Module OPMoreDemo.
Import Go.

Lemma dropOrAdd_failed_drop_skips_add_witness :
  let r := OP.dropOrAdd OP.failing_send (OP.mkMove "svc" "s1" "E1" "E2" false None)
             (OP.mkOp tt [] 0%nat) in
  r.2 = Some (ErrExternal "not 200") /\
  OP.sent r.1 = [] ++ [OP.mkReq "s1" "E1" "drop"].
Proof.
  apply (OPMore.dropOrAdd_failed_drop_skips_add OP.failing_send
           (OP.mkMove "svc" "s1" "E1" "E2" false None) (OP.mkOp tt [] 0%nat)
           (ErrExternal "not 200")); [discriminate|reflexivity].
Defined.

Lemma dropOrAdd_failed_add_witness :
  let r := OP.dropOrAdd OP.add_failing_send OP.droppable_move
             (OP.mkOp tt [] 0%nat) in
  r.2 = None /\
  OP.sent r.1 = [OP.mkReq "s1" "E1" "drop"] ++ [OP.mkReq "s1" "E2" "add"].
Proof.
  apply (OPMore.dropOrAdd_failed_add OP.add_failing_send OP.droppable_move
           (OP.mkOp tt [] 0%nat) (ErrExternal "not 200"));
    [discriminate|reflexivity|reflexivity].
Defined.


End OPMoreDemo.

Module SKMoreDemo.
Import Go.

Lemma steady_log_records k dv :
  SK.recs SK.steady_log !! k = Some dv ->
  SK.Id (SK.Spec dv) = k /\ SK.Disp dv = true /\ SK.Drop dv = false /\
  SK.SpecLease (SK.Spec dv) = SK.G0.
Proof.
  unfold SK.steady_log. simpl. intros Hl.
  repeat (apply lookup_insert_Some in Hl as [[<- <-]|[_ Hl]]; [done|]).
  by rewrite lookup_empty in Hl.
Defined.

Lemma gset_add_accepted id spec (a : gset string) :
  (SK.app_Add id spec a).2 = None \/ (SK.app_Add id spec a).2 = Some ErrExist.
Proof. simpl. case_bool_decide; [by right|by left]. Defined.

Lemma acquireGuardLease_rejects_untouched_witness :
  let r := SK.acquireGuardLease SK.lease_text SK.guard_modify SK.guard_value
             SK.steady_keeper SK.steady_world in
  r.1 = (SK.steady_keeper, SK.steady_world) /\ is_Some r.2.
Proof.
  apply (SKMore.acquireGuardLease_rejects_untouched SK.lease_text
           SK.guard_modify SK.guard_value SK.steady_keeper SK.steady_world).
  right. reflexivity.
Defined.

Lemma acquireGuardLease_storage_failure_witness :
  let r := SK.acquireGuardLease SK.lease_text SK.guard_modify SK.guard_value
             SK.round_keeper SK.faulty_round_world in
  r.2 = Some SK.migrate_refused /\
  SK.guardLease r.1.1 = SK.G1 /\
  SK.bridgeLease r.1.1 = SK.NoLease.
Proof.
  pose proof (SKMore.acquireGuardLease_storage_failure SK.lease_text
                SK.guard_modify SK.guard_value SK.round_keeper
                SK.faulty_round_world SK.migrate_refused eq_refl)
    as H.
  destruct H as (H1 & H2 & H3 & _).
  - simpl. discriminate.
  - intros _. reflexivity.
  - left. reflexivity.
  - split; [exact H1|]. split; [exact H2|exact H3].
Defined.


Lemma handleRbEvent_session_events_witness :
  let r := SK.handleRbEvent SK.decode_shard_lease SK.decode_lease
             SK.lease_text SK.bridge_path SK.guard_path SK.session_dir
             (Some SK.session_delete) SK.steady_keeper SK.steady_world in
  r.1.1 = SK.steady_keeper /\
  SK.calls r.1.2 = [] ++ [SK.CDropByLease false 5].
Proof.
  pose proof (SKMore.handleRbEvent_session_events
                SK.decode_shard_lease SK.decode_lease SK.lease_text
                SK.bridge_path SK.guard_path SK.session_dir
                SK.session_delete SK.session_value SK.steady_keeper
                SK.steady_world eq_refl) as H.
  destruct H as (H1 & _ & H3); [discriminate|discriminate|reflexivity|].
  split; [exact H1|].
  exact (proj1 (H3 _ SK.G0 eq_refl eq_refl eq_refl)).
Defined.

Lemma round_bridge_then_guard_witness :
  let b := SK.acquireBridgeLease SK.bridge_create SK.bridge_value
             SK.steady_keeper SK.steady_world in
  let r := SK.acquireGuardLease SK.lease_text SK.guard_modify SK.guard_value
             b.1.1 b.1.2 in
  b.2 = None /\
  SK.bridgeLease b.1.1 = SK.B1 /\
  SK.guardLease r.1.1 = SK.G1 /\
  SK.bridgeLease r.1.1 = SK.NoLease.
Proof.
  destruct (SK.acquireBridgeLease SK.bridge_create SK.bridge_value
              SK.steady_keeper SK.steady_world) as [[sk1 w1] e] eqn:Hb.
  assert (e = None) as -> by (vm_compute in Hb; by inversion Hb).
  pose proof (SKMore.round_bridge_then_guard SK.lease_text SK.bridge_create
                SK.guard_modify SK.bridge_value SK.guard_value
                SK.steady_keeper sk1 SK.steady_world w1 eq_refl Hb) as H.
  destruct H as (H1 & _ & H3 & H4 & _).
  - simpl. discriminate.
  - reflexivity.
  - intros _. reflexivity.
  - simpl. split; [reflexivity|]. split; [exact H1|].
    split; [exact H3|exact H4].
Defined.

Lemma NewShardKeeper_adopts_one_live_guard_witness :
  exists w' started,
    SK.NewShardKeeper SK.decode_shard_lease "svc" "c1" true
      (inr SK.startup_read) SK.startup_ttl SK.steady_world
      = inl (w', inl started) /\
    SK.startRev started = 11 /\
    SK.initialized (SK.keeper started) = false /\
    SK.bridgeLease (SK.keeper started) = SK.NoLease.
Proof.
  destruct (SK.NewShardKeeper SK.decode_shard_lease "svc" "c1" true
              (inr SK.startup_read) SK.startup_ttl SK.steady_world)
    as [[w' [started|e]]|msg] eqn:Hrun;
    [|exfalso; vm_compute in Hrun; discriminate..].
  exists w', started. split; [reflexivity|].
  destruct (SKMore.NewShardKeeper_adopts_one_live_guard
              SK.decode_shard_lease "svc" "c1" true (inr SK.startup_read)
              SK.startup_ttl SK.steady_world w' started Hrun)
    as (_ & gresp & Hget & _ & Hrev & Hinit & Hbr & _).
  inversion Hget; subst gresp. split; [exact Hrev|]. split; [exact Hinit|exact Hbr].
Defined.

Lemma sync_steady_tick_witness :
  SK.sync SK.steady_keeper SK.steady_world =
    (SK.steady_keeper,
     SK.mkWorld (SK.storage SK.steady_world) (SK.app SK.steady_world)
                (SK.etcd SK.steady_world) (SK.etcd_put_err SK.steady_world)
                (SK.calls SK.steady_world ++ [SK.CForEach]),
     None).
Proof.
  apply SyncMore.sync_steady_tick; [reflexivity|].
  intros k dv Hl. destruct (steady_log_records k dv Hl) as (_ & Hd & _ & Hg).
  split; [exact Hd|]. left. unfold SK.EqualTo. by rewrite Hg.
Defined.

Lemma first_sync_dispatches_all_witness :
  let r := SK.sync SK.fresh_keeper SK.steady_world in
  r.2 = None /\
  SK.initialized r.1.1 = true /\
  SK.recs (SK.storage r.1.2) =
    (λ dv, SK.mkDv (SK.Spec dv) true (SK.Drop dv))
      <$> SK.recs (SK.storage SK.steady_world).
Proof.
  pose proof (SyncMore.first_sync_dispatches_all SK.fresh_keeper
                SK.steady_world eq_refl) as H.
  destruct H as (H1 & H2 & _ & H4).
  - intros k dv Hl. by destruct (steady_log_records k dv Hl).
  - intros k dv Hl. destruct (steady_log_records k dv Hl) as (_ & _ & Hd & Hg).
    split; [|exact Hd]. left. unfold SK.EqualTo. by rewrite Hg.
  - apply gset_add_accepted.
  - reflexivity.
  - split; [exact H1|]. split; [exact H2|exact H4].
Defined.

Lemma sync_keeps_refused_shard_witness :
  exists dv',
    SK.recs (SK.storage (SK.sync SK.round_keeper SK.busy_world).1.2) !! "s3"
      = Some dv' /\
    SK.Spec dv' = SK.Spec (SK.shard "s3" (SK.mkLease 9 0)).
Proof.
  apply (SyncMore.sync_keeps_refused_shard SK.round_keeper SK.busy_world "s3"
           (SK.shard "s3" (SK.mkLease 9 0)) Round.round_log_keyed).
  - reflexivity.
  - intros a. split; discriminate.
Defined.

End SKMoreDemo.
